(** * Terminal-to-speech pipeline of simple-claude-gui

    A shallow embedding of the voice pipeline:
    - [Terminal.tsx]: [stripAnsi], the [onPtyData] handler (carry-over
      buffer, tag extraction, prose filter, spoken-content set), the replay
      on mount and the [terminal.onData] handler;
    - [VoiceContext.tsx]: [speakText], [processQueue], [stopSpeaking], with
      the suspended calls of the asynchronous [processQueue] made explicit
      and the events of the event loop as steps;
    - [voice-manager.ts]: the results of [VoiceManager.speak], and the
      manager's status, selection and settings calls over a file system
      that is read only;
    - further parts of [Terminal.tsx]: the chunk buffers behind the replay,
      the text written to the screen, and the paste and drop handlers;
    - the audio payload between the two processes, base64 on the one side
      and [atob] on the other.

    A JavaScript string is a sequence of UTF-16 code units, modelled as
    [list N].  Each regular expression of the source is embedded as a
    matcher written out by hand and, further down, as a term of a small
    regular-expression language with the backtracking semantics of
    ECMAScript; the two are proved equal. *)

From Stdlib Require Import Ascii String.
From Stdlib Require Import List NArith ZArith DecimalString Bool Arith Lia.
Import ListNotations.

(** ** JavaScript strings *)

Abbreviation str := (list N).

(** An ASCII literal as a JavaScript string. *)
Definition js (s : string) : str := map N_of_ascii (list_ascii_of_string s).

Definition str_eqb (a b : str) : bool :=
  if list_eq_dec N.eq_dec a b then true else false.

Definition between (lo hi c : N) : bool := (N.leb lo c && N.leb c hi)%bool.

(** [[0-9;]] *)
Definition isDigitSemi (c : N) : bool := (between 48 57 c || N.eqb c 59)%bool.
(** [[a-zA-Z]] *)
Definition isAlpha (c : N) : bool := (between 97 122 c || between 65 90 c)%bool.
(** [[\x00-\x1f\x7f]] *)
Definition isControl (c : N) : bool := (N.leb c 31 || N.eqb c 127)%bool.
(** [\s], which is also the set removed by [String.prototype.trim]:
    WhiteSpace and LineTerminator of ECMAScript. *)
Definition isSpace (c : N) : bool :=
  (between 9 13 c || N.eqb c 32 || N.eqb c 160 || N.eqb c 5760
   || between 8192 8202 c || N.eqb c 8232 || N.eqb c 8233 || N.eqb c 8239
   || N.eqb c 8287 || N.eqb c 12288 || N.eqb c 65279)%bool.
(** [[\r\n]] *)
Definition isNewline (c : N) : bool := (N.eqb c 13 || N.eqb c 10)%bool.

Fixpoint dropWhile (p : N -> bool) (s : str) : str :=
  match s with
  | [] => []
  | c :: s' => if p c then dropWhile p s' else s
  end.

Fixpoint takeWhile (p : N -> bool) (s : str) : str :=
  match s with
  | [] => []
  | c :: s' => if p c then c :: takeWhile p s' else []
  end.

(** [s.trim()] *)
Definition trim (s : str) : str :=
  rev (dropWhile isSpace (rev (dropWhile isSpace s))).

(** [s.startsWith(pat)] *)
Fixpoint startsWith (pat s : str) : bool :=
  match pat, s with
  | [], _ => true
  | _ :: _, [] => false
  | p :: pat', c :: s' => (N.eqb p c && startsWith pat' s')%bool
  end.

(** A regular expression tested at every start position, left to right:
    [m] decides whether it matches at the head of the given suffix. *)
Fixpoint anywhere (m : str -> bool) (s : str) : bool :=
  (m s || match s with [] => false | _ :: s' => anywhere m s' end)%bool.

(** [s.includes(pat)] *)
Definition includes (pat s : str) : bool := anywhere (startsWith pat) s.

(** The first occurrence of [pat] in [s]: the text before it and the text
    after it. *)
Fixpoint cut (pat s : str) : option (str * str) :=
  if startsWith pat s then Some ([], skipn (length pat) s)
  else match s with
       | [] => None
       | c :: s' =>
           match cut pat s' with
           | Some (b, a) => Some (c :: b, a)
           | None => None
           end
       end.

(** ** Global replacement: [s.replace(/re/g, rep)]

    [m s] is the length of the match of the regular expression anchored at
    the head of [s], if there is one.  The scan goes left to right; after a
    match it resumes at the end of the match ([skip] counts the code units of
    the match still to be dropped). *)
Section Replace.
Variable m : str -> option nat.
Variable rep : str.

Fixpoint replaceFrom (skip : nat) (s : str) : str :=
  match s with
  | [] => match m [] with Some _ => rep | None => [] end
  | c :: s' =>
      match skip with
      | S k => replaceFrom k s'
      | 0 =>
          match m s with
          | Some (S n) => rep ++ replaceFrom n s'
          | Some 0 => rep ++ c :: replaceFrom 0 s'
          | None => c :: replaceFrom 0 s'
          end
      end
  end.

Definition replaceAll (s : str) : str := replaceFrom 0 s.
End Replace.

(** [/\x1b\[[0-9;]*[a-zA-Z]/]: the classes [[0-9;]] and [[a-zA-Z]] are
    disjoint, so the greedy star never gives a code unit back. *)
Definition reCSI (s : str) : option nat :=
  match s with
  | c1 :: c2 :: r =>
      if (N.eqb 27 c1 && N.eqb 91 c2)%bool then
        let ds := takeWhile isDigitSemi r in
        match skipn (length ds) r with
        | c :: _ => if isAlpha c then Some (3 + length ds) else None
        | [] => None
        end
      else None
  | _ => None
  end.

(** [[^\x07]] *)
Definition notBEL (c : N) : bool := negb (N.eqb 7 c).
(** [[^\x1b]] *)
Definition notESC (c : N) : bool := negb (N.eqb 27 c).

(** [/\x1b\][^\x07]*\x07/] *)
Definition reOSC (s : str) : option nat :=
  match s with
  | c1 :: c2 :: r =>
      if (N.eqb 27 c1 && N.eqb 93 c2)%bool then
        let body := takeWhile notBEL r in
        match skipn (length body) r with
        | _ :: _ => Some (3 + length body)
        | [] => None
        end
      else None
  | _ => None
  end.

(** [/\x1b\[\?[0-9;]*[a-zA-Z]/] *)
Definition rePrivate (s : str) : option nat :=
  match s with
  | c1 :: c2 :: c3 :: r =>
      if (N.eqb 27 c1 && N.eqb 91 c2 && N.eqb 63 c3)%bool then
        let ds := takeWhile isDigitSemi r in
        match skipn (length ds) r with
        | c :: _ => if isAlpha c then Some (4 + length ds) else None
        | [] => None
        end
      else None
  | _ => None
  end.

(** [[PX^_]] *)
Definition isStringIntro (c : N) : bool :=
  (N.eqb c 80 || N.eqb c 88 || N.eqb c 94 || N.eqb c 95)%bool.

(** [/\x1b[PX^_][^\x1b]*\x1b\\/] *)
Definition reStringSeq (s : str) : option nat :=
  match s with
  | c1 :: i :: r =>
      if (N.eqb 27 c1 && isStringIntro i)%bool then
        let body := takeWhile notESC r in
        match skipn (length body) r with
        | _ :: c :: _ => if N.eqb 92 c then Some (4 + length body) else None
        | _ => None
        end
      else None
  | _ => None
  end.

(** [/[\x00-\x1f\x7f]/] *)
Definition reControl (s : str) : option nat :=
  match s with
  | c :: _ => if isControl c then Some 1 else None
  | [] => None
  end.

(** [/[\r\n]+/] *)
Definition reNewlines (s : str) : option nat :=
  match takeWhile isNewline s with
  | [] => None
  | r => Some (length r)
  end.

(** [/\s+/] *)
Definition reSpaces (s : str) : option nat :=
  match takeWhile isSpace s with
  | [] => None
  | r => Some (length r)
  end.

(** [stripAnsi] of Terminal.tsx: five replacements in sequence. *)
Definition stripAnsi (text : str) : str :=
  replaceAll reControl []
    (replaceAll reStringSeq []
       (replaceAll rePrivate []
          (replaceAll reOSC []
             (replaceAll reCSI [] text)))).

(** ** The speech markers *)

(** The opening marker, U+00AB t t s U+00BB. *)
Definition OPEN : str := [171; 116; 116; 115; 187]%N.
(** The closing marker, U+00AB / t t s U+00BB. *)
Definition CLOSE : str := [171; 47; 116; 116; 115; 187]%N.
(** The text looked for by [ttsBufferRef.current.includes]: the opening
    marker without its last code unit. *)
Definition OPEN_HEAD : str := [171; 116; 116; 115]%N.

(** One [tagRegex.exec] on the text from [lastIndex] on, for
    [/<<tts>>([\s\S]*?)<<\/tts>>/g] (where [<<] and [>>] stand for the
    guillemets U+00AB and U+00BB): the capture group and the text after the
    match.  The engine tries the start positions from left to right, so the
    match starts at the first opening marker; the group is lazy, so it stops
    at the first closing marker after it; if there is none, no later start
    can succeed either. *)
Definition tagExec (s : str) : option (str * str) :=
  match cut OPEN s with
  | None => None
  | Some (_, s1) =>
      match cut CLOSE s1 with
      | None => None
      | Some (inner, rest) => Some (inner, rest)
      end
  end.

(** ** The prose filter of [onPtyData] *)

(** [[{}()\[\];=`$]] *)
Definition isCodePunct (c : N) : bool :=
  (N.eqb c 123 || N.eqb c 125 || N.eqb c 40 || N.eqb c 41 || N.eqb c 91
   || N.eqb c 93 || N.eqb c 59 || N.eqb c 61 || N.eqb c 96 || N.eqb c 36)%bool.

(** A keyword followed by [\s]. *)
Definition keywordSpace (kw : string) (s : str) : bool :=
  (startsWith (js kw) s &&
   match skipn (length (js kw)) s with
   | c :: _ => isSpace c
   | [] => false
   end)%bool.

(** [/[{}()\[\];=`$]|^\s*\/\/|^\s*#|function\s|const\s|let\s|var\s/.test] *)
Definition looksLikeCode (content : str) : bool :=
  (existsb isCodePunct content
   || startsWith (js "//") (dropWhile isSpace content)
   || startsWith (js "#") (dropWhile isSpace content)
   || anywhere (keywordSpace "function") content
   || anywhere (keywordSpace "const") content
   || anywhere (keywordSpace "let") content
   || anywhere (keywordSpace "var") content)%bool.

(** [/^[a-zA-Z]/.test] *)
Definition startsAlpha (content : str) : bool :=
  match content with
  | c :: _ => isAlpha c
  | [] => false
  end.

(** [content.length > 5 && /^[a-zA-Z]/.test(content) && !looksLikeCode] *)
Definition looksLikeProse (content : str) : bool :=
  (Nat.ltb 5 (length content) && startsAlpha content
   && negb (looksLikeCode content))%bool.

(** ** Regular expressions

    The fragment of the regular expressions of ECMAScript that the source
    uses, with the backtracking semantics of the language: alternatives
    are tried left to right, a greedy star tries one more iteration before
    it goes on, a lazy star goes on first, and an iteration that consumes
    nothing is not retried.  The matchers above are proved to agree with
    it. *)
Inductive regex : Type :=
| Class (p : N -> bool)          (* a character or a character class *)
| Empty
| Cat (a b : regex)
| Or (a b : regex)               (* a|b *)
| Star (a : regex)               (* a* *)
| LazyStar (a : regex)           (* a*? *)
| Start.                         (* ^ *)

(** A literal text. *)
Fixpoint lit (pat : str) : regex :=
  match pat with
  | [] => Empty
  | c :: pat' => Cat (Class (N.eqb c)) (lit pat')
  end.

(** [a+] *)
Definition Plus (a : regex) : regex := Cat a (Star a).

(** The match of [r] at the head of [s], continued by [k] on the rest;
    [whole] is the length of the whole input, for [^].  Each iteration of a
    star consumes input, so the length of the input bounds [fuel]. *)
Fixpoint matchK (fuel : nat) (whole : nat)
  : regex -> str -> (str -> option str) -> option str :=
  fix go (r : regex) (s : str) (k : str -> option str) {struct r}
    : option str :=
    match r with
    | Class p =>
        match s with
        | c :: s' => if p c then k s' else None
        | [] => None
        end
    | Empty => k s
    | Cat a b => go a s (fun s' => go b s' k)
    | Or a b =>
        match go a s k with
        | Some x => Some x
        | None => go b s k
        end
    | Star a =>
        match fuel with
        | 0 => k s
        | S fuel' =>
            match go a s (fun s' =>
                            if Nat.ltb (length s') (length s)
                            then matchK fuel' whole (Star a) s' k
                            else None) with
            | Some x => Some x
            | None => k s
            end
        end
    | LazyStar a =>
        match fuel with
        | 0 => k s
        | S fuel' =>
            match k s with
            | Some x => Some x
            | None =>
                go a s (fun s' =>
                          if Nat.ltb (length s') (length s)
                          then matchK fuel' whole (LazyStar a) s' k
                          else None)
            end
        end
    | Start => if Nat.eqb (length s) whole then k s else None
    end.

(** The text after the match of [r] at the head of [s]. *)
Definition matchAt (whole : nat) (r : regex) (s : str) : option str :=
  matchK (S (length s)) whole r s Some.

(** The length of that match. *)
Definition matchLen (r : regex) (s : str) : option nat :=
  match matchAt 0 r s with
  | Some rest => Some (length s - length rest)
  | None => None
  end.

(** The leftmost match: the text from its start on, and the text after
    it. *)
Fixpoint search (whole : nat) (r : regex) (s : str) : option (str * str) :=
  match matchAt whole r s with
  | Some rest => Some (s, rest)
  | None =>
      match s with
      | [] => None
      | _ :: s' => search whole r s'
      end
  end.

(** [re.test(s)] *)
Definition test (r : regex) (s : str) : bool :=
  match search (length s) r s with
  | Some _ => true
  | None => false
  end.

Definition anyChar (c : N) : bool := true.

(** The regular expressions of Terminal.tsx and VoiceContext.tsx. *)
Definition rxCSI : regex :=
  Cat (Class (N.eqb 27))
      (Cat (Class (N.eqb 91)) (Cat (Star (Class isDigitSemi)) (Class isAlpha))).
Definition rxOSC : regex :=
  Cat (Class (N.eqb 27))
      (Cat (Class (N.eqb 93)) (Cat (Star (Class notBEL)) (Class (N.eqb 7)))).
Definition rxPrivate : regex :=
  Cat (Class (N.eqb 27))
      (Cat (Class (N.eqb 91))
           (Cat (Class (N.eqb 63))
                (Cat (Star (Class isDigitSemi)) (Class isAlpha)))).
Definition rxStringSeq : regex :=
  Cat (Class (N.eqb 27))
      (Cat (Class isStringIntro)
           (Cat (Star (Class notESC))
                (Cat (Class (N.eqb 27)) (Class (N.eqb 92))))).
Definition rxControl : regex := Class isControl.
Definition rxNewlines : regex := Plus (Class isNewline).
Definition rxSpaces : regex := Plus (Class isSpace).
Definition rxTag : regex :=
  Cat (lit OPEN) (Cat (LazyStar (Class anyChar)) (lit CLOSE)).
Definition rxKeyword (kw : string) : regex :=
  Cat (lit (js kw)) (Class isSpace).
Definition rxCode : regex :=
  Or (Class isCodePunct)
     (Or (Cat Start (Cat (Star (Class isSpace)) (lit (js "//"))))
         (Or (Cat Start (Cat (Star (Class isSpace)) (lit (js "#"))))
             (Or (rxKeyword "function")
                 (Or (rxKeyword "const")
                     (Or (rxKeyword "let") (rxKeyword "var")))))).
Definition rxStartsAlpha : regex := Cat Start (Class isAlpha).

(** The capture group of a match of [rxTag]: the match without its two
    markers. *)
Definition tagGroup (from rest : str) : str :=
  firstn (length from - length rest - length OPEN - length CLOSE)
         (skipn (length OPEN) from).

(** A greedy star of a class: the longest run first. *)
Fixpoint greedyTry (p : N -> bool) (k : str -> option str) (s : str)
  : option str :=
  match s with
  | c :: s' =>
      if p c
      then match greedyTry p k s' with
           | Some x => Some x
           | None => k s
           end
      else k s
  | [] => k s
  end.

(** A lazy star of any character: the shortest run first. *)
Fixpoint lazyTry (k : str -> option str) (s : str) : option str :=
  match k s with
  | Some x => Some x
  | None =>
      match s with
      | _ :: s' => lazyTry k s'
      | [] => None
      end
  end.

Definition isSome (o : option str) : bool :=
  match o with Some _ => true | None => false end.

(** ** The terminal session (Terminal.tsx) *)

(** [spokenContentRef]: a JavaScript [Set] iterates in insertion order and
    holds no duplicates; it is a list, oldest entry first. *)
Definition has (x : str) (set : list str) : bool := existsb (str_eqb x) set.
Definition add (x : str) (set : list str) : list str :=
  if has x set then set else set ++ [x].

(** [entries.slice(-n)] *)
Definition sliceLast {A : Type} (n : nat) (l : list A) : list A :=
  skipn (length l - n) l.

(** The refs of one mounted terminal. *)
Record Term : Type := mkTerm {
  ttsBuffer : str;               (* ttsBufferRef *)
  spokenContent : list str;      (* spokenContentRef *)
  silentMode : bool;             (* silentModeRef *)
  voiceOutputEnabled : bool;     (* voiceOutputEnabledRef *)
  isActive : bool                (* isActiveRef *)
}.

Definition withSpoken (st : Term) (sp : list str) : Term :=
  mkTerm (ttsBuffer st) sp (silentMode st) (voiceOutputEnabled st)
         (isActive st).

(** What the handler did with a segment it recorded: the content, and
    whether [speakText(content)] was called. *)
Abbreviation Entry := (list N * bool)%type.
Definition accepted (log : list Entry) : list str := map fst log.
Definition speakCalls (log : list Entry) : list str :=
  map fst (filter snd log).

(** The three gates in front of [speakText]. *)
Definition gatesOpen (st : Term) : bool :=
  (voiceOutputEnabled st && isActive st && negb (silentMode st))%bool.

(** The body of the [while] loop of [onPtyData] after [content] is
    computed. *)
Definition handleContent (st : Term) (content : str) : Term * list Entry :=
  if (looksLikeProse content && negb (has content (spokenContent st)))%bool
  then (withSpoken st (add content (spokenContent st)),
        [(content, gatesOpen st)])
  else (st, []).

(** The [while ((match = tagRegex.exec(...)) !== null)] loop.  [rest] is the
    buffer from [tagRegex.lastIndex] on; every match consumes at least the
    two markers, so the length of the buffer bounds the iterations.  The
    text returned is [buffer.substring(lastIndex)], the whole buffer when
    nothing matched. *)
Fixpoint tagLoop (fuel : nat) (rest : str) (st : Term) (log : list Entry)
  : str * Term * list Entry :=
  match fuel with
  | 0 => (rest, st, log)
  | S fuel' =>
      match tagExec rest with
      | None => (rest, st, log)
      | Some (inner, rest') =>
          let (st', out) := handleContent st (trim inner) in
          tagLoop fuel' rest' st' (log ++ out)
      end
  end.

(** The two steps on the carry-over buffer after the loop. *)
Definition clearIfNoMarker (b : str) : str :=
  if includes OPEN_HEAD b then b else [].
Definition capBuffer (b : str) : str :=
  if Nat.ltb 2000 (length b) then skipn (length b - 2000) b else b.

(** The step on the spoken set after the loop. *)
Definition trimSpoken (sp : list str) : list str :=
  if Nat.ltb 1000 (length sp) then sliceLast 500 sp else sp.

(** The state after the extraction loop of [onPtyData], before the buffer
    and the set are cut down. *)
Definition extractPhase (st : Term) (data : str) : str * Term * list Entry :=
  let buf := ttsBuffer st ++ stripAnsi data in
  tagLoop (length buf) buf st [].

(** The TTS part of the [onPtyData] handler: the new refs and the segments
    recorded. *)
Definition onPtyData (st : Term) (data : str) : Term * list Entry :=
  match extractPhase st data with
  | (rest, st1, log) =>
      (mkTerm (capBuffer (clearIfNoMarker rest))
              (trimSpoken (spokenContent st1))
              (silentMode st1) (voiceOutputEnabled st1) (isActive st1),
       log)
  end.

(** A sequence of chunks, one handler call each. *)
Fixpoint feed (st : Term) (chunks : list str) : Term * list Entry :=
  match chunks with
  | [] => (st, [])
  | c :: cs =>
      let (st1, log1) := onPtyData st c in
      let (st2, log2) := feed st1 cs in
      (st2, log1 ++ log2)
  end.

(** The replay on one segment: [if (content.length > 3) add(content)]. *)
Definition replayStep (sp : list str) (content : str) : list str :=
  if Nat.ltb 3 (length content) then add content sp else sp.

(** The inner loop of the replay on mount, over one stripped chunk. *)
Fixpoint replayLoop (fuel : nat) (rest : str) (sp : list str) : list str :=
  match fuel with
  | 0 => sp
  | S fuel' =>
      match tagExec rest with
      | None => sp
      | Some (inner, rest') =>
          let content := trim inner in
          replayLoop fuel' rest' (replayStep sp content)
      end
  end.

Definition replayChunk (sp : list str) (chunk : str) : list str :=
  let cleanChunk := stripAnsi chunk in
  replayLoop (length cleanChunk) cleanChunk sp.

(** The mount effect: the TTS refs are reset, then the buffered chunks are
    replayed into the spoken set. *)
Definition mount (enabled active : bool) (buffer : list str) : Term :=
  mkTerm [] (fold_left replayChunk buffer []) true enabled active.

(** [terminal.onData]: the first user input ends the silent mode. *)
Definition onData (st : Term) : Term :=
  if silentMode st
  then mkTerm (ttsBuffer st) (spokenContent st) false
              (voiceOutputEnabled st) (isActive st)
  else st.

(** ** The playback orchestrator (VoiceContext.tsx) *)

(** The text cleaning of [speakText]. *)
Definition cleanText (text : str) : str :=
  trim (replaceAll reSpaces [32%N]
          (replaceAll reNewlines [32%N]
             (replaceAll reCSI [] text))).

(** The value [window.electronAPI.voiceSpeak] resolves to. *)
Record SpeakResult : Type := mkResult {
  success : bool;
  audioData : option str;
  error : option str
}.

(** How the promise of [voiceSpeak] settles; [Fulfilled None] is the
    [undefined] of the optional call. *)
Inductive Settled : Type :=
| Fulfilled (r : option SpeakResult)
| Rejected.

(** Truthiness of an optional string. *)
Definition truthy (o : option str) : bool :=
  match o with
  | Some (_ :: _) => true
  | _ => false
  end.

(** Browser builtin [atob], as far as it throws or not: the
    forgiving-base64 decode of the HTML standard. *)
Definition isAsciiWhitespace (c : N) : bool :=
  (N.eqb c 9 || N.eqb c 10 || N.eqb c 12 || N.eqb c 13 || N.eqb c 32)%bool.
Definition isBase64 (c : N) : bool :=
  (isAlpha c || between 48 57 c || N.eqb c 43 || N.eqb c 47)%bool.
Definition stripPadding (d : str) : str :=
  match rev d with
  | 61%N :: 61%N :: r => rev r
  | 61%N :: r => rev r
  | _ => d
  end.
Definition atobOk (data : str) : bool :=
  let d := filter (fun c => negb (isAsciiWhitespace c)) data in
  let d := if Nat.eqb (Nat.modulo (length d) 4) 0 then stripPadding d else d in
  (negb (Nat.eqb (Nat.modulo (length d) 4) 1) && forallb isBase64 d)%bool.

(** [result?.success && result.audioData], with the payload. *)
Definition playable (o : Settled) : option str :=
  match o with
  | Fulfilled (Some r) =>
      if (success r && truthy (audioData r))%bool then audioData r else None
  | _ => None
  end.

(** Whether the settled call makes the loop write to [console.error]: a
    rejection (the [catch]), a payload [atob] throws on (the [catch] again),
    or a truthy [result.error] in the [else if]. *)
Definition logsError (o : Settled) : bool :=
  match o with
  | Rejected => true
  | Fulfilled None => false
  | Fulfilled (Some r) =>
      if (success r && truthy (audioData r))%bool
      then match audioData r with
           | Some d => negb (atobOk d)
           | None => false
           end
      else truthy (error r)
  end.

(** *** The synthesis service (voice-manager.ts)

    [VoiceManager.speak] as a function of what happens to the Piper
    process; its promise is always fulfilled. *)
Inductive PiperRun : Type :=
| NoBinary                       (* getPiperBinaryPath() is null *)
| NoVoice                        (* getPiperVoicePath(...) is null *)
| Closed (code : option Z) (outputExists : bool) (wav64 : str)
                                 (* the close event; the file in base64 *)
| ProcError (message : str)      (* the error event *)
| Thrown (message : str).        (* an exception caught by the try *)

(** [`${code}`] *)
Definition showCode (code : option Z) : str :=
  match code with
  | Some z => js (NilEmpty.string_of_int (Z.to_int z))
  | None => js "null"
  end.

Definition speak (run : PiperRun) : SpeakResult :=
  match run with
  | NoBinary => mkResult false None (Some (js "Piper not installed"))
  | NoVoice => mkResult false None (Some (js "Voice not installed"))
  | Closed code outputExists wav64 =>
      if (match code with Some z => Z.eqb z 0 | None => false end
          && outputExists)%bool
      then mkResult true (Some wav64) None
      else mkResult false None
                    (Some (js "Piper exited with code " ++ showCode code))
  | ProcError message => mkResult false None (Some message)
  | Thrown message => mkResult false None (Some message)
  end.

(** *** The provider

    Where an invocation of [processQueue] is suspended. *)
Inductive Wait : Type :=
| AwaitSynth (req : nat) (text : str)   (* await voiceSpeak(text) *)
| AwaitAudio (a : nat).                 (* await new Promise(...) of audio a *)

(** What the orchestrator does to the outside. *)
Inductive Action : Type :=
| SynthCall (req : nat) (text : str)    (* window.electronAPI.voiceSpeak *)
| PlayStart (a : nat) (text : str)      (* new Audio(url) and audio.play() *)
| PauseAudio (a : nat)                  (* audioRef.current.pause() *)
| StopSynth                             (* voiceStopSpeaking() *)
| LogError.                             (* console.error *)

Record Orch : Type := mkOrch {
  speakQueue : list str;                (* speakQueueRef *)
  isProcessing : bool;                  (* isProcessingRef *)
  isSpeaking : bool;                    (* the isSpeaking state *)
  audioRef : option nat;                (* audioRef *)
  enabledRef : bool;                    (* voiceOutputEnabledRef *)
  loops : list Wait;                    (* suspended processQueue calls *)
  nextReq : nat;                        (* number of voiceSpeak calls made *)
  nextAudio : nat;                      (* number of Audio objects made *)
  trace : list Action                   (* the actions so far, in order *)
}.

(** The provider once it is mounted, before any event: voice output off,
    nothing queued.  (The effect that stops the speech has run once at the
    mount, with nothing to stop; the trace starts after it.) *)
Definition initial : Orch := mkOrch [] false false None false [] 0 0 [].

(** The refs and state of the provider, without the bookkeeping of the
    model (suspended calls, counters, trace). *)
Definition refs (o : Orch) : list str * bool * bool * option nat * bool :=
  (speakQueue o, isProcessing o, isSpeaking o, audioRef o, enabledRef o).

(** [while (queue.length > 0) { text = queue.shift(); if (!text) continue;
    ... }] up to the text it stops at: empty strings are skipped. *)
Fixpoint nextText (q : list str) : option str * list str :=
  match q with
  | [] => (None, [])
  | [] :: q' => nextText q'
  | t :: q' => (Some t, q')
  end.

(** The loop of [processQueue] from the test of its [while] on, run up to
    its next [await]: either it calls [voiceSpeak] on the next text and is
    suspended, or the queue is exhausted and the flags are reset. *)
Definition loopHead (o : Orch) : Orch :=
  match nextText (speakQueue o) with
  | (Some t, q') =>
      mkOrch q' (isProcessing o) (isSpeaking o) (audioRef o) (enabledRef o)
             (loops o ++ [AwaitSynth (nextReq o) t])
             (S (nextReq o)) (nextAudio o)
             (trace o ++ [SynthCall (nextReq o) t])
  | (None, q') =>
      mkOrch q' false false (audioRef o) (enabledRef o)
             (loops o) (nextReq o) (nextAudio o) (trace o)
  end.

(** [processQueue()] up to its first [await]. *)
Definition processQueue (o : Orch) : Orch :=
  if (isProcessing o
      || match speakQueue o with [] => true | _ => false end)%bool
  then o
  else loopHead (mkOrch (speakQueue o) true true (audioRef o) (enabledRef o)
                        (loops o) (nextReq o) (nextAudio o) (trace o)).

Definition push (o : Orch) (t : str) : Orch :=
  mkOrch (speakQueue o ++ [t]) (isProcessing o) (isSpeaking o) (audioRef o)
         (enabledRef o) (loops o) (nextReq o) (nextAudio o) (trace o).

(** [speakText(text)] *)
Definition speakText (o : Orch) (text : str) : Orch :=
  if negb (enabledRef o) then o
  else
    let clean := cleanText text in
    if Nat.ltb (length clean) 3 then o
    else processQueue (push o clean).

(** [stopSpeaking()] *)
Definition stopSpeaking (o : Orch) : Orch :=
  mkOrch [] false false None (enabledRef o) (loops o) (nextReq o)
         (nextAudio o)
         (trace o
          ++ match audioRef o with Some a => [PauseAudio a] | None => [] end
          ++ [StopSynth]).

(** [setVoiceOutputEnabled(b)] followed by the two effects on
    [voiceOutputEnabled]. The effects have the state among their
    dependencies and run when it has changed: the ref is synchronised, and
    speaking is stopped when the output is now disabled. Setting the state
    to the value it has renders nothing and runs no effect; the ref holds
    the state between two events. *)
Definition setEnabled (o : Orch) (b : bool) : Orch :=
  if Bool.eqb b (enabledRef o) then o
  else
    let o' := mkOrch (speakQueue o) (isProcessing o) (isSpeaking o)
                     (audioRef o) b (loops o) (nextReq o) (nextAudio o)
                     (trace o) in
    if b then o' else stopSpeaking o'.

(** The first suspended call that satisfies [p], taken out of the list. *)
Fixpoint takeLoop (p : Wait -> bool) (l : list Wait)
  : option (Wait * list Wait) :=
  match l with
  | [] => None
  | w :: l' =>
      if p w then Some (w, l')
      else match takeLoop p l' with
           | Some (w', r) => Some (w', w :: r)
           | None => None
           end
  end.

Definition waitsSynth (req : nat) (w : Wait) : bool :=
  match w with AwaitSynth r _ => Nat.eqb r req | AwaitAudio _ => false end.
Definition waitsAudio (a : nat) (w : Wait) : bool :=
  match w with AwaitAudio b => Nat.eqb b a | AwaitSynth _ _ => false end.

Definition withLoops (o : Orch) (l : list Wait) : Orch :=
  mkOrch (speakQueue o) (isProcessing o) (isSpeaking o) (audioRef o)
         (enabledRef o) l (nextReq o) (nextAudio o) (trace o).
Definition withAudioRef (o : Orch) (a : option nat) : Orch :=
  mkOrch (speakQueue o) (isProcessing o) (isSpeaking o) a
         (enabledRef o) (loops o) (nextReq o) (nextAudio o) (trace o).
Definition emit (o : Orch) (acts : list Action) : Orch :=
  mkOrch (speakQueue o) (isProcessing o) (isSpeaking o) (audioRef o)
         (enabledRef o) (loops o) (nextReq o) (nextAudio o) (trace o ++ acts).

(** The promise of call [req] settles: the suspended loop resumes after its
    [await voiceSpeak(text)].  A playable result makes an [Audio], stores it
    in [audioRef], starts it and suspends the loop on it; anything else is
    at most logged, and the loop goes on to its next iteration. *)
Definition synthSettled (o : Orch) (req : nat) (r : Settled) : Orch :=
  match takeLoop (waitsSynth req) (loops o) with
  | Some (AwaitSynth _ text, others) =>
      let o1 := withLoops o others in
      match playable r with
      | Some d =>
          if atobOk d then
            mkOrch (speakQueue o1) (isProcessing o1) (isSpeaking o1)
                   (Some (nextAudio o1)) (enabledRef o1)
                   (others ++ [AwaitAudio (nextAudio o1)])
                   (nextReq o1) (S (nextAudio o1))
                   (trace o1 ++ [PlayStart (nextAudio o1) text])
          else loopHead (emit o1 [LogError])
      | None =>
          loopHead (emit o1 (if logsError r then [LogError] else []))
      end
  | _ => o
  end.

(** [resolve()] of the playback promise of audio [a]: the loop suspended on
    it, if it still is, goes on to its next iteration. *)
Definition resolveAudio (o : Orch) (a : nat) : Orch :=
  match takeLoop (waitsAudio a) (loops o) with
  | Some (_, others) => loopHead (withLoops o others)
  | None => o
  end.

(** The handlers of audio [a]; they exist once the audio is made. *)
Definition audioEnded (o : Orch) (a : nat) : Orch :=
  if Nat.ltb a (nextAudio o)
  then resolveAudio (withAudioRef o None) a
  else o.
Definition audioError (o : Orch) (a : nat) : Orch :=
  if Nat.ltb a (nextAudio o)
  then resolveAudio (withAudioRef (emit o [LogError]) None) a
  else o.
Definition playRejected (o : Orch) (a : nat) : Orch :=
  if Nat.ltb a (nextAudio o)
  then resolveAudio (emit o [LogError]) a
  else o.

(** The events of the single-threaded event loop that reach the provider. *)
Inductive Event : Type :=
| SpeakText (text : str)
| StopSpeaking
| SetEnabled (b : bool)
| SynthSettled (req : nat) (r : Settled)
| AudioEnded (a : nat)
| AudioError (a : nat)
| PlayRejected (a : nat).

Definition step (o : Orch) (e : Event) : Orch :=
  match e with
  | SpeakText text => speakText o text
  | StopSpeaking => stopSpeaking o
  | SetEnabled b => setEnabled o b
  | SynthSettled req r => synthSettled o req r
  | AudioEnded a => audioEnded o a
  | AudioError a => audioError o a
  | PlayRejected a => playRejected o a
  end.

Definition run (o : Orch) (es : list Event) : Orch := fold_left step es o.

(** The calls [speakText(content)] made by a terminal handler reach the
    provider in order. *)
Definition deliver (o : Orch) (calls : list str) : Orch :=
  fold_left speakText calls o.

(** ** The stages of the handler taken apart *)

(** The segmenter alone: the trimmed interiors of the complete tags of a
    buffer, in order, and the unconsumed remainder. *)
Fixpoint segmentsFrom (fuel : nat) (s : str) : list str * str :=
  match fuel with
  | 0 => ([], s)
  | S fuel' =>
      match tagExec s with
      | None => ([], s)
      | Some (inner, rest) =>
          let (cs, r) := segmentsFrom fuel' rest in
          (trim inner :: cs, r)
      end
  end.

Definition segments (s : str) : list str * str := segmentsFrom (length s) s.

(** The filter and the ledger alone, on the spoken set; [g] is the value of
    the three gates. *)
Definition ledger (g : bool) (sp : list str) (content : str)
  : list str * list Entry :=
  if (looksLikeProse content && negb (has content sp))%bool
  then (add content sp, [(content, g)])
  else (sp, []).

Fixpoint ledgerAll (g : bool) (sp : list str) (cs : list str)
  : list str * list Entry :=
  match cs with
  | [] => (sp, [])
  | c :: cs' =>
      let (sp1, out1) := ledger g sp c in
      let (sp2, out2) := ledgerAll g sp1 cs' in
      (sp2, out1 ++ out2)
  end.

(** What the handler keeps of the remainder [r] (the text after the last
    complete tag) and what it drops: without the first four code units of
    an opening marker in it, [r] is dropped; otherwise its last 2000 code
    units are kept and what is in front of them is dropped. *)
Definition keptPart (r : str) : str := capBuffer (clearIfNoMarker r).
Definition droppedPart (r : str) : str :=
  firstn (length r - length (keptPart r)) r.

(** The first four code units of an opening marker begin in the dropped
    part of [r], when the text [y] follows [r]. *)
Definition losesMarker (r y : str) : bool :=
  includes OPEN_HEAD (droppedPart r ++ firstn 3 (keptPart r ++ y)).

(** No control character. *)
Definition controlFree (s : str) : Prop :=
  Forall (fun c => isControl c = false) s.

(** The stripped text that has gone through the buffer when the first [k]
    chunks are in: what the buffer held at the start, and the chunks, each
    stripped on its own. *)
Definition seenText (st : Term) (chunks : list str) (k : nat) : str :=
  ttsBuffer st ++ concat (map stripAnsi (firstn k chunks)).

(** The stripped text still to come when the first [k] chunks are in. *)
Definition laterText (chunks : list str) (k : nat) : str :=
  concat (map stripAnsi (skipn k chunks)).

(** The spoken set once the segments of the buffer text [s] have gone
    through the filter and the ledger, before it is cut. *)
Definition recordedBy (st : Term) (s : str) : list str :=
  fst (ledgerAll (gatesOpen st) (spokenContent st) (fst (segments s))).

(** The states at the chunk boundaries: after each handler call. *)
Fixpoint boundaries (st : Term) (chunks : list str) : list Term :=
  match chunks with
  | [] => []
  | c :: cs =>
      let st1 := fst (onPtyData st c) in
      st1 :: boundaries st1 cs
  end.

(** The texts sent to the synthesis, in the order of the calls. *)
Fixpoint synthCalls (tr : list Action) : list str :=
  match tr with
  | [] => []
  | SynthCall _ t :: tr' => t :: synthCalls tr'
  | _ :: tr' => synthCalls tr'
  end.


(** A result the loop cannot play: not a success with a payload, or a
    payload that does not decode. *)
Definition unplayable (r : Settled) : bool :=
  match playable r with
  | Some d => negb (atobOk d)
  | None => true
  end.

(** The log entry of a settled call. *)
Definition logOf (r : Settled) : list Action :=
  if logsError r then [LogError] else [].

(** The text holds a code unit that is not white space. *)
Definition hasInk (s : str) : bool := existsb (fun c => negb (isSpace c)) s.

(** A terminal session before any user input: the mount with the buffered
    chunks [history] replayed, then the chunks [live] received. *)
Definition session (enabled active : bool) (history live : list str) : Term :=
  fst (feed (mount enabled active history) live).

(** Text without control characters and without the left guillemet that
    starts both markers. *)
Definition plain (s : str) : Prop :=
  Forall (fun c => isControl c = false /\ c <> 171%N) s.

(** A terminal after the first user input, voice output on, tab active,
    nothing buffered or spoken yet. *)
Definition listening : Term := mkTerm [] [] false true true.

(** One tagged sentence between two texts, split after the first four code
    units of the opening marker, inside the sentence, and after the first
    and the fourth code unit of the closing marker. *)
Definition splitInMarkers : list str :=
  [js "..." ++ OPEN_HEAD;
   [187%N] ++ js "Hello wo";
   js "rld." ++ [171%N];
   js "/tt";
   js "s" ++ [187%N] ++ js "..."].

(** The same sentence, split after the first two code units of the opening
    marker. *)
Definition splitInOpen : list str :=
  [js "..." ++ [171; 116]%N;
   js "ts" ++ [187%N] ++ js "Hello world." ++ CLOSE ++ js "..."].

(** A tagged text of 2100 letters, split in front of the closing marker. *)
Definition splitLongTag : list str :=
  [OPEN ++ repeat 97%N 2100; CLOSE].

(** One buffered chunk with 1001 tagged items, all different. *)
Definition manySegments : str :=
  concat (map (fun n => OPEN ++ js "item" ++ [N.of_nat (1000 + n)] ++ CLOSE)
              (seq 0 1001)).

(** The same 1001 tagged items, a buffered chunk each. *)
Definition manyChunks : list str :=
  map (fun n => OPEN ++ js "item" ++ [N.of_nat (1000 + n)] ++ CLOSE)
      (seq 0 1001).

(** Two buffered chunks as the handler stored them: a tagged sentence that
    arrived in two pieces; and the chunk with the same sentence, when the
    terminal prints it again. *)
Definition splitHistory : list str :=
  [js "> " ++ OPEN ++ js "Hello wo"; js "rld." ++ CLOSE ++ js " ok"].
Definition sameSentence : str := OPEN ++ js "Hello world." ++ CLOSE.

(** A terminal like [listening] whose spoken set is full: an old sentence
    and 999 more entries. *)
Definition fullSet : Term :=
  mkTerm [] (js "Old sentence." :: map (fun n => [N.of_nat n]) (seq 0 999))
         false true true.

(** A new sentence and the old one, a chunk each. *)
Definition newThenOld : list str :=
  [OPEN ++ js "New sentence." ++ CLOSE; OPEN ++ js "Old sentence." ++ CLOSE].

(** A tagged sentence with a colour escape sequence inside, split between
    the [ESC [[] and the rest of the sequence. *)
Definition splitInEscape : list str :=
  [OPEN ++ js "Hello " ++ [27; 91]%N;
   js "1mworld." ++ CLOSE].

(** The voice button clicked off and on again while the first call is in
    flight (VoiceControls.tsx: the click stops the speech and toggles the
    output), and two more texts. *)
Definition twoClicks : list Event :=
  [SetEnabled true; SpeakText (js "first text");
   StopSpeaking; SetEnabled false; SetEnabled true;
   SpeakText (js "second text"); SpeakText (js "third text")].

(** Voice output switched on and one text, three texts. *)
Definition oneText : list Event :=
  [SetEnabled true; SpeakText (js "Hello world.")].
Definition threeTexts : list Event :=
  [SetEnabled true; SpeakText (js "first text");
   SpeakText (js "second text"); SpeakText (js "third text")].

(** The events that do not call [stopSpeaking]. *)
Definition stopFree (e : Event) : bool :=
  match e with
  | StopSpeaking | SetEnabled false => false
  | _ => true
  end.

(** The guard of [processQueue] as an invariant: a loop is suspended
    exactly when [isProcessingRef] is set, there is one loop at most, and
    the idle queue is empty. *)
Definition oneLoop (o : Orch) : Prop :=
  (isProcessing o = true /\ exists w, loops o = [w])
  \/ (isProcessing o = false /\ loops o = [] /\ speakQueue o = []).

(** The cleaned texts that [speakText] pushed during a run, in order. *)
Fixpoint pushed (o : Orch) (es : list Event) : list str :=
  match es with
  | [] => []
  | e :: es' =>
      match e with
      | SpeakText text =>
          if (enabledRef o && negb (Nat.ltb (length (cleanText text)) 3))%bool
          then [cleanText text]
          else []
      | _ => []
      end ++ pushed (step o e) es'
  end.

(** The texts sent to the synthesis so far, followed by the texts still
    queued (the empty ones, which the loop skips, left out). *)
Definition fifo (o : Orch) : list str :=
  synthCalls (trace o)
  ++ filter (fun t => negb (str_eqb t [])) (speakQueue o).

(** Results of [VoiceManager.speak] (voice-manager.ts) used in the examples:
    a WAV payload in base64, a non-zero exit code, and the exit of a killed
    process. *)
Definition okResult : Settled :=
  Fulfilled (Some (speak (Closed (Some 0%Z) true (js "UklGRg==")))).
Definition failedResult : Settled :=
  Fulfilled (Some (speak (Closed (Some 1%Z) false []))).
Definition killedResult : Settled :=
  Fulfilled (Some (speak (Closed None false []))).

(** ** Runs of the provider used in the properties *)

(** The environment answers the calls numbered [req], [req + 1], ... with
    the results [rs], one after the other, and every playback that starts
    (audios [a], [a + 1], ...) runs to its end before the next answer. *)
Fixpoint serve (req a : nat) (rs : list Settled) : list Event :=
  match rs with
  | [] => []
  | r :: rs' =>
      if unplayable r
      then SynthSettled req r :: serve (S req) a rs'
      else SynthSettled req r :: AudioEnded a :: serve (S req) (S a) rs'
  end.

(** What the loop is expected to do with the texts [ts] under the results
    [rs]: one call per text, then the playback or the log entry of its
    result, then the next call. *)
Fixpoint served (req a : nat) (ts : list str) (rs : list Settled)
  : list Action :=
  match ts, rs with
  | t :: ts', r :: rs' =>
      SynthCall req t
      :: (if unplayable r
          then logOf r ++ served (S req) a ts' rs'
          else PlayStart a t :: served (S req) (S a) ts' rs')
  | _, _ => []
  end.

(** [a] is [b] with some elements left out: the order is kept. *)
Inductive subseq : list str -> list str -> Prop :=
| subseq_nil : subseq [] []
| subseq_skip (x : str) (a b : list str) : subseq a b -> subseq a (x :: b)
| subseq_keep (x : str) (a b : list str) :
    subseq a b -> subseq (x :: a) (x :: b).

(** The events that do not switch the voice output on. *)
Definition keepsOff (e : Event) : bool :=
  match e with
  | SetEnabled true => false
  | _ => true
  end.

(** The provider is idle: nothing queued, no loop, no audio. *)
Definition idle (o : Orch) : Prop :=
  speakQueue o = [] /\ isProcessing o = false /\ isSpeaking o = false
  /\ audioRef o = None /\ loops o = [].

(** What holds of the refs of the provider in every state it reaches: the
    [isSpeaking] state follows [isProcessingRef], a clear flag means an
    empty queue, a disabled output means a clear flag, and every queued
    text has three code units or more. *)
Definition settled (o : Orch) : Prop :=
  isSpeaking o = isProcessing o
  /\ (isProcessing o = false -> speakQueue o = [])
  /\ (enabledRef o = false -> isProcessing o = false)
  /\ Forall (fun t => 3 <= length t) (speakQueue o).

(** ** Terminal sequences, as [stripAnsi] meets them *)

(** A CSI sequence [ESC [[ params final], an OSC sequence
    [ESC ] body BEL], a private sequence [ESC [[ ? params final] and a
    string sequence [ESC intro body ESC \]. *)
Definition csi (params : str) (final : N) : str :=
  [27; 91]%N ++ params ++ [final].
Definition osc (body : str) : str := [27; 93]%N ++ body ++ [7%N].
Definition privateSeq (params : str) (final : N) : str :=
  [27; 91; 63]%N ++ params ++ [final].
Definition stringSeq (intro : N) (body : str) : str :=
  [27; intro]%N ++ body ++ [27; 92]%N.

(** The matcher needs an [ESC] to start. *)
Definition needsESC (m : str -> option nat) : Prop :=
  m [] = None /\ forall c r, N.eqb 27 c = false -> m (c :: r) = None.

(** No two white-space code units side by side. *)
Fixpoint singleSpaced (s : str) : bool :=
  match s with
  | c :: r =>
      match r with
      | d :: _ => (negb (isSpace c && isSpace d) && singleSpaced r)%bool
      | [] => true
      end
  | [] => true
  end.

(** ** The chunk buffers and the display (Terminal.tsx) *)

Definition MAX_BUFFER_CHUNKS : nat := 5000.

(** The global [Map<string, string[]>] behind [getTerminalBuffers]: the pty
    ids and their chunks. *)
Abbreviation Buffers := (list (list N * list (list N)))%type.

Fixpoint mapGet (m : Buffers) (k : str) : option (list str) :=
  match m with
  | [] => None
  | (k', v) :: m' => if str_eqb k k' then Some v else mapGet m' k
  end.

Fixpoint mapSet (m : Buffers) (k : str) (v : list str) : Buffers :=
  match m with
  | [] => [(k, v)]
  | (k', v') :: m' =>
      if str_eqb k k' then (k', v) :: m' else (k', v') :: mapSet m' k v
  end.

Fixpoint mapDelete (m : Buffers) (k : str) : Buffers :=
  match m with
  | [] => []
  | (k', v') :: m' =>
      if str_eqb k k' then mapDelete m' k else (k', v') :: mapDelete m' k
  end.

(** [clearTerminalBuffer(ptyId)] *)
Definition clearTerminalBuffer (m : Buffers) (ptyId : str) : Buffers :=
  mapDelete m ptyId.

(** The mount effect: [if (!terminalBuffers.has(ptyId))
    terminalBuffers.set(ptyId, [])]. *)
Definition ensureBuffer (m : Buffers) (ptyId : str) : Buffers :=
  match mapGet m ptyId with
  | Some _ => m
  | None => mapSet m ptyId []
  end.

(** [while (buf.length > MAX_BUFFER_CHUNKS) buf.shift()]; every iteration
    takes one chunk off, so the length of the buffer bounds them. *)
Fixpoint shiftLoop (fuel : nat) (buf : list str) : list str :=
  match fuel with
  | 0 => buf
  | S fuel' =>
      if Nat.ltb MAX_BUFFER_CHUNKS (length buf)
      then shiftLoop fuel' (tl buf)
      else buf
  end.

(** [buf.push(data)] and the loop. *)
Definition pushChunk (buf : list str) (data : str) : list str :=
  shiftLoop (length (buf ++ [data])) (buf ++ [data]).

(** The first step of the [onPtyData] handler: the chunk is stored when the
    terminal has a buffer. *)
Definition storeData (ptyId : str) (m : Buffers) (data : str) : Buffers :=
  match mapGet m ptyId with
  | Some buf => mapSet m ptyId (pushChunk buf data)
  | None => m
  end.

(** [/<<\/?tts>>/] (with [<<] and [>>] for the guillemets): an opening or
    a closing marker. *)
Definition reMarker (s : str) : option nat :=
  match s with
  | c :: r =>
      if N.eqb 171 c then
        if startsWith (47%N :: js "tts" ++ [187%N]) r then Some 6
        else if startsWith (js "tts" ++ [187%N]) r then Some 5
        else None
      else None
  | [] => None
  end.

Definition rxMarker : regex :=
  Cat (Class (N.eqb 171))
      (Cat (Or (Class (N.eqb 47)) Empty) (lit (js "tts" ++ [187%N]))).

(** [displayData = data.replace(/<<\/?tts>>/g, '')], what [terminal.write]
    gets for a chunk. *)
Definition displayData (data : str) : str := replaceAll reMarker [] data.

(** What the mount effect writes to the terminal: the buffered chunks as
    they are. *)
Definition replayWrites (m : Buffers) (ptyId : str) : list str :=
  match mapGet (ensureBuffer m ptyId) ptyId with
  | Some buffer => buffer
  | None => []
  end.

(** Text without the left guillemet both markers start with. *)
Definition noGuillemet (s : str) : Prop :=
  Forall (fun c => N.eqb 171 c = false) s.

(** ** The voice manager (voice-manager.ts) *)

(** [WhisperModelName]: the keys of [WHISPER_MODELS]. *)
Inductive WhisperModelName : Type :=
| TinyEn | BaseEn | SmallEn | MediumEn | LargeV3.

(** [Object.keys(WHISPER_MODELS)], in the order of the literal. *)
Definition whisperModelNames : list WhisperModelName :=
  [TinyEn; BaseEn; SmallEn; MediumEn; LargeV3].

Definition whisperKey (model : WhisperModelName) : str :=
  match model with
  | TinyEn => js "tiny.en"
  | BaseEn => js "base.en"
  | SmallEn => js "small.en"
  | MediumEn => js "medium.en"
  | LargeV3 => js "large-v3"
  end.

(** [WHISPER_MODELS[model].file] *)
Definition whisperFile (model : WhisperModelName) : str :=
  match model with
  | TinyEn => js "ggml-tiny.en.bin"
  | BaseEn => js "ggml-base.en.bin"
  | SmallEn => js "ggml-small.en.bin"
  | MediumEn => js "ggml-medium.en.bin"
  | LargeV3 => js "ggml-large-v3.bin"
  end.

Definition whisperModel_eqb (a b : WhisperModelName) : bool :=
  str_eqb (whisperKey a) (whisperKey b).

(** [PiperVoiceName]: the keys of [PIPER_VOICES]. *)
Inductive PiperVoiceName : Type := LibriTTS | JennyDioco | Ryan.

(** [Object.keys(PIPER_VOICES)] *)
Definition piperVoiceNames : list PiperVoiceName := [LibriTTS; JennyDioco; Ryan].

Definition piperKey (voice : PiperVoiceName) : str :=
  match voice with
  | LibriTTS => js "en_US-libritts_r-medium"
  | JennyDioco => js "en_GB-jenny_dioco-medium"
  | Ryan => js "en_US-ryan-medium"
  end.

(** [PIPER_VOICES[voice].file] and [.config] *)
Definition piperFile (voice : PiperVoiceName) : str :=
  match voice with
  | LibriTTS => js "en_US-libritts_r-medium.onnx"
  | JennyDioco => js "en_GB-jenny_dioco-medium.onnx"
  | Ryan => js "en_US-ryan-medium.onnx"
  end.
Definition piperConfig (voice : PiperVoiceName) : str :=
  match voice with
  | LibriTTS => js "en_US-libritts_r-medium.onnx.json"
  | JennyDioco => js "en_GB-jenny_dioco-medium.onnx.json"
  | Ryan => js "en_US-ryan-medium.onnx.json"
  end.

(** The property names every object literal inherits from
    [Object.prototype]. *)
Definition objectPrototypeKeys : list str :=
  map js ["constructor"; "__defineGetter__"; "__defineSetter__";
          "hasOwnProperty"; "__lookupGetter__"; "__lookupSetter__";
          "isPrototypeOf"; "propertyIsEnumerable"; "toString"; "valueOf";
          "__proto__"; "toLocaleString"]%string.

(** [PIPER_VOICES[voice]] for an arbitrary string: an entry of the literal,
    an inherited property (a truthy value without [file] and [config]), or
    [undefined]. *)
Inductive Lookup : Type :=
| Own (voice : PiperVoiceName)
| Inherited
| Undefined.

Definition lookupVoice (voice : str) : Lookup :=
  match find (fun v => str_eqb voice (piperKey v)) piperVoiceNames with
  | Some v => Own v
  | None => if has voice objectPrototypeKeys then Inherited else Undefined
  end.

(** A call returns or throws. *)
Inductive Outcome (A : Type) : Type :=
| Ret (a : A)
| Throws.
Arguments Ret {A} a.
Arguments Throws {A}.

(** Paths below the [deps] directory, by their components: [path.join]
    appends components. *)
Definition whisperModelsDir : list str := [js "whisper"; js "models"].
Definition piperDir : list str := [js "piper"].
Definition piperVoicesDir : list str := [js "piper"; js "voices"].

Inductive Engine : Type := Piper | OpenVoice.
Inductive ReadBehavior : Type := Immediate | Pause | Manual.

(** The fields of the [VoiceManager] instance that the settings touch; the
    Piper process of [speak] is the [PiperRun] above. *)
Record Manager : Type := mkManager {
  currentWhisperModel : WhisperModelName;
  currentTTSVoice : str;
  currentTTSEngine : Engine
}.

(** [new VoiceManager()] *)
Definition voiceManager : Manager :=
  mkManager BaseEn (js "en_US-libritts_r-medium") Piper.

Record WhisperStatus : Type := mkWhisperStatus {
  whisperInstalled : bool;
  whisperModels : list WhisperModelName;
  currentModel : option WhisperModelName
}.

Record TTSStatus : Type := mkTTSStatus {
  ttsInstalled : bool;
  engine : option Engine;
  voices : list str;
  currentVoice : option str
}.

(** [VoiceSettings], every field optional as in [Partial<VoiceSettings>];
    [microphoneId] is [None] for [null] too. *)
Record VoiceSettings : Type := mkSettings {
  whisperModel : option WhisperModelName;
  ttsEngine : option Engine;
  ttsVoice : option str;
  microphoneId : option str;
  readBehavior : option ReadBehavior
}.

(** The value [transcribe] resolves to. *)
Record TranscribeResult : Type := mkTranscribed {
  transcribed : bool;            (* success *)
  text : option str;
  transcribeError : option str   (* error *)
}.

(** The two messages of [transcribe]. *)
Definition noWhisperModel : str :=
  js "No Whisper model installed. Install one from Settings.".
Definition comingSoon (modelToUse : WhisperModelName) : str :=
  js "Voice input coming soon! Model " ++ [34%N] ++ whisperKey modelToUse
  ++ [34%N]
  ++ js " is ready, but whisper.cpp binary integration is pending.".

Section VoiceManager.
(** The file system as the manager sees it, and the platform. *)
Variable existsSync : list str -> bool.
Variable isWindows : bool.

Definition getWhisperModelPath (model : WhisperModelName) : list str :=
  whisperModelsDir ++ [whisperFile model].

Definition isWhisperModelInstalled (model : WhisperModelName) : bool :=
  existsSync (getWhisperModelPath model).

Definition getInstalledWhisperModels : list WhisperModelName :=
  if negb (existsSync whisperModelsDir) then []
  else filter isWhisperModelInstalled whisperModelNames.

Definition checkWhisper (vm : Manager) : WhisperStatus :=
  let models := getInstalledWhisperModels in
  mkWhisperStatus
    (Nat.ltb 0 (length models))
    models
    (if existsb (whisperModel_eqb (currentWhisperModel vm)) models
     then Some (currentWhisperModel vm)
     else hd_error models).

Definition setWhisperModel (vm : Manager) (model : WhisperModelName)
  : Manager :=
  if isWhisperModelInstalled model
  then mkManager model (currentTTSVoice vm) (currentTTSEngine vm)
  else vm.

(** [transcribe]: the state after the call and the result; nothing in the
    [try] throws. *)
Definition transcribe (vm : Manager) : Manager * TranscribeResult :=
  if isWhisperModelInstalled (currentWhisperModel vm)
  then (vm, mkTranscribed false None
                          (Some (comingSoon (currentWhisperModel vm))))
  else
    match getInstalledWhisperModels with
    | [] => (vm, mkTranscribed false None (Some noWhisperModel))
    | modelToUse :: _ =>
        (mkManager modelToUse (currentTTSVoice vm) (currentTTSEngine vm),
         mkTranscribed false None (Some (comingSoon modelToUse)))
    end.

Definition getPiperBinaryPath : option (list str) :=
  let binaryName := if isWindows then js "piper.exe" else js "piper" in
  let binaryPath := piperDir ++ [js "piper"; binaryName] in
  if existsSync binaryPath then Some binaryPath
  else
    let directPath := piperDir ++ [binaryName] in
    if existsSync directPath then Some directPath else None.

Definition isPiperInstalled : bool :=
  match getPiperBinaryPath with Some _ => true | None => false end.

(** [getPiperVoicePath(voice)]: for an inherited property name
    [voiceInfo.file] is [undefined] and [path.join] throws. *)
Definition getPiperVoicePath (voice : str)
  : Outcome (option (list str * list str)) :=
  match lookupVoice voice with
  | Undefined => Ret None
  | Inherited => Throws
  | Own v =>
      let modelPath := piperVoicesDir ++ [piperFile v] in
      let configPath := piperVoicesDir ++ [piperConfig v] in
      if (existsSync modelPath && existsSync configPath)%bool
      then Ret (Some (modelPath, configPath))
      else Ret None
  end.

Definition getInstalledPiperVoices : list str :=
  if negb (existsSync piperVoicesDir) then []
  else
    map piperKey
        (filter (fun v => match getPiperVoicePath (piperKey v) with
                          | Ret None => false
                          | _ => true
                          end)
                piperVoiceNames).

Definition checkTTS (vm : Manager) : TTSStatus :=
  let piperInstalled := isPiperInstalled in
  let voices := getInstalledPiperVoices in
  mkTTSStatus
    (piperInstalled && Nat.ltb 0 (length voices))%bool
    (if piperInstalled then Some Piper else None)
    voices
    (if has (currentTTSVoice vm) voices
     then Some (currentTTSVoice vm)
     else hd_error voices).

(** [setTTSVoice(voice)]: the state is assigned only after
    [getPiperVoicePath] returned a path. *)
Definition setTTSVoice (vm : Manager) (voice : str) : Outcome Manager :=
  match getPiperVoicePath voice with
  | Throws => Throws
  | Ret (Some _) =>
      Ret (mkManager (currentWhisperModel vm) voice (currentTTSEngine vm))
  | Ret None => Ret vm
  end.

Definition setTTSEngine (vm : Manager) (e : Engine) : Manager :=
  mkManager (currentWhisperModel vm) (currentTTSVoice vm) e.

(** The two checks of [speak] before the process is spawned, and the
    process; the call to [getPiperVoicePath] is outside the [try]. *)
Definition voiceSpeak (vm : Manager) (run : PiperRun) : Outcome SpeakResult :=
  match getPiperBinaryPath with
  | None => Ret (speak NoBinary)
  | Some _ =>
      match getPiperVoicePath (currentTTSVoice vm) with
      | Throws => Throws
      | Ret None => Ret (speak NoVoice)
      | Ret (Some _) => Ret (speak run)
      end
  end.

Definition getSettings (vm : Manager) : VoiceSettings :=
  mkSettings (Some (currentWhisperModel vm)) (Some (currentTTSEngine vm))
             (Some (currentTTSVoice vm)) None (Some Immediate).

(** [applySettings(settings)]: the state it leaves, and whether the last
    step threw. *)
Definition applySettings (vm : Manager) (settings : VoiceSettings)
  : Manager * bool :=
  let vm1 := match whisperModel settings with
             | Some model => setWhisperModel vm model
             | None => vm
             end in
  let vm2 := match ttsEngine settings with
             | Some e => setTTSEngine vm1 e
             | None => vm1
             end in
  if truthy (ttsVoice settings) then
    match ttsVoice settings with
    | Some voice =>
        match setTTSVoice vm2 voice with
        | Ret vm3 => (vm3, false)
        | Throws => (vm2, true)
        end
    | None => (vm2, false)
    end
  else (vm2, false).
End VoiceManager.

(** The calls that change the manager without touching the file system. *)
Inductive Call : Type :=
| SetWhisperModel (model : WhisperModelName)
| Transcribe
| SetTTSVoice (voice : str)
| SetTTSEngine (e : Engine)
| ApplySettings (settings : VoiceSettings).

Definition call (existsSync : list str -> bool) (vm : Manager) (c : Call)
  : Manager :=
  match c with
  | SetWhisperModel model => setWhisperModel existsSync vm model
  | Transcribe => fst (transcribe existsSync vm)
  | SetTTSVoice voice =>
      match setTTSVoice existsSync vm voice with
      | Ret vm' => vm'
      | Throws => vm
      end
  | SetTTSEngine e => setTTSEngine vm e
  | ApplySettings settings => fst (applySettings existsSync vm settings)
  end.

(** A file that exists lies in a directory that exists. *)
Definition parentsExist (existsSync : list str -> bool) : Prop :=
  forall dir file, existsSync (dir ++ [file]) = true -> existsSync dir = true.

(** A file system given by the list of the paths that exist. *)
Definition fileSystem (paths : list (list str)) (p : list str) : bool :=
  existsb (fun q => if list_eq_dec (list_eq_dec N.eq_dec) p q
                    then true else false) paths.

(** Every path of the list but the root has its parent in the list. *)
Definition closedPaths (paths : list (list str)) : bool :=
  forallb (fun p => match p with
                    | [] => true
                    | _ => fileSystem paths (removelast p)
                    end) paths.

(** A disk with the small Whisper model and the Ryan voice, and Piper
    unpacked into its own directory. *)
Definition someDisk : list (list str) :=
  [[]; [js "whisper"]; whisperModelsDir;
   whisperModelsDir ++ [whisperFile SmallEn];
   piperDir; piperDir ++ [js "piper"]; piperDir ++ [js "piper"; js "piper"];
   piperVoicesDir; piperVoicesDir ++ [piperFile Ryan];
   piperVoicesDir ++ [piperConfig Ryan]].

(** The selection of the manager is sound: the voice is a key of
    [PIPER_VOICES], and the voice and the model are the ones the manager
    starts with or installed ones. *)
Definition wellSelected (existsSync : list str -> bool) (vm : Manager)
  : Prop :=
  (exists v, currentTTSVoice vm = piperKey v)
  /\ (currentTTSVoice vm = currentTTSVoice voiceManager
      \/ exists paths, getPiperVoicePath existsSync (currentTTSVoice vm)
                       = Ret (Some paths))
  /\ (currentWhisperModel vm = currentWhisperModel voiceManager
      \/ isWhisperModelInstalled existsSync (currentWhisperModel vm) = true).

(** A text in its two markers. *)
Definition tagged (t : str) : str := OPEN ++ t ++ CLOSE.

(** Texts in their markers, each behind some other text. *)
Definition taggedAll (parts : list (str * str)) : str :=
  concat (map (fun p => fst p ++ tagged (snd p)) parts).

(** ** The audio payload between the two processes

    [speak] sends the bytes of the WAV file as
    [audioBuffer.toString('base64')]; the provider gets them back with
    [Uint8Array.from(atob(result.audioData), c => c.charCodeAt(0))]. *)

(** The base64 alphabet: the character of a six-bit value, and back. *)
Definition base64Char (i : N) : N :=
  if N.ltb i 26 then 65 + i
  else if N.ltb i 52 then 97 + (i - 26)
  else if N.ltb i 62 then 48 + (i - 52)
  else if N.eqb i 62 then 43 else 47.

Definition base64Index (c : N) : N :=
  if between 65 90 c then c - 65
  else if between 97 122 c then c - 97 + 26
  else if between 48 57 c then c - 48 + 52
  else if N.eqb c 43 then 62 else 63.

(** [Buffer.prototype.toString('base64')]: three bytes give four
    characters; one or two bytes left over give two or three characters and
    the padding. *)
Fixpoint toBase64 (bytes : list N) : str :=
  match bytes with
  | [] => []
  | b1 :: [] =>
      [base64Char (b1 / 4); base64Char ((b1 mod 4) * 16); 61; 61]%N
  | b1 :: b2 :: [] =>
      [base64Char (b1 / 4); base64Char ((b1 mod 4) * 16 + b2 / 16);
       base64Char ((b2 mod 16) * 4); 61]%N
  | b1 :: b2 :: b3 :: rest =>
      base64Char (b1 / 4)
      :: base64Char ((b1 mod 4) * 16 + b2 / 16)
      :: base64Char ((b2 mod 16) * 4 + b3 / 64)
      :: base64Char (b3 mod 64)
      :: toBase64 rest
  end%N.

(** The bytes of a text of the alphabet: four characters give 24 bits,
    three bytes; of three characters left over the last two bits are
    dropped, of two the last four. *)
Fixpoint decodeGroups (d : str) : list N :=
  match d with
  | c1 :: c2 :: c3 :: c4 :: rest =>
      let n := ((base64Index c1 * 64 + base64Index c2) * 64
                + base64Index c3) * 64 + base64Index c4 in
      n / 65536 :: (n / 256) mod 256 :: n mod 256 :: decodeGroups rest
  | c1 :: c2 :: c3 :: [] =>
      let n := ((base64Index c1 * 64 + base64Index c2) * 64
                + base64Index c3) / 4 in
      [n / 256; n mod 256]
  | c1 :: c2 :: [] => [(base64Index c1 * 64 + base64Index c2) / 16]
  | _ => []
  end%N.

(** [atob(data)], the forgiving-base64 decode of the HTML standard: [None]
    when it throws, else the binary string, a code unit for each byte. *)
Definition atob (data : str) : option str :=
  let d := filter (fun c => negb (isAsciiWhitespace c)) data in
  let d := if Nat.eqb (Nat.modulo (length d) 4) 0 then stripPadding d else d in
  if (negb (Nat.eqb (Nat.modulo (length d) 4) 1) && forallb isBase64 d)%bool
  then Some (decodeGroups d)
  else None.

(** The terminal with its flags set anew: the effects that keep
    [voiceOutputEnabledRef] and [isActiveRef] in sync, and the first user
    input. *)
Definition withFlags (st : Term) (silent enabled active : bool) : Term :=
  mkTerm (ttsBuffer st) (spokenContent st) silent enabled active.

(** ** Pasting and dropping files (Terminal.tsx) *)

Definition FILE_URI : str := js "file://".

(** [s.split('\n')] *)
Fixpoint splitLines (s : str) : list str :=
  match s with
  | [] => [[]]
  | c :: s' =>
      if N.eqb c 10 then [] :: splitLines s'
      else match splitLines s' with
           | l :: ls => (c :: l) :: ls
           | [] => [[c]]
           end
  end.

(** [parts.join(sep)] *)
Fixpoint join (sep : str) (parts : list str) : str :=
  match parts with
  | [] => []
  | p :: ps =>
      match ps with
      | [] => p
      | _ :: _ => p ++ sep ++ join sep ps
      end
  end.

(** [s.replace(pat, rep)] with a string pattern: the first occurrence. *)
Definition replaceFirst (pat rep s : str) : str :=
  match cut pat s with
  | Some (before, after) => before ++ rep ++ after
  | None => s
  end.

(** [list.map(f)] with an [f] that may throw. *)
Fixpoint mapOutcome {A B : Type} (f : A -> Outcome B) (l : list A)
  : Outcome (list B) :=
  match l with
  | [] => Ret []
  | x :: l' =>
      match f x with
      | Throws => Throws
      | Ret y =>
          match mapOutcome f l' with
          | Throws => Throws
          | Ret ys => Ret (y :: ys)
          end
      end
  end.

(** The value [readClipboardImage] resolves to. *)
Record ImageResult : Type := mkImage {
  imageSuccess : bool;           (* success *)
  hasImage : bool;
  imagePath : option str         (* path *)
}.

(** What a paste or a drop does to the pty: one [writePty], none, or an
    exception; [handlePaste] catches it and logs. *)
Inductive Written : Type :=
| WritePty (data : str)
| NoWrite
| Failed.

Section Files.
(** The builtin [decodeURIComponent]; it throws on a malformed escape. *)
Variable decodeURIComponent : str -> Outcome str.

(** The lines that start with [file://], trimmed, as decoded paths. *)
Definition uriPaths (text : str) : Outcome (list str) :=
  mapOutcome (fun line => decodeURIComponent (replaceFirst FILE_URI [] line))
             (filter (startsWith FILE_URI) (map trim (splitLines text))).

(** [handlePaste]; the two clipboard reads are promises that may reject. *)
Definition handlePaste (imageResult : Outcome ImageResult)
           (readText : Outcome str) : Written :=
  match imageResult with
  | Throws => Failed
  | Ret image =>
      if (imageSuccess image && hasImage image && truthy (imagePath image))%bool
      then match imagePath image with
           | Some path => WritePty path
           | None => NoWrite
           end
      else
        match readText with
        | Throws => Failed
        | Ret [] => NoWrite
        | Ret text =>
            if startsWith FILE_URI text then
              match uriPaths text with
              | Throws => Failed
              | Ret paths =>
                  match join [32%N] paths with
                  | [] => WritePty text
                  | cleanText => WritePty cleanText
                  end
              end
            else WritePty text
        end
  end.

(** [handleDrop]: [files] are the results of [getPathForFile] on the
    dropped files (an exception there is caught, a falsy path skipped),
    [uriList] is [getData('text/uri-list')]; an exception of
    [decodeURIComponent] is not caught. *)
Definition handleDrop (files : list (Outcome str)) (uriList : str) : Written :=
  let paths := flat_map (fun f => match f with
                                  | Ret (c :: p) => [c :: p]
                                  | _ => []
                                  end) files in
  match paths with
  | _ :: _ => WritePty (join [32%N] paths)
  | [] =>
      match uriList with
      | [] => NoWrite
      | _ :: _ =>
          match uriPaths uriList with
          | Throws => Failed
          | Ret [] => NoWrite
          | Ret uris => WritePty (join [32%N] uris)
          end
      end
  end.
End Files.

(** The lines of a text that are file URIs: trimmed, and starting with
    [file://]. *)
Definition fileLines (lines : list str) : list str :=
  filter (startsWith FILE_URI) (map trim lines).

(** A decoder for the examples: the identity, good for paths without
    escapes. *)
Definition noEscapes (s : str) : Outcome str := Ret s.

(** ** Texts as [speakText] meets them *)

(** White space, and a word: one code unit at least, none of them white
    space or [ESC]. *)
Definition whiteSpace (g : str) : Prop :=
  Forall (fun c => isSpace c = true) g.
Definition isWord (w : str) : Prop :=
  w <> [] /\ Forall (fun c => isSpace c = false /\ N.eqb 27 c = false) w.

(** Words, each with a text in front of it, and the same words with other
    texts in front. *)
Fixpoint gapped (ws : list (list N * list N)) : str :=
  match ws with
  | [] => []
  | (g, w) :: r => g ++ w ++ gapped r
  end.
Definition regap (f : str -> str) (ws : list (list N * list N))
  : list (list N * list N) :=
  map (fun gw => (f (fst gw), snd gw)) ws.

(** Each word has white space in front, one code unit at least. *)
Definition spacedWords (ws : list (list N * list N)) : Prop :=
  Forall (fun gw => fst gw <> [] /\ whiteSpace (fst gw) /\ isWord (snd gw)) ws.

(** Two words with a colour sequence, a run of spaces and a line end. *)
Definition colouredText : str :=
  js " Hello " ++ csi (js "1;31") 109 ++ js "  world." ++ [13; 10]%N.

(** * Properties *)

(** ** Strings *)

Lemma str_eqb_eq (a b : str) : str_eqb a b = true <-> a = b.
Proof.
  unfold str_eqb. destruct (list_eq_dec N.eq_dec a b); split; congruence.
Qed.

Lemma has_In (x : str) (set : list str) : has x set = true <-> In x set.
Proof.
  unfold has. rewrite existsb_exists. split.
  - intros [y [Hy He]]. apply str_eqb_eq in He. now subst.
  - intros H. exists x. split; [assumption | now apply str_eqb_eq].
Qed.

Lemma has_false (x : str) (set : list str) : has x set = false <-> ~ In x set.
Proof.
  rewrite <- has_In. destruct (has x set); split; congruence.
Qed.

Lemma startsWith_app (pat s : str) :
  startsWith pat s = true <-> exists r, s = pat ++ r.
Proof.
  revert s. induction pat as [|p pat IH]; intros s; simpl.
  - split; [intros _; now exists s | reflexivity].
  - destruct s as [|c s]; simpl.
    + split; [discriminate | intros [r Hr]; discriminate].
    + rewrite andb_true_iff, N.eqb_eq, IH. split.
      * intros [-> [r ->]]. now exists r.
      * intros [r Hr]. injection Hr as -> ->.
        split; [reflexivity | now exists r].
Qed.

Lemma anywhere_split (m : str -> bool) (s : str) :
  anywhere m s = true <-> exists b a, s = b ++ a /\ m a = true.
Proof.
  induction s as [|c s IH]; simpl.
  - rewrite orb_false_r. split.
    + intros H. now exists [], [].
    + intros [b [a [E H]]]. symmetry in E. apply app_eq_nil in E.
      destruct E as [_ ->]. exact H.
  - rewrite orb_true_iff, IH. split.
    + intros [H | [b [a [-> H]]]].
      * now exists [], (c :: s).
      * now exists (c :: b), a.
    + intros [[|x b] [a [E H]]]; simpl in E.
      * left. now subst a.
      * right. injection E as _ ->. now exists b, a.
Qed.

Lemma includes_app (pat s : str) :
  includes pat s = true <-> exists b a, s = b ++ pat ++ a.
Proof.
  unfold includes. rewrite anywhere_split. split.
  - intros [b [a [-> H]]]. apply startsWith_app in H. destruct H as [r ->].
    now exists b, r.
  - intros [b [a ->]]. exists b, (pat ++ a). split; [reflexivity|].
    apply startsWith_app. now exists a.
Qed.

(** ** The prose filter *)

Lemma codePunct_rejected (content : str) (c : N) :
  In c content -> isCodePunct c = true -> looksLikeProse content = false.
Proof.
  intros Hin Hc. unfold looksLikeProse, looksLikeCode.
  assert (E : existsb isCodePunct content = true)
    by (apply existsb_exists; now exists c).
  rewrite E. simpl. now rewrite andb_false_r.
Qed.

Lemma keyword_rejected (kw : string) (content : str) :
  In kw ["function"; "const"; "let"; "var"]%string ->
  anywhere (keywordSpace kw) content = true ->
  looksLikeProse content = false.
Proof.
  intros Hkw H. unfold looksLikeProse, looksLikeCode.
  simpl in Hkw.
  destruct Hkw as [<- | [<- | [<- | [<- | []]]]]; rewrite H;
    rewrite ?orb_true_r; simpl; now rewrite andb_false_r.
Qed.

(** C7: the classifier rejects a segment of at most five code units,
    rejects a segment that holds one of the code punctuation characters or a
    declaration keyword followed by white space (so one that contains
    [function foo() {]), and accepts only a segment whose first character is
    a letter; a segment that passes the first two tests is accepted exactly
    when it starts with a letter. *)
Theorem classifier_policy (content : str) :
  (length content <= 5 -> looksLikeProse content = false)
  /\ (forall c, In c content -> isCodePunct c = true ->
      looksLikeProse content = false)
  /\ (forall kw, In kw ["function"; "const"; "let"; "var"]%string ->
      anywhere (keywordSpace kw) content = true ->
      looksLikeProse content = false)
  /\ (includes (js "function foo() {") content = true ->
      looksLikeProse content = false)
  /\ (looksLikeProse content = true ->
      exists c r, content = c :: r /\ isAlpha c = true)
  /\ (5 < length content -> looksLikeCode content = false ->
      looksLikeProse content = startsAlpha content)
  /\ looksLikeProse (js "ok") = false.
Proof.
  split; [|split; [|split; [|split; [|split; [|split]]]]].
  - intros H. unfold looksLikeProse.
    apply Nat.ltb_ge in H. now rewrite H.
  - intros c. apply codePunct_rejected.
  - intros kw. apply keyword_rejected.
  - intros H. apply includes_app in H. destruct H as [b [a ->]].
    apply codePunct_rejected with (c := 40%N); [|reflexivity].
    apply in_or_app. right. apply in_or_app. left.
    vm_compute. tauto.
  - unfold looksLikeProse, startsAlpha. intros H.
    apply andb_true_iff in H. destruct H as [H _].
    apply andb_true_iff in H. destruct H as [_ H].
    destruct content as [|c r]; [discriminate|]. now exists c, r.
  - intros Hlen Hcode. unfold looksLikeProse.
    apply Nat.ltb_lt in Hlen. rewrite Hlen, Hcode. simpl.
    now rewrite andb_true_r.
  - reflexivity.
Qed.

Lemma classifier_policy_witness :
  looksLikeProse (js "function foo() {") = false
  /\ looksLikeProse (js "a = b + c") = false
  /\ looksLikeProse (js "Hello world.") = startsAlpha (js "Hello world.")
  /\ looksLikeProse (js "12 apples") = false.
Proof.
  pose proof (classifier_policy (js "function foo() {")) as H1.
  pose proof (classifier_policy (js "a = b + c")) as H2.
  pose proof (classifier_policy (js "Hello world.")) as H3.
  pose proof (classifier_policy (js "12 apples")) as H4.
  split; [|split; [|split]].
  - destruct H1 as [_ [_ [_ [H1 _]]]]. apply H1. reflexivity.
  - destruct H2 as [_ [H2 _]].
    apply (H2 61%N); [vm_compute; tauto | reflexivity].
  - destruct H3 as [_ [_ [_ [_ [_ [H3 _]]]]]].
    apply H3; [vm_compute; lia | reflexivity].
  - destruct H4 as [_ [_ [_ [_ [H4 _]]]]].
    destruct (looksLikeProse (js "12 apples")) eqn:E; [|reflexivity].
    destruct (H4 eq_refl) as [c [r [Hc Ha]]].
    injection Hc as <- _. discriminate Ha.
Defined.

(** ** The dedup ledger *)

Lemma add_spec (x : str) (set : list str) :
  add x set = if has x set then set else set ++ [x].
Proof. reflexivity. Qed.

(** C4: for a segment that reaches the ledger (it passed the prose filter),
    a text already in the spoken set changes nothing and is not spoken;
    any other text is appended to the set and reported, and it is spoken
    exactly when the three gates are open; in both cases the text is in the
    set afterwards, whatever the gates. *)
Theorem ledger_policy (st : Term) (content : str) :
  looksLikeProse content = true ->
  (has content (spokenContent st) = true ->
   handleContent st content = (st, []))
  /\ (has content (spokenContent st) = false ->
      handleContent st content =
        (withSpoken st (spokenContent st ++ [content]),
         [(content, gatesOpen st)]))
  /\ In content (spokenContent (fst (handleContent st content)))
  /\ (gatesOpen st = false -> speakCalls (snd (handleContent st content)) = []).
Proof.
  intros Hp. unfold handleContent. rewrite Hp. simpl.
  destruct (has content (spokenContent st)) eqn:Hh; simpl.
  - repeat split; try discriminate; try reflexivity.
    now apply has_In.
  - repeat split; try discriminate.
    + intros _. now rewrite add_spec, Hh.
    + rewrite add_spec, Hh. apply in_or_app. right. now left.
    + intros Hg. unfold speakCalls. simpl. now rewrite Hg.
Qed.

Lemma ledger_policy_witness :
  In (js "Hello world.")
     (spokenContent
        (fst (handleContent (mkTerm [] [] true false false)
                            (js "Hello world.")))).
Proof.
  apply (ledger_policy (mkTerm [] [] true false false) (js "Hello world.")).
  reflexivity.
Defined.

(** ** The ceiling of the spoken set *)

Lemma trimSpoken_le (sp : list str) : length (trimSpoken sp) <= 1000.
Proof.
  unfold trimSpoken, sliceLast.
  destruct (Nat.ltb 1000 (length sp)) eqn:E.
  - apply Nat.ltb_lt in E. rewrite length_skipn. lia.
  - apply Nat.ltb_ge in E. exact E.
Qed.

Lemma onPtyData_spoken (st : Term) (data : str) :
  spokenContent (fst (onPtyData st data)) =
  trimSpoken (spokenContent (snd (fst (extractPhase st data)))).
Proof.
  unfold onPtyData. destruct (extractPhase st data) as [[rest st1] log].
  reflexivity.
Qed.

Lemma boundaries_ceiling (chunks : list str) (st : Term) :
  Forall (fun s => length (spokenContent s) <= 1000) (boundaries st chunks).
Proof.
  revert st. induction chunks as [|c cs IH]; intros st; simpl.
  - constructor.
  - constructor; [|apply IH].
    rewrite onPtyData_spoken. apply trimSpoken_le.
Qed.

(** X29: after each call of the handler [onPtyData] the spoken set holds at
    most 1000 entries, whatever the state before and the stream; the set
    after a call is the set after the extraction loop cut by [trimSpoken];
    and a set of more than 1000 entries is cut to its last 500 entries, a
    suffix of the insertion order. *)
Theorem spoken_ceiling (st : Term) (chunks : list str) :
  Forall (fun s => length (spokenContent s) <= 1000) (boundaries st chunks)
  /\ (forall data,
         spokenContent (fst (onPtyData st data)) =
         trimSpoken (spokenContent (snd (fst (extractPhase st data)))))
  /\ (forall sp : list str, 1000 < length sp ->
         trimSpoken sp = sliceLast 500 sp
         /\ length (trimSpoken sp) = 500
         /\ exists old, sp = old ++ trimSpoken sp).
Proof.
  split; [apply boundaries_ceiling | split; [apply onPtyData_spoken |]].
  intros sp H. unfold trimSpoken, sliceLast.
  apply Nat.ltb_lt in H. rewrite H. apply Nat.ltb_lt in H.
  split; [reflexivity | split].
  - rewrite length_skipn. lia.
  - exists (firstn (length sp - 500) sp). symmetry. apply firstn_skipn.
Qed.

Lemma spoken_ceiling_witness :
  let sp := map (fun n => [N.of_nat n]) (seq 0 1001) in
  length (trimSpoken sp) = 500 /\ hd [] (trimSpoken sp) = [501%N].
Proof.
  destruct (spoken_ceiling (mkTerm [] [] true true true) []) as [_ [_ H]].
  specialize (H (map (fun n => [N.of_nat n]) (seq 0 1001))).
  assert (L : 1000 < length (map (fun n => [N.of_nat n]) (seq 0 1001))).
  { rewrite length_map, length_seq. lia. }
  destruct (H L) as [_ [H2 _]].
  split; [exact H2 | vm_compute; reflexivity].
Defined.

(** C6 fails on the replay: the mount effect adds the tagged texts of the
    buffered chunks to the spoken set and never cuts it.  With 1001
    different tagged texts in the buffer, in one chunk or a chunk each, the
    set holds 1001 entries after the replay; it still does after the first
    user input; the next call of the handler cuts it to 500. *)
Theorem replay_exceeds_ceiling :
  length (spokenContent (mount true true [manySegments])) = 1001
  /\ length (spokenContent (mount true true manyChunks)) = 1001
  /\ length (spokenContent (onData (mount true true manyChunks))) = 1001
  /\ length (spokenContent
               (fst (onPtyData (onData (mount true true manyChunks))
                               (js "ok")))) = 500.
Proof. vm_compute. repeat split. Qed.

(** ** The segmenter *)

Lemma skipn_app_exact (a b : str) : skipn (length a) (a ++ b) = b.
Proof. induction a; simpl; auto. Qed.

Lemma startsWith_le (pat s : str) :
  startsWith pat s = true -> length pat <= length s.
Proof.
  intros H. apply startsWith_app in H. destruct H as [r ->].
  rewrite length_app. lia.
Qed.

Lemma startsWith_app_r (pat s x : str) :
  startsWith pat s = true -> startsWith pat (s ++ x) = true.
Proof.
  intros H. apply startsWith_app in H. destruct H as [r ->].
  apply startsWith_app. exists (r ++ x). now rewrite app_assoc.
Qed.

Lemma startsWith_app_inv (pat : str) :
  forall s x, startsWith pat (s ++ x) = true -> length pat <= length s ->
              startsWith pat s = true.
Proof.
  induction pat as [|p pat IH]; intros s x H L; [reflexivity|].
  destruct s as [|c s]; simpl in L; [lia|].
  simpl in *. apply andb_true_iff in H. destruct H as [H1 H2].
  rewrite H1. simpl. apply (IH s x H2). lia.
Qed.

Lemma skipn_app_le (n : nat) (s x : str) :
  n <= length s -> skipn n (s ++ x) = skipn n s ++ x.
Proof.
  intros L. rewrite skipn_app. replace (n - length s) with 0 by lia.
  reflexivity.
Qed.

Lemma cut_spec (pat : str) :
  forall s b a, cut pat s = Some (b, a) -> s = b ++ pat ++ a.
Proof.
  assert (Hd : forall s, startsWith pat s = true ->
                         s = pat ++ skipn (length pat) s).
  { intros s E. apply startsWith_app in E. destruct E as [r ->].
    now rewrite skipn_app_exact. }
  induction s as [|c s IH]; intros b a H; simpl in H.
  - destruct (startsWith pat []) eqn:E; [|discriminate].
    injection H as <- <-. now apply Hd.
  - destruct (startsWith pat (c :: s)) eqn:E.
    + injection H as <- <-. now apply Hd.
    + destruct (cut pat s) as [[b' a']|] eqn:Ec; [|discriminate].
      injection H as <- <-. simpl. f_equal. now apply IH.
Qed.

Lemma cut_le (pat s b a : str) :
  cut pat s = Some (b, a) -> length pat <= length s.
Proof.
  intros H. apply cut_spec in H. subst s. rewrite !length_app. lia.
Qed.

Lemma cut_unfold (pat s : str) :
  cut pat s =
  if startsWith pat s then Some ([], skipn (length pat) s)
  else match s with
       | [] => None
       | c :: s' =>
           match cut pat s' with
           | Some (b, a) => Some (c :: b, a)
           | None => None
           end
       end.
Proof. destruct s; reflexivity. Qed.

(** A first occurrence stays the first occurrence when text is appended. *)
Lemma cut_app (pat : str) (x : str) :
  forall s b a, cut pat s = Some (b, a) -> cut pat (s ++ x) = Some (b, a ++ x).
Proof.
  induction s as [|c s IH]; intros b a H; rewrite cut_unfold in H;
    rewrite cut_unfold.
  - destruct (startsWith pat []) eqn:E; [|discriminate].
    injection H as <- <-.
    rewrite (startsWith_app_r _ _ x E).
    rewrite skipn_app_le by now apply startsWith_le. reflexivity.
  - destruct (startsWith pat (c :: s)) eqn:E.
    + injection H as <- <-.
      rewrite (startsWith_app_r _ _ x E).
      rewrite skipn_app_le by now apply startsWith_le. reflexivity.
    + destruct (cut pat s) as [[b' a']|] eqn:Ec; [|discriminate].
      injection H as <- <-.
      destruct (startsWith pat ((c :: s) ++ x)) eqn:E'.
      * apply startsWith_app_inv in E'; [congruence|].
        apply cut_le in Ec. simpl. lia.
      * simpl. now rewrite (IH _ _ eq_refl).
Qed.

Lemma tagExec_app (s x inner rest : str) :
  tagExec s = Some (inner, rest) ->
  tagExec (s ++ x) = Some (inner, rest ++ x).
Proof.
  unfold tagExec. intros H.
  destruct (cut OPEN s) as [[b s1]|] eqn:E1; [|discriminate].
  destruct (cut CLOSE s1) as [[i r]|] eqn:E2; [|discriminate].
  injection H as <- <-.
  rewrite (cut_app OPEN x _ _ _ E1), (cut_app CLOSE x _ _ _ E2). reflexivity.
Qed.

(** A match consumes its two markers. *)
Lemma tagExec_shorter (s inner rest : str) :
  tagExec s = Some (inner, rest) -> length rest + 11 + length inner <= length s.
Proof.
  unfold tagExec. intros H.
  destruct (cut OPEN s) as [[b s1]|] eqn:E1; [|discriminate].
  destruct (cut CLOSE s1) as [[i r]|] eqn:E2; [|discriminate].
  injection H as <- <-.
  apply cut_spec in E1, E2. subst s s1. rewrite !length_app. simpl. lia.
Qed.

(** The matched text and the rest are parts of the buffer. *)
Lemma tagExec_parts (s inner rest : str) :
  tagExec s = Some (inner, rest) ->
  exists before, s = before ++ OPEN ++ inner ++ CLOSE ++ rest.
Proof.
  unfold tagExec. intros H.
  destruct (cut OPEN s) as [[b s1]|] eqn:E1; [|discriminate].
  destruct (cut CLOSE s1) as [[i r]|] eqn:E2; [|discriminate].
  injection H as <- <-.
  apply cut_spec in E1, E2. subst s s1. now exists b.
Qed.

(** The loop needs no more fuel than the length of its text. *)
Lemma segmentsFrom_enough (f : nat) :
  forall g s, length s <= f -> length s <= g ->
              segmentsFrom f s = segmentsFrom g s.
Proof.
  induction f as [|f IH]; intros g s Lf Lg.
  - destruct s; [|simpl in Lf; lia]. now destruct g.
  - destruct g as [|g].
    + destruct s; [|simpl in Lg; lia]. reflexivity.
    + simpl. destruct (tagExec s) as [[inner rest]|] eqn:E; [|reflexivity].
      apply tagExec_shorter in E.
      now rewrite (IH g rest) by lia.
Qed.

Lemma segments_unfold (s : str) :
  segments s =
  match tagExec s with
  | None => ([], s)
  | Some (inner, rest) =>
      let (cs, r) := segments rest in (trim inner :: cs, r)
  end.
Proof.
  unfold segments. destruct s as [|c s]; [reflexivity|].
  cbn [length segmentsFrom].
  destruct (tagExec (c :: s)) as [[inner rest]|] eqn:E; [|reflexivity].
  apply tagExec_shorter in E. simpl in E.
  now rewrite (segmentsFrom_enough (length s) (length rest) rest) by lia.
Qed.

(** When the loop stops, no complete tag is left. *)
Lemma segments_done (n : nat) :
  forall s, length s <= n -> tagExec (snd (segments s)) = None.
Proof.
  induction n as [|n IH]; intros s L; rewrite segments_unfold.
  - destruct s; [reflexivity | simpl in L; lia].
  - destruct (tagExec s) as [[inner rest]|] eqn:E; [|exact E].
    apply tagExec_shorter in E.
    specialize (IH rest). destruct (segments rest) as [cs r]. simpl in *.
    apply IH. lia.
Qed.

(** The segments of a buffer are found again when text is appended; the
    scan goes on from the remainder. *)
Lemma segments_app (n : nat) (x : str) :
  forall s, length s <= n ->
  segments (s ++ x) =
  let (cs, r) := segments s in
  let (cs', r') := segments (r ++ x) in
  (cs ++ cs', r').
Proof.
  induction n as [|n IH]; intros s L.
  - destruct s; [|simpl in L; lia]. simpl.
    now destruct (segments x).
  - rewrite (segments_unfold s).
    destruct (tagExec s) as [[inner rest]|] eqn:E.
    + rewrite segments_unfold, (tagExec_app _ x _ _ E).
      apply tagExec_shorter in E.
      rewrite (IH rest) by lia.
      destruct (segments rest) as [cs r].
      now destruct (segments (r ++ x)) as [cs' r'].
    + now destruct (segments (s ++ x)).
Qed.

(** ** The handler as segmenter, filter and ledger *)

Lemma handleContent_ledger (st : Term) (content : str) :
  handleContent st content =
  (withSpoken st (fst (ledger (gatesOpen st) (spokenContent st) content)),
   snd (ledger (gatesOpen st) (spokenContent st) content)).
Proof.
  unfold handleContent, ledger.
  destruct (looksLikeProse content
            && negb (has content (spokenContent st)))%bool; [reflexivity|].
  now destruct st.
Qed.

Lemma tagLoop_stages (fuel : nat) :
  forall rest st log,
  tagLoop fuel rest st log =
  (snd (segmentsFrom fuel rest),
   withSpoken st (fst (ledgerAll (gatesOpen st) (spokenContent st)
                                 (fst (segmentsFrom fuel rest)))),
   log ++ snd (ledgerAll (gatesOpen st) (spokenContent st)
                         (fst (segmentsFrom fuel rest)))).
Proof.
  induction fuel as [|fuel IH]; intros rest st log; simpl.
  - rewrite app_nil_r. now destruct st.
  - destruct (tagExec rest) as [[inner rest']|].
    + rewrite handleContent_ledger, IH.
      destruct (segmentsFrom fuel rest') as [cs r]. simpl.
      destruct (ledger (gatesOpen st) (spokenContent st) (trim inner))
        as [sp1 out1]. simpl.
      change (gatesOpen (withSpoken st sp1)) with (gatesOpen st).
      destruct (ledgerAll (gatesOpen st) sp1 cs) as [sp2 out2]. simpl.
      now rewrite app_assoc.
    + simpl. rewrite app_nil_r. now destruct st.
Qed.

(** The handler in stages: the segments of the buffer with the stripped
    chunk appended pass the filter and the ledger in order; then the
    remainder and the set are cut down. *)
Lemma onPtyData_stages (st : Term) (data : str) :
  onPtyData st data =
  let buf := ttsBuffer st ++ stripAnsi data in
  let res := ledgerAll (gatesOpen st) (spokenContent st) (fst (segments buf)) in
  (mkTerm (capBuffer (clearIfNoMarker (snd (segments buf))))
          (trimSpoken (fst res))
          (silentMode st) (voiceOutputEnabled st) (isActive st),
   snd res).
Proof.
  unfold onPtyData, extractPhase. rewrite tagLoop_stages. reflexivity.
Qed.

Lemma extractPhase_stages (st : Term) (data : str) :
  extractPhase st data =
  let buf := ttsBuffer st ++ stripAnsi data in
  let res := ledgerAll (gatesOpen st) (spokenContent st) (fst (segments buf)) in
  (snd (segments buf), withSpoken st (fst res), snd res).
Proof. unfold extractPhase. now rewrite tagLoop_stages. Qed.

(** The loop of the handler ends because no complete tag is left, with
    fuel to spare: more fuel gives the same result. *)
Lemma extractPhase_complete (st : Term) (data : str) :
  tagExec (fst (fst (extractPhase st data))) = None.
Proof.
  rewrite extractPhase_stages. cbn zeta. cbn [fst].
  apply (segments_done (length (ttsBuffer st ++ stripAnsi data))), le_n.
Qed.

Lemma tagLoop_enough (fuel : nat) (rest : str) (st : Term) (log : list Entry) :
  length rest <= fuel ->
  tagLoop fuel rest st log = tagLoop (length rest) rest st log.
Proof.
  intros L. rewrite !tagLoop_stages.
  now rewrite (segmentsFrom_enough fuel (length rest) rest L (le_n _)).
Qed.

Lemma ledgerAll_app (g : bool) (cs1 cs2 : list str) :
  forall sp,
  ledgerAll g sp (cs1 ++ cs2) =
  (fst (ledgerAll g (fst (ledgerAll g sp cs1)) cs2),
   snd (ledgerAll g sp cs1)
   ++ snd (ledgerAll g (fst (ledgerAll g sp cs1)) cs2)).
Proof.
  induction cs1 as [|c cs1 IH]; intros sp; simpl.
  - now destruct (ledgerAll g sp cs2).
  - destruct (ledger g sp c) as [sp1 out1]. rewrite IH.
    destruct (ledgerAll g sp1 cs1) as [sp2 out2]. simpl.
    now rewrite app_assoc.
Qed.

(** The set only grows in the ledger. *)
Lemma ledger_incl (g : bool) (sp : list str) (c : str) :
  incl sp (fst (ledger g sp c)) /\ length sp <= length (fst (ledger g sp c)).
Proof.
  unfold ledger, add.
  destruct (looksLikeProse c && negb (has c sp))%bool eqn:E; simpl.
  - destruct (has c sp); split; auto using incl_refl, incl_appl.
    rewrite length_app. lia.
  - split; auto using incl_refl.
Qed.

Lemma ledgerAll_incl (g : bool) (cs : list str) :
  forall sp, incl sp (fst (ledgerAll g sp cs))
             /\ length sp <= length (fst (ledgerAll g sp cs)).
Proof.
  induction cs as [|c cs IH]; intros sp; simpl.
  - split; auto using incl_refl.
  - destruct (ledger_incl g sp c) as [I1 L1].
    destruct (ledger g sp c) as [sp1 out1]. simpl in *.
    destruct (IH sp1) as [I2 L2].
    destruct (ledgerAll g sp1 cs) as [sp2 out2]. simpl in *.
    split; [eapply incl_tran; eassumption | lia].
Qed.

(** Every segment that passes the filter is in the set after the ledger. *)
Lemma ledgerAll_records (g : bool) (cs : list str) :
  forall sp c, In c cs -> looksLikeProse c = true ->
               In c (fst (ledgerAll g sp cs)).
Proof.
  induction cs as [|c0 cs IH]; intros sp c Hin Hp; [contradiction|].
  simpl. destruct (ledger g sp c0) as [sp1 out1] eqn:E1.
  destruct (ledgerAll g sp1 cs) as [sp2 out2] eqn:E2. simpl.
  destruct Hin as [-> | Hin].
  - destruct (ledgerAll_incl g cs sp1) as [I _]. rewrite E2 in I. apply I.
    unfold ledger in E1. rewrite Hp in E1. simpl in E1.
    destruct (has c sp) eqn:Hh; simpl in E1; injection E1 as <- <-.
    + now apply has_In.
    + unfold add. rewrite Hh. apply in_or_app. right. now left.
  - specialize (IH sp1 c Hin Hp). now rewrite E2 in IH.
Qed.

(** In silent mode, or with a gate closed, nothing is spoken. *)
Lemma ledgerAll_closed (cs : list str) :
  forall sp, speakCalls (snd (ledgerAll false sp cs)) = [].
Proof.
  induction cs as [|c cs IH]; intros sp; simpl; [reflexivity|].
  destruct (ledger false sp c) as [sp1 out1] eqn:E1.
  specialize (IH sp1). destruct (ledgerAll false sp1 cs) as [sp2 out2].
  cbn [snd] in *. unfold speakCalls in *.
  rewrite filter_app, map_app, IH.
  unfold ledger in E1.
  destruct (looksLikeProse c && negb (has c sp))%bool;
    injection E1 as <- <-; reflexivity.
Qed.

(** With the gates open, every recorded segment is spoken. *)
Lemma ledgerAll_open (cs : list str) :
  forall sp, speakCalls (snd (ledgerAll true sp cs)) =
             accepted (snd (ledgerAll true sp cs)).
Proof.
  induction cs as [|c cs IH]; intros sp; simpl; [reflexivity|].
  destruct (ledger true sp c) as [sp1 out1] eqn:E1.
  specialize (IH sp1). destruct (ledgerAll true sp1 cs) as [sp2 out2].
  cbn [snd] in *. unfold speakCalls, accepted in *.
  rewrite filter_app, !map_app, IH.
  unfold ledger in E1.
  destruct (looksLikeProse c && negb (has c sp))%bool;
    injection E1 as <- <-; reflexivity.
Qed.

(** ** Text in front of the buffer in which no marker begins *)

Lemma startsWith_longer (p q s : str) :
  startsWith (p ++ q) s = true -> startsWith p s = true.
Proof.
  intros H. apply startsWith_app in H. destruct H as [r ->].
  apply startsWith_app. exists (q ++ r). now rewrite app_assoc.
Qed.

Lemma startsWith_firstn (p : str) :
  forall s, startsWith p s = startsWith p (firstn (length p) s).
Proof.
  induction p as [|c p IH]; intros s; [reflexivity|].
  destruct s as [|x s]; [reflexivity|]. cbn. now rewrite <- IH.
Qed.

Lemma firstn_app_firstn (n : nat) (a x : str) :
  firstn n (a ++ x) = firstn n (a ++ firstn n x).
Proof.
  rewrite !firstn_app, firstn_firstn.
  replace (Nat.min (n - length a) n) with (n - length a) by lia.
  reflexivity.
Qed.

(** Whether [OPEN_HEAD] begins at a place is seen on the three code units
    after it. *)
Lemma open_head_ahead (c : N) (d x : str) :
  startsWith OPEN_HEAD (c :: d ++ x) =
  startsWith OPEN_HEAD (c :: d ++ firstn 3 x).
Proof.
  rewrite (startsWith_firstn OPEN_HEAD (c :: d ++ x)).
  rewrite (startsWith_firstn OPEN_HEAD (c :: d ++ firstn 3 x)).
  change (length OPEN_HEAD) with 4. rewrite !firstn_cons.
  now rewrite (firstn_app_firstn 3 d x).
Qed.

Lemma includes_cons (p : str) (c : N) (s : str) :
  includes p (c :: s) = (startsWith p (c :: s) || includes p s)%bool.
Proof. reflexivity. Qed.

Lemma includes_short (s : str) :
  length s < 4 -> includes OPEN_HEAD s = false.
Proof.
  intros L. destruct (includes OPEN_HEAD s) eqn:E; [|reflexivity].
  apply includes_app in E. destruct E as [b [a ->]].
  rewrite !length_app in L. simpl in L. lia.
Qed.

Lemma includes_more_l (p a b : str) :
  includes p (a ++ b) = false -> includes p b = false.
Proof.
  intros H. destruct (includes p b) eqn:E; [|reflexivity].
  apply includes_app in E. destruct E as [b1 [b2 ->]].
  rewrite <- H. symmetry. apply includes_app.
  exists (a ++ b1), b2. now rewrite <- app_assoc.
Qed.

Lemma includes_more_r (p a b : str) :
  includes p (a ++ b) = false -> includes p a = false.
Proof.
  intros H. destruct (includes p a) eqn:E; [|reflexivity].
  apply includes_app in E. destruct E as [a1 [a2 ->]].
  rewrite <- H. symmetry. apply includes_app.
  exists a1, (a2 ++ b). now rewrite <- !app_assoc.
Qed.

Lemma includes_junk (x : str) :
  forall d,
  includes OPEN_HEAD (d ++ firstn 3 x) = false ->
  includes OPEN_HEAD (d ++ x) = includes OPEN_HEAD x.
Proof.
  induction d as [|c d IH]; intros H; [reflexivity|].
  cbn [app] in *. rewrite includes_cons in *.
  apply orb_false_iff in H. destruct H as [H1 H2].
  rewrite open_head_ahead, H1. exact (IH H2).
Qed.

Lemma cut_OPEN_junk (x : str) :
  forall d,
  includes OPEN_HEAD (d ++ firstn 3 x) = false ->
  cut OPEN (d ++ x) =
  match cut OPEN x with
  | Some (b, a) => Some (d ++ b, a)
  | None => None
  end.
Proof.
  induction d as [|c d IH]; intros H.
  - simpl. now destruct (cut OPEN x) as [[b a]|].
  - cbn [app] in *. rewrite includes_cons in H.
    apply orb_false_iff in H. destruct H as [H1 H2].
    rewrite cut_unfold.
    assert (E : startsWith OPEN (c :: d ++ x) = false).
    { destruct (startsWith OPEN (c :: d ++ x)) eqn:E; [|reflexivity].
      change OPEN with (OPEN_HEAD ++ [187%N]) in E.
      apply startsWith_longer in E.
      rewrite open_head_ahead, H1 in E. discriminate. }
    rewrite E, (IH H2). now destruct (cut OPEN x) as [[b a]|].
Qed.

Lemma tagExec_junk (d x : str) :
  includes OPEN_HEAD (d ++ firstn 3 x) = false ->
  tagExec (d ++ x) = tagExec x.
Proof.
  intros H. unfold tagExec. rewrite (cut_OPEN_junk x d H).
  now destruct (cut OPEN x) as [[b a]|].
Qed.

(** Text in which no marker begins changes nothing in the segments, and
    stays in front of the remainder when no tag is complete. *)
Lemma segments_junk (d x : str) :
  includes OPEN_HEAD (d ++ firstn 3 x) = false ->
  fst (segments (d ++ x)) = fst (segments x)
  /\ (snd (segments (d ++ x)) = snd (segments x)
      \/ (snd (segments (d ++ x)) = d ++ x /\ snd (segments x) = x)).
Proof.
  intros H. rewrite (segments_unfold (d ++ x)), (segments_unfold x).
  rewrite (tagExec_junk d x H).
  destruct (tagExec x) as [[inner rest]|].
  - destruct (segments rest). split; [reflexivity | now left].
  - split; [reflexivity | right; now split].
Qed.

(** The remainder is a suffix of the buffer. *)
Lemma segments_suffix (n : nat) :
  forall s, length s <= n -> exists pre, s = pre ++ snd (segments s).
Proof.
  induction n as [|n IH]; intros s L; rewrite segments_unfold.
  - destruct s; [now exists [] | simpl in L; lia].
  - destruct (tagExec s) as [[inner rest]|] eqn:E; [|now exists []].
    pose proof (tagExec_shorter _ _ _ E) as Hl.
    apply tagExec_parts in E. destruct E as [before E].
    destruct (IH rest) as [pre Hpre]; [lia|].
    destruct (segments rest) as [cs r]. simpl in *.
    exists (before ++ OPEN ++ inner ++ CLOSE ++ pre).
    rewrite E. rewrite Hpre at 1.
    now rewrite <- !app_assoc.
Qed.

Lemma clearIfNoMarker_cases (r : str) :
  (clearIfNoMarker r = r) \/
  (clearIfNoMarker r = [] /\ includes OPEN_HEAD r = false).
Proof.
  unfold clearIfNoMarker. destruct (includes OPEN_HEAD r); auto.
Qed.

Lemma capBuffer_small (b : str) : length b <= 2000 -> capBuffer b = b.
Proof.
  intros L. unfold capBuffer. apply Nat.ltb_ge in L. now rewrite L.
Qed.

Lemma trimSpoken_small (sp : list str) :
  length sp <= 1000 -> trimSpoken sp = sp.
Proof.
  intros L. unfold trimSpoken. apply Nat.ltb_ge in L. now rewrite L.
Qed.

(** ** Chunk boundaries *)

Lemma feed_cons (st : Term) (c : str) (cs : list str) :
  feed st (c :: cs) =
  (fst (feed (fst (onPtyData st c)) cs),
   snd (onPtyData st c) ++ snd (feed (fst (onPtyData st c)) cs)).
Proof.
  simpl. destruct (onPtyData st c) as [st1 log1].
  simpl. now destruct (feed st1 cs).
Qed.

Lemma seenText_S (st : Term) (c : str) (cs : list str) (k : nat) :
  seenText st (c :: cs) (S k) =
  (ttsBuffer st ++ stripAnsi c) ++ concat (map stripAnsi (firstn k cs)).
Proof. unfold seenText. simpl. now rewrite app_assoc. Qed.

Lemma segments_app_fst (s x : str) :
  fst (segments (s ++ x)) =
  fst (segments s) ++ fst (segments (snd (segments s) ++ x)).
Proof.
  rewrite (segments_app (length s) x s (le_n _)).
  destruct (segments s) as [cs r]. simpl.
  now destruct (segments (r ++ x)).
Qed.

Lemma segments_app_snd (s x : str) :
  snd (segments (s ++ x)) = snd (segments (snd (segments s) ++ x)).
Proof.
  rewrite (segments_app (length s) x s (le_n _)).
  destruct (segments s) as [cs r]. simpl.
  now destruct (segments (r ++ x)).
Qed.

(** ** What the handler keeps between two chunks *)

Lemma keptPart_cases (r : str) :
  (includes OPEN_HEAD r = false /\ keptPart r = [] /\ droppedPart r = r)
  \/ (includes OPEN_HEAD r = true /\ length r <= 2000
      /\ keptPart r = r /\ droppedPart r = [])
  \/ (includes OPEN_HEAD r = true /\ 2000 < length r
      /\ keptPart r = skipn (length r - 2000) r
      /\ droppedPart r = firstn (length r - 2000) r).
Proof.
  unfold droppedPart, keptPart, clearIfNoMarker.
  destruct (includes OPEN_HEAD r).
  - right. unfold capBuffer. destruct (Nat.ltb 2000 (length r)) eqn:E.
    + right. apply Nat.ltb_lt in E. rewrite length_skipn.
      replace (length r - (length r - (length r - 2000)))
        with (length r - 2000) by lia.
      auto.
    + left. apply Nat.ltb_ge in E. rewrite Nat.sub_diag. auto.
  - left. cbn. rewrite Nat.sub_0_r, firstn_all. auto.
Qed.

Lemma dropped_kept (r : str) : r = droppedPart r ++ keptPart r.
Proof.
  destruct (keptPart_cases r)
    as [[_ [-> ->]] | [[_ [_ [-> ->]]] | [_ [_ [-> ->]]]]].
  - now rewrite app_nil_r.
  - reflexivity.
  - symmetry. apply firstn_skipn.
Qed.

(** With text in front in which no marker begins, the handler drops more
    and loses no more. *)
Lemma losesMarker_junk (d z y : str) :
  includes OPEN_HEAD (d ++ firstn 3 z) = false ->
  losesMarker (d ++ z) y = false -> losesMarker z y = false.
Proof.
  intros J. pose proof (includes_junk z d J) as Ei.
  unfold losesMarker.
  destruct (keptPart_cases z)
    as [[Iz [-> ->]] | [[Iz [Lz [-> ->]]] | [Iz [Lz [-> ->]]]]].
  - destruct (keptPart_cases (d ++ z))
      as [[_ [-> ->]] | [[I _] | [I _]]]; try congruence.
    rewrite <- app_assoc. apply includes_more_l.
  - intros _. apply includes_short. cbn [app].
    pose proof (firstn_le_length 3 (z ++ y)). lia.
  - destruct (keptPart_cases (d ++ z))
      as [[I _] | [[_ [L _]] | [_ [_ [-> ->]]]]];
      [congruence | rewrite length_app in L; lia |].
    rewrite length_app.
    replace (length d + length z - 2000)
      with (length d + (length z - 2000)) by lia.
    rewrite firstn_app_2, skipn_app.
    rewrite skipn_all2 by lia.
    replace (length d + (length z - 2000) - length d)
      with (length z - 2000) by lia.
    cbn [app]. rewrite <- app_assoc. apply includes_more_l.
Qed.

(** The buffer kept between two chunks stands for the remainder, as long
    as no marker begins in what is dropped. *)
Lemma kept_buffer (r x y : str) :
  losesMarker r (x ++ y) = false ->
  fst (segments (keptPart r ++ x)) = fst (segments (r ++ x))
  /\ (losesMarker (snd (segments (r ++ x))) y = false ->
      losesMarker (snd (segments (keptPart r ++ x))) y = false).
Proof.
  unfold losesMarker at 1. intros H.
  assert (J : includes OPEN_HEAD
                (droppedPart r ++ firstn 3 (keptPart r ++ x)) = false).
  { rewrite app_assoc, firstn_app, app_assoc in H.
    now apply includes_more_r in H. }
  rewrite (dropped_kept r) at 2 3. rewrite <- !app_assoc.
  destruct (segments_junk (droppedPart r) (keptPart r ++ x) J)
    as [F1 [F2 | [F2 F3]]].
  - rewrite F1, F2. now split.
  - rewrite F1, F2, F3. split; [reflexivity|].
    now apply losesMarker_junk.
Qed.

Lemma laterText_split (l : list str) (k : nat) :
  concat (map stripAnsi (firstn k l)) ++ laterText l k =
  concat (map stripAnsi l).
Proof.
  unfold laterText. now rewrite <- concat_app, <- map_app, firstn_skipn.
Qed.

Lemma feed_stages (cs : list str) :
  forall c st,
  (forall k, 0 < k < length (c :: cs) ->
             losesMarker (snd (segments (seenText st (c :: cs) k)))
                         (laterText (c :: cs) k) = false
             /\ length (recordedBy st (seenText st (c :: cs) k)) <= 1000) ->
  snd (feed st (c :: cs)) =
    snd (ledgerAll (gatesOpen st) (spokenContent st)
           (fst (segments (seenText st (c :: cs) (length (c :: cs))))))
  /\ spokenContent (fst (feed st (c :: cs))) =
     trimSpoken (recordedBy st (seenText st (c :: cs) (length (c :: cs)))).
Proof.
  induction cs as [|c' cs IH]; intros c st H.
  - rewrite feed_cons. simpl feed. cbn [fst snd]. rewrite app_nil_r.
    unfold recordedBy, seenText in *. simpl in *. rewrite app_nil_r in *.
    rewrite onPtyData_stages. cbn [fst snd spokenContent].
    split; reflexivity.
  - rewrite feed_cons. cbn [fst snd]. unfold recordedBy in *.
    set (B := ttsBuffer st ++ stripAnsi c) in *.
    set (g := gatesOpen st) in *. set (sp := spokenContent st) in *.
    set (X := concat (map stripAnsi (c' :: cs))).
    assert (ET : seenText st (c :: c' :: cs) (length (c :: c' :: cs)) = B ++ X).
    { change (length (c :: c' :: cs)) with (S (length (c' :: cs))).
      rewrite seenText_S. now rewrite firstn_all. }
    rewrite ET in *.
    (* the first boundary *)
    assert (H1 : losesMarker (snd (segments B)) X = false
                 /\ length (fst (ledgerAll g sp (fst (segments B)))) <= 1000).
    { assert (H1 := H 1). rewrite seenText_S in H1.
      cbn [firstn map concat] in H1. rewrite app_nil_r in H1.
      apply H1. simpl. lia. }
    destruct H1 as [Hk1 Ls].
    set (r := snd (segments B)) in *.
    (* the state after the first chunk *)
    pose proof (onPtyData_stages st c) as E1. cbn zeta in E1.
    fold B g sp in E1. fold r in E1.
    set (sp1 := fst (ledgerAll g sp (fst (segments B)))) in *.
    set (out1 := snd (ledgerAll g sp (fst (segments B)))) in *.
    rewrite (trimSpoken_small sp1 Ls) in E1.
    rewrite E1. cbn [fst snd]. fold (keptPart r).
    set (st1 := mkTerm (keptPart r) sp1 (silentMode st)
                       (voiceOutputEnabled st) (isActive st)).
    assert (Hk1' : losesMarker r (X ++ []) = false)
      by now rewrite app_nil_r.
    destruct (kept_buffer r X [] Hk1') as [F1 _].
    specialize (IH c' st1).
    assert (ET1 : seenText st1 (c' :: cs) (length (c' :: cs)) =
                  keptPart r ++ X).
    { unfold seenText. now rewrite firstn_all. }
    rewrite ET1 in IH. rewrite F1 in IH.
    change (gatesOpen st1) with g in IH.
    change (spokenContent st1) with sp1 in IH.
    destruct IH as [IH1 IH2].
    + intros k Hk.
      assert (Hpk := H (S k)). rewrite seenText_S in Hpk. fold B in Hpk.
      change (laterText (c :: c' :: cs) (S k))
        with (laterText (c' :: cs) k) in Hpk.
      set (Xk := concat (map stripAnsi (firstn k (c' :: cs)))) in *.
      change (seenText st1 (c' :: cs) k) with (keptPart r ++ Xk).
      assert (Hs : losesMarker r (Xk ++ laterText (c' :: cs) k) = false).
      { unfold Xk. now rewrite laterText_split. }
      destruct (kept_buffer r Xk _ Hs) as [G1 G2].
      destruct Hpk as [Hp Hl]; [simpl in *; lia|].
      split.
      * apply G2. rewrite segments_app_snd in Hp. exact Hp.
      * rewrite G1. rewrite segments_app_fst, ledgerAll_app in Hl.
        exact Hl.
    + rewrite segments_app_fst. fold r. rewrite ledgerAll_app.
      cbn [fst snd]. fold sp1 out1.
      split; [now rewrite IH1 | exact IH2].
Qed.

(** C1 as stated fails, at four inputs.  With an escape sequence split
    between two chunks its tail stays in the text and the filter rejects
    the sentence; a tag longer than the 2000 code units kept between chunks
    is lost when it is split; a sentence evicted from the full spoken set at
    a chunk boundary is recorded again; and with the opening marker split
    after its second code unit the sentence is lost.  In one chunk each of
    the four texts gives its sentences once. *)
Lemma chunking_changes_segments :
  (accepted (snd (feed listening splitInEscape)) = []
   /\ accepted (snd (feed listening [concat splitInEscape])) =
      [js "Hello world."])
  /\ (accepted (snd (feed listening splitLongTag)) = []
      /\ accepted (snd (feed listening [concat splitLongTag])) =
         [repeat 97%N 2100])
  /\ (accepted (snd (feed fullSet newThenOld)) =
      [js "New sentence."; js "Old sentence."]
      /\ accepted (snd (feed fullSet [concat newThenOld])) =
         [js "New sentence."])
  /\ (accepted (snd (feed listening splitInOpen)) = []
      /\ accepted (snd (feed listening [concat splitInOpen])) =
         [js "Hello world."]).
Proof. vm_compute. repeat split. Qed.

(** Each of the four inputs breaks one condition only: the first the
    stripping chunk by chunk, the second and the fourth the buffer (what
    the handler drops at the chunk boundary holds the beginning of a
    marker), the third the spoken set (it is cut at the chunk boundary). *)
Lemma one_condition_each :
  (stripAnsi (concat splitInEscape) <>
     concat (map stripAnsi splitInEscape)
   /\ losesMarker (snd (segments (seenText listening splitInEscape 1)))
                  (laterText splitInEscape 1) = false)
  /\ (stripAnsi (concat splitLongTag) = concat (map stripAnsi splitLongTag)
      /\ losesMarker (snd (segments (seenText listening splitLongTag 1)))
                     (laterText splitLongTag 1) = true)
  /\ (stripAnsi (concat newThenOld) = concat (map stripAnsi newThenOld)
      /\ losesMarker (snd (segments (seenText fullSet newThenOld 1)))
                     (laterText newThenOld 1) = false
      /\ length (recordedBy fullSet (seenText fullSet newThenOld 1)) = 1001)
  /\ (stripAnsi (concat splitInOpen) = concat (map stripAnsi splitInOpen)
      /\ losesMarker (snd (segments (seenText listening splitInOpen 1)))
                     (laterText splitInOpen 1) = true).
Proof.
  split; [split; [intros H; vm_compute in H; discriminate H|]|];
    vm_compute; repeat split.
Qed.

(** C1, amended: from any state, a text cut into one or more chunks gives
    the same recorded segments, the same calls of [speakText] and the same
    spoken set as the text in one chunk, provided that stripping the chunks
    one by one gives the stripped text, that at no inner chunk boundary the
    first four code units of an opening marker begin in the text the
    handler drops there (the text left after the last complete tag when it
    holds no such four code units, what is in front of its last 2000 code
    units otherwise), and that at no inner chunk boundary the spoken set
    holds more than 1000 entries. *)
Theorem chunking_invariant (st : Term) (chunks : list str) :
  chunks <> [] ->
  stripAnsi (concat chunks) = concat (map stripAnsi chunks) ->
  (forall k, 0 < k < length chunks ->
             losesMarker (snd (segments (seenText st chunks k)))
                         (laterText chunks k) = false
             /\ length (recordedBy st (seenText st chunks k)) <= 1000) ->
  snd (feed st chunks) = snd (feed st [concat chunks])
  /\ spokenContent (fst (feed st chunks)) =
     spokenContent (fst (feed st [concat chunks])).
Proof.
  intros Hne Hs H.
  destruct chunks as [|c cs]; [congruence|].
  assert (E1 : forall T : str,
             seenText st [T] 1 = ttsBuffer st ++ stripAnsi T).
  { intros T. unfold seenText. simpl. now rewrite app_nil_r. }
  assert (E2 : forall l : list str,
             l = c :: cs ->
             seenText st l (length l) =
             ttsBuffer st ++ stripAnsi (concat (c :: cs))).
  { intros l ->. unfold seenText. now rewrite firstn_all, Hs. }
  destruct (feed_stages [] (concat (c :: cs)) st) as [R1 R2].
  { intros k Hk. simpl in Hk. lia. }
  destruct (feed_stages cs c st H) as [L1 L2].
  rewrite L1, L2, R1, R2. cbn [length]. rewrite E1.
  change (S (length cs)) with (length (c :: cs)).
  rewrite E2 by reflexivity. now split.
Qed.

Lemma chunking_invariant_witness :
  snd (feed listening splitInMarkers)
    = snd (feed listening [concat splitInMarkers])
  /\ spokenContent (fst (feed listening splitInMarkers)) =
     spokenContent (fst (feed listening [concat splitInMarkers])).
Proof.
  apply (chunking_invariant listening splitInMarkers).
  - discriminate.
  - vm_compute. reflexivity.
  - intros k Hk. simpl in Hk.
    assert (Ek : k = 1 \/ k = 2 \/ k = 3 \/ k = 4) by lia.
    destruct Ek as [-> | [-> | [-> | ->]]];
      (split; [vm_compute; reflexivity|]);
      apply Nat.leb_le; vm_compute; reflexivity.
Defined.

(** ** Stripping text without control characters *)

Lemma replaceFrom_id (m : str -> option nat) (rep : str) (P : N -> Prop) :
  m [] = None ->
  (forall c s, P c -> m (c :: s) = None) ->
  forall s, Forall P s -> replaceFrom m rep 0 s = s.
Proof.
  intros Hnil Hcons. induction 1 as [|c s Hc Hs IH]; simpl.
  - now rewrite Hnil.
  - change (match s with [] => _ | _ => _ end) with (replaceFrom m rep 0 s).
    rewrite (Hcons c s Hc). now rewrite IH.
Qed.

Lemma not_control_ESC (c : N) : isControl c = false -> N.eqb 27 c = false.
Proof.
  intros H. apply N.eqb_neq. intros <-. discriminate H.
Qed.

Ltac head_is_not_ESC :=
  let c := fresh "c" in
  let r := fresh "r" in
  let Hc := fresh "Hc" in
  intros c r Hc; apply not_control_ESC in Hc;
  destruct r as [|? [|? ?]]; cbv beta iota; rewrite ?Hc; reflexivity.

Lemma stripAnsi_controlFree (s : str) : controlFree s -> stripAnsi s = s.
Proof.
  intros H. unfold stripAnsi, replaceAll.
  rewrite (replaceFrom_id reCSI [] (fun c => isControl c = false));
    [| reflexivity | unfold reCSI; head_is_not_ESC | exact H].
  rewrite (replaceFrom_id reOSC [] (fun c => isControl c = false));
    [| reflexivity | unfold reOSC; head_is_not_ESC | exact H].
  rewrite (replaceFrom_id rePrivate [] (fun c => isControl c = false));
    [| reflexivity | unfold rePrivate; head_is_not_ESC | exact H].
  rewrite (replaceFrom_id reStringSeq [] (fun c => isControl c = false));
    [| reflexivity | unfold reStringSeq; head_is_not_ESC | exact H].
  apply (replaceFrom_id reControl [] (fun c => isControl c = false));
    [reflexivity | | exact H].
  intros c s' Hc. simpl. now rewrite Hc.
Qed.

(** ** A sentence split between two chunks *)

Lemma startsWith_head (p c : N) (pat s : str) :
  c <> p -> startsWith (p :: pat) (c :: s) = false.
Proof.
  intros H. simpl. destruct (N.eqb_spec p c); [congruence | reflexivity].
Qed.

Lemma cut_absent (p : N) (pat : str) :
  forall s, ~ In p s -> cut (p :: pat) s = None.
Proof.
  induction s as [|c s IH]; intros H; [reflexivity|].
  rewrite cut_unfold, startsWith_head by (intros ->; apply H; now left).
  rewrite IH; [reflexivity|]. intros Hin. apply H. now right.
Qed.

Lemma cut_first (p : N) (pat a : str) :
  forall pre, ~ In p pre ->
  cut (p :: pat) (pre ++ (p :: pat) ++ a) = Some (pre, a).
Proof.
  induction pre as [|c pre IH]; intros H.
  - rewrite cut_unfold.
    assert (E : startsWith (p :: pat) ([] ++ (p :: pat) ++ a) = true)
      by (apply startsWith_app; now exists a).
    rewrite E. change ([] ++ (p :: pat) ++ a) with ((p :: pat) ++ a).
    now rewrite skipn_app_exact.
  - change ((c :: pre) ++ (p :: pat) ++ a)
      with (c :: (pre ++ (p :: pat) ++ a)).
    rewrite cut_unfold, startsWith_head by (intros ->; apply H; now left).
    cbv beta iota.
    rewrite IH; [reflexivity|]. intros Hin. apply H. now right.
Qed.

Lemma plain_controlFree (s : str) : plain s -> controlFree s.
Proof. unfold plain, controlFree. apply Forall_impl. tauto. Qed.

Lemma plain_no_guillemet (s : str) : plain s -> ~ In 171%N s.
Proof.
  unfold plain. rewrite Forall_forall. intros H Hin.
  destruct (H _ Hin) as [_ Hn]. congruence.
Qed.

Lemma plain_app (a b : str) : plain a -> plain b -> plain (a ++ b).
Proof. unfold plain. intros. apply Forall_app. now split. Qed.

Lemma plain_skipn (n : nat) (s : str) : plain s -> plain (skipn n s).
Proof.
  unfold plain. intros H. rewrite <- (firstn_skipn n s) in H.
  apply Forall_app in H. tauto.
Qed.

(** The cap keeps a tail of at most 2000 code units whole. *)
Lemma capBuffer_tail (pre tail : str) :
  length tail <= 2000 ->
  exists n, capBuffer (pre ++ tail) = skipn n pre ++ tail.
Proof.
  intros L. unfold capBuffer.
  destruct (Nat.ltb 2000 (length (pre ++ tail))) eqn:E.
  - apply Nat.ltb_lt in E. rewrite length_app in *.
    exists (length pre + length tail - 2000).
    apply skipn_app_le. lia.
  - now exists 0.
Qed.

Lemma segments_no_open (s : str) :
  ~ In 171%N s -> segments s = ([], s).
Proof.
  intros H. rewrite segments_unfold. unfold tagExec, OPEN.
  now rewrite cut_absent.
Qed.

Lemma trimSpoken_has (x : str) (sp : list str) :
  has x sp = false -> has x (trimSpoken sp) = false.
Proof.
  rewrite !has_false. intros H Hin. apply H.
  unfold trimSpoken, sliceLast in Hin.
  destruct (Nat.ltb 1000 (length sp)); [|exact Hin].
  rewrite <- (firstn_skipn (length sp - 500) sp).
  apply in_or_app. now right.
Qed.

(** C2: with a plain text in front and a plain text behind, the chunk
    that ends with the opening marker and [Hello wo] yields no segment,
    and the next chunk, which begins with [rld.] and the closing marker,
    yields exactly one segment, [Hello world.]; the handler records it
    (unless it is in the spoken set already). *)
Theorem segment_across_chunks (st : Term) (pre post : str) :
  ttsBuffer st = [] -> plain pre -> plain post ->
  fst (segments (ttsBuffer st ++ stripAnsi (pre ++ OPEN ++ js "Hello wo"))) = []
  /\ snd (onPtyData st (pre ++ OPEN ++ js "Hello wo")) = []
  /\ fst (segments
            (ttsBuffer (fst (onPtyData st (pre ++ OPEN ++ js "Hello wo")))
             ++ stripAnsi (js "rld." ++ CLOSE ++ post)))
     = [js "Hello world."]
  /\ (has (js "Hello world.") (spokenContent st) = false ->
      snd (onPtyData (fst (onPtyData st (pre ++ OPEN ++ js "Hello wo")))
                     (js "rld." ++ CLOSE ++ post))
      = [(js "Hello world.", gatesOpen st)]).
Proof.
  intros Hb Hpre Hpost.
  assert (P1 : plain (js "Hello wo")) by (repeat constructor; discriminate).
  assert (P2 : plain (js "Hello world.")) by (repeat constructor; discriminate).
  assert (C1 : controlFree (pre ++ OPEN ++ js "Hello wo")).
  { apply Forall_app. split; [now apply plain_controlFree|].
    repeat constructor. }
  assert (C2 : controlFree (js "rld." ++ CLOSE ++ post)).
  { apply Forall_app. split; [repeat constructor|].
    apply Forall_app.
    split; [repeat constructor | now apply plain_controlFree]. }
  destruct st as [b sp sm en ac]. simpl in Hb. subst b.
  rewrite !onPtyData_stages. cbn zeta.
  cbn [fst snd ttsBuffer spokenContent].
  rewrite (stripAnsi_controlFree _ C1), (stripAnsi_controlFree _ C2).
  rewrite !app_nil_l.
  (* the first chunk holds an opening marker and no closing marker *)
  assert (S1 : segments (pre ++ OPEN ++ js "Hello wo") =
               ([], pre ++ OPEN ++ js "Hello wo")).
  { rewrite segments_unfold. unfold tagExec.
    unfold OPEN at 1. rewrite cut_first by now apply plain_no_guillemet.
    unfold CLOSE. rewrite cut_absent by now apply plain_no_guillemet.
    reflexivity. }
  rewrite S1. cbn [fst snd ledgerAll].
  (* the buffer kept: the end of the chunk from the marker on *)
  assert (K : clearIfNoMarker (pre ++ OPEN ++ js "Hello wo") =
              pre ++ OPEN ++ js "Hello wo").
  { unfold clearIfNoMarker.
    replace (includes OPEN_HEAD (pre ++ OPEN ++ js "Hello wo")) with true;
      [reflexivity|].
    symmetry. apply includes_app. now exists pre, (187%N :: js "Hello wo"). }
  rewrite K.
  destruct (capBuffer_tail pre (OPEN ++ js "Hello wo")) as [n Hn];
    [simpl; lia|].
  rewrite Hn.
  (* the second chunk closes the tag *)
  assert (S2 : segments ((skipn n pre ++ OPEN ++ js "Hello wo")
                         ++ js "rld." ++ CLOSE ++ post) =
               ([js "Hello world."], post)).
  { rewrite segments_unfold. unfold tagExec.
    replace ((skipn n pre ++ OPEN ++ js "Hello wo")
             ++ js "rld." ++ CLOSE ++ post)
      with (skipn n pre ++ OPEN ++ (js "Hello world." ++ CLOSE ++ post))
      by (rewrite <- !app_assoc; reflexivity).
    unfold OPEN at 1.
    rewrite cut_first by (apply plain_no_guillemet; now apply plain_skipn).
    unfold CLOSE at 1. rewrite cut_first by now apply plain_no_guillemet.
    rewrite (segments_no_open post) by now apply plain_no_guillemet.
    reflexivity. }
  rewrite S2. cbn [fst snd].
  split; [reflexivity | split; [reflexivity | split; [reflexivity|]]].
  cbn [spokenContent]. intros Hh. apply trimSpoken_has in Hh.
  unfold ledgerAll, ledger.
  replace (looksLikeProse (js "Hello world.")) with true by reflexivity.
  rewrite Hh. reflexivity.
Qed.

Lemma segment_across_chunks_witness :
  snd (onPtyData listening (js "..." ++ OPEN ++ js "Hello wo")) = []
  /\ snd (onPtyData
            (fst (onPtyData listening (js "..." ++ OPEN ++ js "Hello wo")))
            (js "rld." ++ CLOSE ++ js "..."))
     = [(js "Hello world.", true)].
Proof.
  destruct (segment_across_chunks listening (js "...") (js "..."))
    as [_ [H2 [_ H4]]].
  - reflexivity.
  - repeat constructor; discriminate.
  - repeat constructor; discriminate.
  - split; [exact H2 | apply H4; reflexivity].
Defined.

(** ** The enqueue filter *)

Lemma replaceFrom_Forall (m : str -> option nat) (rep : str) (P : N -> Prop) :
  Forall P rep ->
  (forall s, m s <> Some 0) ->
  (forall c s, m (c :: s) = None -> P c) ->
  forall s k, Forall P (replaceFrom m rep k s).
Proof.
  intros Hrep Hpos Hnone. induction s as [|c s IH]; intros k; simpl.
  - destruct (m []); [assumption | constructor].
  - destruct k as [|k]; [|apply IH].
    destruct (m (c :: s)) as [[|n]|] eqn:E.
    + now apply Hpos in E.
    + apply Forall_app. split; [assumption | apply IH].
    + constructor; [now apply (Hnone c s) | apply IH].
Qed.

Lemma dropWhile_Forall (P : N -> Prop) (p : N -> bool) (s : str) :
  Forall P s -> Forall P (dropWhile p s).
Proof.
  induction 1 as [|c s Hc Hs IH]; simpl; [constructor|].
  destruct (p c); [assumption | now constructor].
Qed.

Lemma trim_Forall (P : N -> Prop) (s : str) : Forall P s -> Forall P (trim s).
Proof.
  intros H. unfold trim.
  apply Forall_rev, dropWhile_Forall, Forall_rev, dropWhile_Forall, H.
Qed.

Lemma reSpaces_positive (s : str) : reSpaces s <> Some 0.
Proof.
  unfold reSpaces. destruct (takeWhile isSpace s); simpl; congruence.
Qed.

Lemma reSpaces_none (c : N) (s : str) :
  reSpaces (c :: s) = None -> isSpace c = false.
Proof.
  unfold reSpaces. simpl. destruct (isSpace c); [discriminate | reflexivity].
Qed.

(** The cleaned text holds no white space but single spaces. *)
Lemma cleanText_spaces (text : str) :
  Forall (fun c => c = 32%N \/ isSpace c = false) (cleanText text).
Proof.
  unfold cleanText, replaceAll. apply trim_Forall, replaceFrom_Forall.
  - constructor; [now left | constructor].
  - apply reSpaces_positive.
  - intros c s H. right. now apply reSpaces_none in H.
Qed.

Lemma nextText_cons (t : str) (q : list str) :
  t <> [] -> nextText (t :: q) = (Some t, q).
Proof. destruct t; [congruence | reflexivity]. Qed.

Lemma speakText_accepts (o : Orch) (text : str) :
  enabledRef o = true -> 3 <= length (cleanText text) ->
  speakText o text = processQueue (push o (cleanText text)).
Proof.
  intros He Hl. unfold speakText. rewrite He. simpl.
  apply Nat.ltb_ge in Hl. now rewrite Hl.
Qed.

(** From the idle state with an empty queue an accepted text goes to the
    synthesis at once. *)
Lemma speakText_idle (o : Orch) (text : str) :
  enabledRef o = true -> 3 <= length (cleanText text) ->
  isProcessing o = false -> speakQueue o = [] ->
  speakText o text =
  mkOrch [] true true (audioRef o) (enabledRef o)
         (loops o ++ [AwaitSynth (nextReq o) (cleanText text)])
         (S (nextReq o)) (nextAudio o)
         (trace o ++ [SynthCall (nextReq o) (cleanText text)]).
Proof.
  intros He Hl Hp Hq. rewrite (speakText_accepts o text He Hl).
  unfold processQueue, loopHead, push. simpl. rewrite Hp, Hq. simpl.
  destruct (cleanText text) as [|c r] eqn:E; [simpl in Hl; lia|].
  reflexivity.
Qed.

(** ** Failures in the processing loop *)

Lemma synthSettled_unplayable (o : Orch) (req : nat) (r : Settled)
      (text : str) (others : list Wait) :
  takeLoop (waitsSynth req) (loops o) = Some (AwaitSynth req text, others) ->
  unplayable r = true ->
  synthSettled o req r = loopHead (emit (withLoops o others) (logOf r)).
Proof.
  intros Ht Hu. unfold synthSettled. rewrite Ht.
  unfold unplayable in Hu. unfold logOf.
  destruct (playable r) as [d|] eqn:Ep; [|reflexivity].
  apply negb_true_iff in Hu. rewrite Hu.
  replace (logsError r) with true; [reflexivity|].
  unfold playable in Ep. unfold logsError.
  destruct r as [[r|]|]; try discriminate.
  destruct (success r && truthy (audioData r))%bool; [|discriminate].
  rewrite Ep. now rewrite Hu.
Qed.

Lemma loopHead_next (o : Orch) (t : str) (q : list str) :
  speakQueue o = t :: q -> t <> [] ->
  loopHead o =
  mkOrch q (isProcessing o) (isSpeaking o) (audioRef o) (enabledRef o)
         (loops o ++ [AwaitSynth (nextReq o) t]) (S (nextReq o))
         (nextAudio o) (trace o ++ [SynthCall (nextReq o) t]).
Proof.
  intros Hq Ht. unfold loopHead. rewrite Hq, (nextText_cons t q Ht).
  reflexivity.
Qed.

Lemma loopHead_done (o : Orch) :
  speakQueue o = [] ->
  loopHead o =
  mkOrch [] false false (audioRef o) (enabledRef o) (loops o) (nextReq o)
         (nextAudio o) (trace o).
Proof. intros Hq. unfold loopHead. now rewrite Hq. Qed.

Lemma synthCalls_app (a b : list Action) :
  synthCalls (a ++ b) = synthCalls a ++ synthCalls b.
Proof.
  induction a as [|x a IH]; simpl; [reflexivity|].
  destruct x; simpl; now rewrite IH.
Qed.

Lemma synthCalls_logOf (r : Settled) : synthCalls (logOf r) = [].
Proof. unfold logOf. now destruct (logsError r). Qed.

Lemma run_cons (o : Orch) (e : Event) (es : list Event) :
  run o (e :: es) = run (step o e) es.
Proof. reflexivity. Qed.




(** ** Stopping *)

(** C5 as stated fails: a stop in the middle of a playback leaves the
    loop suspended on its audio wait, which nothing resolves; and a
    synthesis call in flight at the stop that then succeeds is played. *)
Lemma stop_leaves_loop_suspended :
  loops (run initial (oneText ++ [SynthSettled 0 okResult])) = [AwaitAudio 0]
  /\ loops (stopSpeaking (run initial (oneText ++ [SynthSettled 0 okResult])))
     = [AwaitAudio 0]
  /\ trace (run initial (oneText ++ [StopSpeaking; SynthSettled 0 okResult]))
     = [SynthCall 0 (js "Hello world."); StopSynth;
        PlayStart 0 (js "Hello world.")]
  /\ audioRef (run initial
                  (oneText ++ [StopSpeaking; SynthSettled 0 okResult]))
     = Some 0.
Proof. vm_compute. repeat split. Qed.

(** C5, amended: in any state [stopSpeaking] pauses the audio of
    [audioRef] if there is one, sends the stop to the synthesis, empties the
    queue, clears [audioRef] and resets both flags, and leaves the suspended
    loops as they are; a second stop changes no ref; an enqueue accepted
    after it starts a processing cycle with a synthesis call for its
    text. *)
Theorem stop_resets (o : Orch) :
  speakQueue (stopSpeaking o) = []
  /\ audioRef (stopSpeaking o) = None
  /\ isProcessing (stopSpeaking o) = false
  /\ isSpeaking (stopSpeaking o) = false
  /\ loops (stopSpeaking o) = loops o
  /\ trace (stopSpeaking o) =
     trace o
     ++ match audioRef o with Some a => [PauseAudio a] | None => [] end
     ++ [StopSynth]
  /\ refs (stopSpeaking (stopSpeaking o)) = refs (stopSpeaking o)
  /\ loops (stopSpeaking (stopSpeaking o)) = loops (stopSpeaking o)
  /\ (forall text,
         enabledRef o = true -> 3 <= length (cleanText text) ->
         let o2 := speakText (stopSpeaking o) text in
         isProcessing o2 = true
         /\ speakQueue o2 = []
         /\ loops o2 = loops o ++ [AwaitSynth (nextReq o) (cleanText text)]
         /\ trace o2 =
            trace (stopSpeaking o) ++ [SynthCall (nextReq o) (cleanText text)]).
Proof.
  repeat (split; [reflexivity|]).
  intros text He Hl.
  rewrite (speakText_idle (stopSpeaking o) text He Hl eq_refl eq_refl).
  simpl. repeat split.
Qed.

Lemma stop_resets_witness :
  trace (speakText (stopSpeaking (run initial oneText)) (js "Next one")) =
  [SynthCall 0 (js "Hello world."); StopSynth; SynthCall 1 (js "Next one")].
Proof.
  destruct (stop_resets (run initial oneText))
    as [_ [_ [_ [_ [_ [_ [_ [_ H]]]]]]]].
  destruct (H (js "Next one")) as [_ [_ [_ E]]];
    [reflexivity | vm_compute; lia |].
  exact E.
Defined.

(** ** The processing guard *)

(** C8 fails on the code: [stopSpeaking] resets [isProcessingRef] while the
    loop is still suspended on its call, so the next enqueue passes the
    guard and a second loop runs beside the first; the texts enqueued after
    the stop are then synthesised at the same time and their audios
    overlap. *)
Theorem second_loop_after_stop :
  loops (run initial twoClicks) =
    [AwaitSynth 0 (js "first text"); AwaitSynth 1 (js "second text")]
  /\ speakQueue (run initial twoClicks) = [js "third text"]
  /\ loops (run initial (twoClicks ++ [SynthSettled 0 killedResult])) =
     [AwaitSynth 1 (js "second text"); AwaitSynth 2 (js "third text")]
  /\ loops (run initial (twoClicks ++ [SynthSettled 0 killedResult;
                                       SynthSettled 2 okResult;
                                       SynthSettled 1 okResult])) =
     [AwaitAudio 0; AwaitAudio 1]
  /\ trace (run initial (twoClicks ++ [SynthSettled 0 killedResult;
                                       SynthSettled 2 okResult;
                                       SynthSettled 1 okResult])) =
     [SynthCall 0 (js "first text"); StopSynth; StopSynth;
      SynthCall 1 (js "second text"); LogError;
      SynthCall 2 (js "third text");
      PlayStart 0 (js "third text"); PlayStart 1 (js "second text")].
Proof. vm_compute. repeat split. Qed.

(** ** The guard without stops *)

Lemma nextText_rest_none (q : list str) :
  fst (nextText q) = None -> snd (nextText q) = [].
Proof.
  induction q as [|t q IH]; simpl; [trivial|].
  destruct t; [exact IH | discriminate].
Qed.

(** The queue splits into the empty texts skipped, the text taken and the
    rest: nothing is reordered. *)
Lemma nextText_calls (q : list str) :
  filter (fun t => negb (str_eqb t [])) q =
  match fst (nextText q) with Some t => [t] | None => [] end
  ++ filter (fun t => negb (str_eqb t [])) (snd (nextText q)).
Proof.
  induction q as [|t q IH]; simpl; [reflexivity|].
  destruct t as [|c t]; simpl; [exact IH | reflexivity].
Qed.

Lemma loopHead_oneLoop (o : Orch) :
  isProcessing o = true -> loops o = [] -> oneLoop (loopHead o).
Proof.
  intros Hp Hl. unfold loopHead.
  destruct (nextText (speakQueue o)) as [[t|] q'] eqn:E.
  - left. simpl. rewrite Hl. split; [exact Hp | now eexists].
  - right. simpl. repeat split; [exact Hl|].
    pose proof (nextText_rest_none (speakQueue o)) as H.
    rewrite E in H. now apply H.
Qed.

Lemma takeLoop_single (p : Wait -> bool) (w : Wait) :
  takeLoop p [w] = if p w then Some (w, []) else None.
Proof. simpl. now destruct (p w). Qed.

Lemma resolveAudio_oneLoop (o : Orch) (a : nat) :
  oneLoop o -> oneLoop (resolveAudio o a).
Proof.
  intros [[Hp [w Hl]] | [Hp [Hl Hq]]]; unfold resolveAudio; rewrite Hl.
  - rewrite takeLoop_single. destruct (waitsAudio a w).
    + now apply loopHead_oneLoop.
    + left. split; [exact Hp | now exists w].
  - simpl. right. tauto.
Qed.

Lemma step_oneLoop (o : Orch) (e : Event) :
  stopFree e = true -> oneLoop o -> oneLoop (step o e).
Proof.
  intros He Inv. destruct e as [text| |b|req r|a|a|a]; simpl in *;
    try discriminate.
  - (* speakText *)
    unfold speakText. destruct (negb (enabledRef o)); [exact Inv|].
    destruct (Nat.ltb (length (cleanText text)) 3) eqn:El; [exact Inv|].
    destruct Inv as [[Hp [w Hl]] | [Hp [Hl Hq]]].
    + unfold processQueue. simpl. rewrite Hp. simpl.
      left. simpl. split; [exact Hp | now exists w].
    + unfold processQueue. simpl. rewrite Hp, Hq. simpl.
      apply loopHead_oneLoop; [reflexivity | exact Hl].
  - (* setEnabled true *)
    destruct b; [|discriminate]. unfold setEnabled.
    destruct (Bool.eqb true (enabledRef o)); exact Inv.
  - (* a call settles *)
    unfold synthSettled.
    destruct Inv as [[Hp [w Hl]] | [Hp [Hl Hq]]]; rewrite Hl.
    + rewrite takeLoop_single.
      destruct (waitsSynth req w) eqn:Ew;
        [|left; split; [exact Hp | now exists w]].
      destruct w as [req' text|a]; [|discriminate].
      destruct (playable r) as [d|].
      * destruct (atobOk d).
        -- left. simpl. split; [exact Hp | now eexists].
        -- now apply loopHead_oneLoop.
      * now apply loopHead_oneLoop.
    + simpl. right. tauto.
  - unfold audioEnded. destruct (Nat.ltb a (nextAudio o)); [|exact Inv].
    apply resolveAudio_oneLoop. exact Inv.
  - unfold audioError. destruct (Nat.ltb a (nextAudio o)); [|exact Inv].
    apply resolveAudio_oneLoop. exact Inv.
  - unfold playRejected. destruct (Nat.ltb a (nextAudio o)); [|exact Inv].
    apply resolveAudio_oneLoop. exact Inv.
Qed.

(** Without a stop the guard holds: there is never more than one loop. *)
Lemma oneLoop_without_stop (es : list Event) :
  forall o, oneLoop o -> forallb stopFree es = true -> oneLoop (run o es).
Proof.
  induction es as [|e es IH]; intros o Inv H; [exact Inv|].
  simpl in H. apply andb_true_iff in H. destruct H as [He H].
  rewrite run_cons. apply IH; [now apply step_oneLoop | exact H].
Qed.

(** An enqueue while a loop is processing only appends to the queue. *)
Lemma speakText_processing (o : Orch) (text : str) :
  isProcessing o = true ->
  speakText o text = o \/ speakText o text = push o (cleanText text).
Proof.
  intros Hp. unfold speakText. destruct (negb (enabledRef o)); [now left|].
  destruct (Nat.ltb (length (cleanText text)) 3); [now left|].
  right. unfold processQueue. simpl. now rewrite Hp.
Qed.

Lemma loopHead_fifo (o : Orch) : fifo (loopHead o) = fifo o.
Proof.
  unfold fifo, loopHead. rewrite (nextText_calls (speakQueue o)).
  destruct (nextText (speakQueue o)) as [[t|] q']; simpl.
  - rewrite synthCalls_app. simpl. now rewrite <- app_assoc.
  - reflexivity.
Qed.

Lemma fifo_emit (o : Orch) (acts : list Action) :
  synthCalls acts = [] -> fifo (emit o acts) = fifo o.
Proof.
  intros H. unfold fifo, emit. simpl.
  now rewrite synthCalls_app, H, app_nil_r.
Qed.

Lemma resolveAudio_fifo (o : Orch) (a : nat) : fifo (resolveAudio o a) = fifo o.
Proof.
  unfold resolveAudio.
  destruct (takeLoop (waitsAudio a) (loops o)) as [[w others]|]; [|reflexivity].
  now rewrite loopHead_fifo.
Qed.

Lemma step_fifo (o : Orch) (e : Event) :
  stopFree e = true -> fifo (step o e) = fifo o ++ pushed o [e].
Proof.
  intros He. destruct e as [text| |b|req r|a|a|a]; simpl in *;
    try discriminate; rewrite ?app_nil_r.
  - (* speakText *)
    unfold speakText. destruct (enabledRef o); simpl; [|now rewrite app_nil_r].
    destruct (Nat.ltb (length (cleanText text)) 3) eqn:El; simpl;
      [now rewrite app_nil_r|].
    assert (Hpush : fifo (push o (cleanText text))
                    = fifo o ++ [cleanText text]).
    { unfold fifo, push. simpl. rewrite filter_app. simpl.
      apply Nat.ltb_ge in El.
      destruct (cleanText text) as [|c t]; [simpl in El; lia|].
      simpl. now rewrite app_assoc. }
    unfold processQueue.
    destruct (isProcessing (push o (cleanText text))
              || match speakQueue (push o (cleanText text)) with
                 | [] => true
                 | _ => false
                 end)%bool; [exact Hpush|].
    now rewrite loopHead_fifo.
  - destruct b; [|discriminate]. unfold setEnabled.
    destruct (Bool.eqb true (enabledRef o)); reflexivity.
  - unfold synthSettled.
    destruct (takeLoop (waitsSynth req) (loops o)) as [[[req' text|a] others]|];
      try reflexivity.
    destruct (playable r) as [d|].
    + destruct (atobOk d).
      * unfold fifo. simpl. rewrite synthCalls_app. simpl.
        now rewrite app_nil_r.
      * rewrite loopHead_fifo, fifo_emit; reflexivity.
    + rewrite loopHead_fifo, fifo_emit; [reflexivity|].
      apply synthCalls_logOf.
  - unfold audioEnded. destruct (Nat.ltb a (nextAudio o)); [|reflexivity].
    now rewrite resolveAudio_fifo.
  - unfold audioError. destruct (Nat.ltb a (nextAudio o)); [|reflexivity].
    rewrite resolveAudio_fifo. unfold fifo. simpl.
    rewrite synthCalls_app. simpl. now rewrite app_nil_r.
  - unfold playRejected. destruct (Nat.ltb a (nextAudio o)); [|reflexivity].
    rewrite resolveAudio_fifo, fifo_emit; reflexivity.
Qed.

(** Without a stop the texts go to the synthesis in the order of their
    enqueues: the calls made and the queue are, together, the texts pushed
    so far. *)
Lemma fifo_without_stop (es : list Event) :
  forall o, forallb stopFree es = true ->
            fifo (run o es) = fifo o ++ pushed o es.
Proof.
  induction es as [|e es IH]; intros o H.
  - simpl. now rewrite app_nil_r.
  - simpl in H. apply andb_true_iff in H. destruct H as [He H].
    rewrite run_cons, (IH _ H), (step_fifo o e He).
    simpl pushed. now rewrite app_nil_r, <- app_assoc.
Qed.

(** ** The cleaned text of a recorded segment *)

Lemma replaceFrom_skip (m : str -> option nat) (rep : str) (p : N -> bool) :
  forall s,
  replaceFrom m rep (length (takeWhile p s)) s =
  replaceFrom m rep 0 (dropWhile p s).
Proof.
  induction s as [|c s IH]; simpl; [reflexivity|].
  destruct (p c); simpl; [exact IH | reflexivity].
Qed.

(** White space collapses run by run. *)
Lemma collapse_cons (c : N) (s : str) :
  replaceAll reSpaces [32%N] (c :: s) =
  if isSpace c
  then 32%N :: replaceAll reSpaces [32%N] (dropWhile isSpace s)
  else c :: replaceAll reSpaces [32%N] s.
Proof.
  unfold replaceAll. cbn [replaceFrom]. unfold reSpaces at 1.
  cbn [takeWhile]. destruct (isSpace c).
  - cbn [length app]. now rewrite replaceFrom_skip.
  - reflexivity.
Qed.

Lemma dropWhile_ink (s : str) :
  hasInk s = true -> hasInk (dropWhile isSpace s) = true.
Proof.
  induction s as [|c s IH]; simpl; [trivial|].
  destruct (isSpace c) eqn:E; simpl.
  - exact IH.
  - now rewrite E.
Qed.

Lemma dropWhile_length (p : N -> bool) (s : str) :
  length (dropWhile p s) <= length s.
Proof.
  induction s as [|c s IH]; simpl; [lia|].
  destruct (p c); simpl; lia.
Qed.

Lemma collapse_ink (n : nat) :
  forall s, length s <= n -> hasInk s = true ->
            hasInk (replaceAll reSpaces [32%N] s) = true.
Proof.
  induction n as [|n IH]; intros s L H.
  - destruct s; [discriminate | simpl in L; lia].
  - destruct s as [|c s]; [discriminate|].
    rewrite collapse_cons. simpl in H, L.
    destruct (isSpace c) eqn:E; simpl in *.
    + apply IH; [|now apply dropWhile_ink].
      pose proof (dropWhile_length isSpace s). lia.
    + now rewrite E.
Qed.

Lemma dropWhile_app_ink (a b : str) :
  hasInk a = true -> dropWhile isSpace (a ++ b) = dropWhile isSpace a ++ b.
Proof.
  induction a as [|c a IH]; simpl; [discriminate|].
  destruct (isSpace c); simpl; [exact IH | reflexivity].
Qed.

Lemma hasInk_rev (s : str) : hasInk (rev s) = hasInk s.
Proof.
  unfold hasInk. apply eq_true_iff_eq. rewrite !existsb_exists.
  split; intros [x [Hx Hp]]; exists x; split; trivial;
    [now apply in_rev | now apply in_rev in Hx].
Qed.

Lemma dropWhile_ink_nonempty (s : str) :
  hasInk s = true -> dropWhile isSpace s <> [].
Proof.
  intros H E. apply dropWhile_ink in H. now rewrite E in H.
Qed.

(** Trimming the right end leaves a code unit in front of ink alone. *)
Lemma trimEnd_cons (x : N) (s : str) :
  hasInk s = true ->
  rev (dropWhile isSpace (rev (x :: s))) =
  x :: rev (dropWhile isSpace (rev s)).
Proof.
  intros H. simpl rev at 2.
  rewrite dropWhile_app_ink by now rewrite hasInk_rev.
  now rewrite rev_app_distr.
Qed.

Lemma trimEnd_ink_length (s : str) :
  hasInk s = true -> 1 <= length (rev (dropWhile isSpace (rev s))).
Proof.
  intros H. rewrite length_rev.
  rewrite <- hasInk_rev in H. apply dropWhile_ink_nonempty in H.
  destruct (dropWhile isSpace (rev s)); [congruence | simpl; lia].
Qed.

Lemma isAlpha_not_space (c : N) : isAlpha c = true -> isSpace c = false.
Proof.
  unfold isAlpha, isSpace, between. intros H.
  apply orb_true_iff in H.
  repeat rewrite orb_false_iff. repeat rewrite andb_false_iff.
  repeat rewrite N.leb_gt. repeat rewrite N.eqb_neq.
  repeat rewrite andb_true_iff in H. repeat rewrite N.leb_le in H.
  lia.
Qed.

Lemma dropWhile_head (p : N -> bool) (s : str) (h : N) (t : str) :
  dropWhile p s = h :: t -> p h = false.
Proof.
  induction s as [|c s IH]; simpl; [discriminate|].
  destruct (p c) eqn:E; [exact IH|].
  intros H. injection H as <- _. exact E.
Qed.

(** A trimmed text ends with ink: every non-empty suffix holds some. *)
Lemma trim_suffix_ink (inner a b : str) :
  trim inner = a ++ b -> b <> [] -> hasInk b = true.
Proof.
  unfold trim. intros E Hb.
  apply (f_equal (@rev N)) in E. rewrite rev_involutive, rev_app_distr in E.
  destruct (rev b) as [|h t] eqn:Er.
  - apply (f_equal (@rev N)) in Er. rewrite rev_involutive in Er. now subst b.
  - simpl in E. apply dropWhile_head in E.
    rewrite <- hasInk_rev, Er. simpl. now rewrite E.
Qed.

Lemma not_control_not_newline (c : N) :
  isControl c = false -> isNewline c = false.
Proof.
  unfold isControl, isNewline. intros H.
  apply orb_false_iff in H. destruct H as [H _]. apply N.leb_gt in H.
  apply orb_false_iff. rewrite !N.eqb_neq. lia.
Qed.

Lemma cleanText_controlFree (s : str) :
  controlFree s ->
  cleanText s = trim (replaceAll reSpaces [32%N] s).
Proof.
  intros H. unfold cleanText, replaceAll.
  rewrite (replaceFrom_id reCSI [] (fun c => isControl c = false));
    [| reflexivity | unfold reCSI; head_is_not_ESC | exact H].
  rewrite (replaceFrom_id reNewlines [32%N] (fun c => isControl c = false));
    [reflexivity | reflexivity | | exact H].
  intros c r Hc. unfold reNewlines. simpl.
  now rewrite (not_control_not_newline c Hc).
Qed.

(** The cleaned text of a segment the filter accepts is never too short
    for [speakText]. *)
Lemma cleanText_long_enough (inner : str) :
  controlFree inner -> looksLikeProse (trim inner) = true ->
  3 <= length (cleanText (trim inner)).
Proof.
  intros Hc Hp.
  rewrite cleanText_controlFree by now apply trim_Forall.
  unfold looksLikeProse in Hp.
  apply andb_true_iff in Hp. destruct Hp as [Hp _].
  apply andb_true_iff in Hp. destruct Hp as [Hl Ha].
  apply Nat.ltb_lt in Hl.
  destruct (trim inner) as [|c1 [|c2 rest]] eqn:E; try (simpl in Hl; lia).
  simpl in Ha. apply isAlpha_not_space in Ha.
  assert (Hr : hasInk rest = true).
  { apply (trim_suffix_ink inner [c1; c2] rest E).
    destruct rest; [simpl in Hl; lia | discriminate]. }
  rewrite collapse_cons, Ha, collapse_cons.
  unfold trim at 1.
  destruct (isSpace c2) eqn:E2.
  - set (Y := replaceAll reSpaces [32%N] (dropWhile isSpace rest)).
    assert (HY : hasInk Y = true).
    { apply (collapse_ink (length (dropWhile isSpace rest))); [lia|].
      now apply dropWhile_ink. }
    cbn [dropWhile]. rewrite Ha.
    rewrite trimEnd_cons by (simpl; now rewrite HY).
    rewrite trimEnd_cons by exact HY.
    pose proof (trimEnd_ink_length Y HY). simpl. lia.
  - set (Y := replaceAll reSpaces [32%N] rest).
    assert (HY : hasInk Y = true)
      by (apply (collapse_ink (length rest)); [lia | exact Hr]).
    cbn [dropWhile]. rewrite Ha.
    rewrite trimEnd_cons by (simpl; now rewrite E2).
    rewrite trimEnd_cons by exact HY.
    pose proof (trimEnd_ink_length Y HY). simpl. lia.
Qed.

(** ** Silent mode *)

Lemma stripAnsi_output (s : str) : controlFree (stripAnsi s).
Proof.
  unfold stripAnsi, replaceAll, controlFree. apply replaceFrom_Forall.
  - constructor.
  - intros [|c r]; simpl; [discriminate|]. now destruct (isControl c).
  - intros c r. simpl. now destruct (isControl c).
Qed.

Lemma segments_In (n : nat) :
  forall s c, length s <= n -> In c (fst (segments s)) ->
  exists inner a b, c = trim inner /\ s = a ++ inner ++ b.
Proof.
  induction n as [|n IH]; intros s c L; rewrite segments_unfold.
  - destruct s; [simpl; contradiction | simpl in L; lia].
  - destruct (tagExec s) as [[inner rest]|] eqn:E; [|simpl; contradiction].
    pose proof (tagExec_shorter _ _ _ E) as Hl.
    apply tagExec_parts in E. destruct E as [before E].
    specialize (IH rest c). destruct (segments rest) as [cs r]. simpl.
    intros [<- | Hin].
    + exists inner, (before ++ OPEN), (CLOSE ++ rest).
      split; [reflexivity|]. rewrite E. now rewrite <- !app_assoc.
    + destruct IH as [i [a [b [Hc Hs]]]]; [lia | exact Hin |].
      exists i, (before ++ OPEN ++ inner ++ CLOSE ++ a), b.
      split; [exact Hc|]. rewrite E, Hs. now rewrite <- !app_assoc.
Qed.

Lemma segments_controlFree (s c : str) :
  controlFree s -> In c (fst (segments s)) ->
  exists inner, c = trim inner /\ controlFree inner.
Proof.
  intros Hs Hin.
  destruct (segments_In (length s) s c (le_n _) Hin) as [i [a [b [Hc E]]]].
  exists i. split; [exact Hc|].
  unfold controlFree in *. rewrite E in Hs.
  apply Forall_app in Hs. destruct Hs as [_ Hs].
  apply Forall_app in Hs. tauto.
Qed.

Lemma onPtyData_buffer (st : Term) (data : str) :
  controlFree (ttsBuffer st) ->
  controlFree (ttsBuffer (fst (onPtyData st data))).
Proof.
  intros H. rewrite onPtyData_stages. cbn zeta. cbn [fst ttsBuffer].
  set (buf := ttsBuffer st ++ stripAnsi data).
  assert (Hb : controlFree buf)
    by (apply Forall_app; split; [exact H | apply stripAnsi_output]).
  destruct (segments_suffix (length buf) buf (le_n _)) as [pre E].
  assert (Hr : controlFree (snd (segments buf))).
  { unfold controlFree in *. rewrite E in Hb. apply Forall_app in Hb. tauto. }
  assert (Hc : controlFree (clearIfNoMarker (snd (segments buf)))).
  { unfold clearIfNoMarker. destruct (includes OPEN_HEAD _);
      [exact Hr | constructor]. }
  unfold capBuffer. destruct (Nat.ltb 2000 _); [|exact Hc].
  unfold controlFree in *.
  rewrite <- (firstn_skipn
                (length (clearIfNoMarker (snd (segments buf))) - 2000)) in Hc.
  apply Forall_app in Hc. tauto.
Qed.

Lemma onPtyData_flags (st : Term) (data : str) :
  silentMode (fst (onPtyData st data)) = silentMode st
  /\ voiceOutputEnabled (fst (onPtyData st data)) = voiceOutputEnabled st
  /\ isActive (fst (onPtyData st data)) = isActive st.
Proof. rewrite onPtyData_stages. now cbn. Qed.

Lemma feed_invariants (chunks : list str) :
  forall st,
  controlFree (ttsBuffer st) ->
  controlFree (ttsBuffer (fst (feed st chunks)))
  /\ silentMode (fst (feed st chunks)) = silentMode st
  /\ voiceOutputEnabled (fst (feed st chunks)) = voiceOutputEnabled st
  /\ isActive (fst (feed st chunks)) = isActive st.
Proof.
  induction chunks as [|c cs IH]; intros st H.
  - simpl. tauto.
  - rewrite feed_cons. cbn [fst].
    destruct (onPtyData_flags st c) as [F1 [F2 F3]].
    destruct (IH (fst (onPtyData st c)) (onPtyData_buffer st c H))
      as [G0 [G1 [G2 G3]]].
    rewrite G1, G2, G3, F1, F2, F3. tauto.
Qed.

Lemma gatesOpen_silent (st : Term) :
  silentMode st = true -> gatesOpen st = false.
Proof. unfold gatesOpen. intros ->. simpl. now rewrite andb_false_r. Qed.

Lemma speakCalls_app (a b : list Entry) :
  speakCalls (a ++ b) = speakCalls a ++ speakCalls b.
Proof. unfold speakCalls. now rewrite filter_app, map_app. Qed.

(** No call of [speakText] while the silent mode lasts. *)
Lemma feed_silent (chunks : list str) :
  forall st, silentMode st = true -> speakCalls (snd (feed st chunks)) = [].
Proof.
  induction chunks as [|c cs IH]; intros st H; [reflexivity|].
  rewrite feed_cons. cbn [snd]. rewrite speakCalls_app.
  rewrite IH by (destruct (onPtyData_flags st c) as [F _]; now rewrite F).
  rewrite onPtyData_stages. cbn zeta. cbn [snd].
  rewrite (gatesOpen_silent st H). now rewrite ledgerAll_closed.
Qed.

(** The replay adds the segments of each chunk of more than three code
    units to the set. *)
Lemma replayLoop_segments (fuel : nat) :
  forall rest sp,
  replayLoop fuel rest sp =
  fold_left replayStep (fst (segmentsFrom fuel rest)) sp.
Proof.
  induction fuel as [|fuel IH]; intros rest sp; simpl; [reflexivity|].
  destruct (tagExec rest) as [[inner rest']|]; [|reflexivity].
  rewrite IH. now destruct (segmentsFrom fuel rest').
Qed.

Lemma add_incl (c : str) (sp : list str) :
  incl sp (add c sp) /\ In c (add c sp).
Proof.
  unfold add. destruct (has c sp) eqn:E.
  - split; [apply incl_refl | now apply has_In].
  - split; [now apply incl_appl, incl_refl | apply in_or_app; right; now left].
Qed.

Lemma replayFold_incl (cs : list str) :
  forall sp,
  incl sp (fold_left replayStep cs sp).
Proof.
  induction cs as [|c cs IH]; intros sp; simpl; [apply incl_refl|].
  eapply incl_tran; [|apply IH].
  unfold replayStep.
  destruct (Nat.ltb 3 (length c)); [apply add_incl | apply incl_refl].
Qed.

Lemma replayFold_records (cs : list str) :
  forall sp c, In c cs -> 3 < length c ->
  In c (fold_left replayStep cs sp).
Proof.
  induction cs as [|c0 cs IH]; intros sp c Hin Hl; [contradiction|].
  simpl. destruct Hin as [-> | Hin].
  - apply replayFold_incl. unfold replayStep.
    apply Nat.ltb_lt in Hl. rewrite Hl. apply add_incl.
  - now apply IH.
Qed.

Lemma replayChunk_incl (sp : list str) (chunk : str) :
  incl sp (replayChunk sp chunk).
Proof.
  unfold replayChunk. rewrite replayLoop_segments. apply replayFold_incl.
Qed.

Lemma replay_incl (buffer : list str) :
  forall sp, incl sp (fold_left replayChunk buffer sp).
Proof.
  induction buffer as [|b bs IH]; intros sp; simpl; [apply incl_refl|].
  eapply incl_tran; [apply replayChunk_incl | apply IH].
Qed.

Lemma replay_records (buffer : list str) :
  forall sp chunk c,
  In chunk buffer -> In c (fst (segments (stripAnsi chunk))) -> 3 < length c ->
  In c (fold_left replayChunk buffer sp).
Proof.
  induction buffer as [|b bs IH]; intros sp chunk c Hin Hc Hl; [contradiction|].
  simpl. destruct Hin as [-> | Hin].
  - apply replay_incl. unfold replayChunk. rewrite replayLoop_segments.
    now apply replayFold_records.
  - now apply (IH _ chunk).
Qed.

Lemma looksLikeProse_length (c : str) : looksLikeProse c = true -> 5 < length c.
Proof.
  unfold looksLikeProse. intros H.
  apply andb_true_iff in H. destruct H as [H _].
  apply andb_true_iff in H. destruct H as [H _].
  now apply Nat.ltb_lt.
Qed.

Lemma session_invariants (enabled active : bool) (history live : list str) :
  controlFree (ttsBuffer (session enabled active history live))
  /\ silentMode (session enabled active history live) = true
  /\ voiceOutputEnabled (session enabled active history live) = enabled
  /\ isActive (session enabled active history live) = active.
Proof.
  unfold session.
  destruct (feed_invariants live (mount enabled active history))
    as [H0 [H1 [H2 H3]]]; [constructor|].
  rewrite H1, H2, H3. tauto.
Qed.

(** X30: in a session before any user input the silent mode is on, the
    handler calls [speakText] for no chunk, the replay has put every
    segment that lies within one buffered chunk and passes the filter into
    the spoken set, and every handler call puts the segments that pass the
    filter into the set; the first input through [terminal.onData] turns
    the silent mode off, a second one
    changes nothing, and the handler never changes the flag; after that,
    with voice output on and the tab active, a chunk that completes one new
    segment that passes the filter makes one call of [speakText], which
    from the idle provider is one call of the synthesis. *)
Theorem silent_until_first_input
        (enabled active : bool) (history live : list str) :
  silentMode (session enabled active history live) = true
  /\ speakCalls (snd (feed (mount enabled active history) live)) = []
  /\ (forall chunk c,
         In chunk history -> In c (fst (segments (stripAnsi chunk))) ->
         looksLikeProse c = true ->
         In c (spokenContent (mount enabled active history)))
  /\ (forall st data c,
         In c (fst (segments (ttsBuffer st ++ stripAnsi data))) ->
         looksLikeProse c = true ->
         In c (spokenContent (snd (fst (extractPhase st data))))
         /\ (silentMode st = true -> speakCalls (snd (onPtyData st data)) = []))
  /\ silentMode (onData (session enabled active history live)) = false
  /\ onData (onData (session enabled active history live)) =
     onData (session enabled active history live)
  /\ (forall st data, silentMode (fst (onPtyData st data)) = silentMode st)
  /\ (forall data content o,
         enabled = true -> active = true ->
         fst (segments (ttsBuffer (onData (session enabled active history live))
                        ++ stripAnsi data)) = [content] ->
         looksLikeProse content = true ->
         has content
             (spokenContent (onData (session enabled active history live)))
           = false ->
         enabledRef o = true -> isProcessing o = false -> speakQueue o = [] ->
         snd (onPtyData (onData (session enabled active history live)) data)
           = [(content, true)]
         /\ trace (deliver o (speakCalls
                     (snd (onPtyData
                             (onData (session enabled active history live))
                             data))))
            = trace o ++ [SynthCall (nextReq o) (cleanText content)]).
Proof.
  destruct (session_invariants enabled active history live)
    as [Hc [Hs [He Ha]]].
  split; [exact Hs|].
  split; [now apply feed_silent|].
  split.
  { intros chunk c Hin Hc' Hp. unfold mount. cbn [spokenContent].
    apply (replay_records history [] chunk c Hin Hc').
    apply looksLikeProse_length in Hp. lia. }
  split.
  { intros st data c Hin Hp. split.
    - rewrite extractPhase_stages. cbn zeta. cbn [fst snd].
      now apply ledgerAll_records.
    - intros Hsil. rewrite onPtyData_stages. cbn zeta. cbn [snd].
      rewrite (gatesOpen_silent st Hsil). apply ledgerAll_closed. }
  split; [unfold onData; now rewrite Hs|].
  split; [unfold onData; now rewrite Hs|].
  split; [intros st data; apply onPtyData_flags|].
  intros data content o -> -> Hseg Hp Hh Ho Hi Hq.
  set (st2 := onData (session true true history live)) in *.
  assert (E2 : st2 = mkTerm (ttsBuffer (session true true history live))
                            (spokenContent (session true true history live))
                            false true true).
  { unfold st2, onData. now rewrite Hs, He, Ha. }
  assert (Hlog : snd (onPtyData st2 data) = [(content, true)]).
  { rewrite onPtyData_stages. cbn zeta. cbn [snd]. rewrite Hseg.
    rewrite E2 in Hh |- *. cbn [spokenContent] in Hh |- *.
    unfold gatesOpen. cbn [voiceOutputEnabled isActive silentMode andb negb].
    unfold ledgerAll, ledger. rewrite Hp, Hh. reflexivity. }
  split; [exact Hlog|].
  rewrite Hlog. unfold speakCalls, deliver. cbn.
  assert (Hl : 3 <= length (cleanText content)).
  { assert (Hb : controlFree (ttsBuffer st2 ++ stripAnsi data)).
    { apply Forall_app. split; [|apply stripAnsi_output].
      rewrite E2. exact Hc. }
    destruct (segments_controlFree _ content Hb) as [inner [-> Hin]].
    - rewrite Hseg. now left.
    - now apply cleanText_long_enough. }
  now rewrite (speakText_idle o content Ho Hl Hi Hq).
Qed.

Lemma silent_until_first_input_witness :
  trace (deliver (setEnabled initial true)
           (speakCalls
              (snd (onPtyData
                      (onData (session true true
                                 [OPEN ++ js "Old message here" ++ CLOSE] []))
                      (OPEN ++ js "New message here" ++ CLOSE)))))
  = [SynthCall 0 (js "New message here")]
  /\ In (js "Old message here")
        (spokenContent (mount true true
                          [OPEN ++ js "Old message here" ++ CLOSE])).
Proof.
  destruct (silent_until_first_input true true
              [OPEN ++ js "Old message here" ++ CLOSE] [])
    as [_ [_ [H3 [_ [_ [_ [_ H8]]]]]]].
  split.
  - destruct (H8 (OPEN ++ js "New message here" ++ CLOSE)
                 (js "New message here") (setEnabled initial true))
      as [_ E]; [reflexivity .. | exact E].
  - apply (H3 (OPEN ++ js "Old message here" ++ CLOSE));
      [now left | vm_compute; now left | reflexivity].
Defined.

(** C3 fails on the replay: the mount effect looks for tags in each
    buffered chunk alone and carries nothing over to the next chunk.  The
    handler records a sentence that arrives in two chunks, silently before
    the first input; after a remount the replay of the same two chunks
    records nothing, where the replay of the text in one chunk records the
    sentence; so when the terminal prints the sentence again after the first
    input, it is taken for new and sent to the synthesis, which it is not
    after the replay of the one chunk. *)
Theorem replay_misses_split_tag :
  spokenContent (fst (feed (mount true true []) splitHistory)) =
    [js "Hello world."]
  /\ speakCalls (snd (feed (mount true true []) splitHistory)) = []
  /\ spokenContent (mount true true splitHistory) = []
  /\ spokenContent (mount true true [concat splitHistory]) =
     [js "Hello world."]
  /\ snd (onPtyData (onData (mount true true splitHistory)) sameSentence) =
     [(js "Hello world.", true)]
  /\ trace (deliver (setEnabled initial true)
              (speakCalls
                 (snd (onPtyData (onData (mount true true splitHistory))
                                 sameSentence)))) =
     [SynthCall 0 (js "Hello world.")]
  /\ snd (onPtyData (onData (mount true true [concat splitHistory]))
                    sameSentence) = [].
Proof. vm_compute. repeat split. Qed.

(** ** The matchers are the regular expressions of the source *)

Lemma matchK_Class (fuel whole : nat) (p : N -> bool) (s : str)
      (k : str -> option str) :
  matchK fuel whole (Class p) s k =
  match s with
  | c :: s' => if p c then k s' else None
  | [] => None
  end.
Proof. now destruct fuel. Qed.

Lemma matchK_Cat (fuel whole : nat) (a b : regex) (s : str)
      (k : str -> option str) :
  matchK fuel whole (Cat a b) s k =
  matchK fuel whole a s (fun s' => matchK fuel whole b s' k).
Proof. now destruct fuel. Qed.

Lemma matchK_Or (fuel whole : nat) (a b : regex) (s : str)
      (k : str -> option str) :
  matchK fuel whole (Or a b) s k =
  match matchK fuel whole a s k with
  | Some x => Some x
  | None => matchK fuel whole b s k
  end.
Proof. now destruct fuel. Qed.

Lemma matchK_Start (fuel whole : nat) (s : str) (k : str -> option str) :
  matchK fuel whole Start s k =
  if Nat.eqb (length s) whole then k s else None.
Proof. now destruct fuel. Qed.

Lemma matchK_lit (fuel whole : nat) (pat : str) :
  forall s k,
  matchK fuel whole (lit pat) s k =
  if startsWith pat s then k (skipn (length pat) s) else None.
Proof.
  induction pat as [|c pat IH]; intros s k.
  - now destruct fuel.
  - cbn [lit]. rewrite matchK_Cat, matchK_Class.
    destruct s as [|c' s]; [reflexivity|].
    cbn [startsWith length skipn].
    destruct (N.eqb c c'); [apply IH | reflexivity].
Qed.

Lemma matchK_star_class (whole : nat) (p : N -> bool) (k : str -> option str) :
  forall fuel s, length s < fuel ->
  matchK fuel whole (Star (Class p)) s k = greedyTry p k s.
Proof.
  induction fuel as [|fuel IH]; intros s L; [lia|].
  cbn [matchK]. destruct s as [|c s]; [reflexivity|].
  cbn [greedyTry length]. destruct (p c); [|reflexivity].
  assert (E : Nat.ltb (length s) (S (length s)) = true)
    by (apply Nat.ltb_lt; lia).
  rewrite E. rewrite IH by (simpl in L; lia). reflexivity.
Qed.

Lemma matchK_lazy_any (whole : nat) (k : str -> option str) :
  forall fuel s, length s < fuel ->
  matchK fuel whole (LazyStar (Class anyChar)) s k = lazyTry k s.
Proof.
  induction fuel as [|fuel IH]; intros s L; [lia|].
  cbn [matchK]. destruct s as [|c s].
  - simpl. now destruct (k []).
  - cbn [lazyTry length anyChar].
    destruct (k (c :: s)); [reflexivity|].
    assert (E : Nat.ltb (length s) (S (length s)) = true)
      by (apply Nat.ltb_lt; lia).
    rewrite E. apply IH. simpl in L. lia.
Qed.

(** When what follows the star cannot start with a code unit of the class,
    the star takes the whole run. *)
Lemma greedyTry_disjoint (p : N -> bool) (k : str -> option str) :
  (forall c s, p c = true -> k (c :: s) = None) ->
  forall s, greedyTry p k s = k (dropWhile p s).
Proof.
  intros D. induction s as [|c s IH]; simpl; [reflexivity|].
  destruct (p c) eqn:E; [|reflexivity].
  rewrite IH. destruct (k (dropWhile p s)) eqn:Ek; [reflexivity|].
  now apply D.
Qed.

(** At the end of the expression the star takes the whole run. *)
Lemma greedyTry_Some (p : N -> bool) :
  forall s, greedyTry p Some s = Some (dropWhile p s).
Proof.
  induction s as [|c s IH]; simpl; [reflexivity|].
  destruct (p c); [now rewrite IH | reflexivity].
Qed.

Lemma takeWhile_dropWhile (p : N -> bool) (s : str) :
  skipn (length (takeWhile p s)) s = dropWhile p s
  /\ length s = length (takeWhile p s) + length (dropWhile p s).
Proof.
  induction s as [|c s [IH1 IH2]]; simpl; [auto|].
  destruct (p c); simpl; [split; [exact IH1 | lia] | auto].
Qed.

Lemma digitSemi_not_alpha (c : N) : isDigitSemi c = true -> isAlpha c = false.
Proof.
  unfold isAlpha, isDigitSemi, between. intros H.
  apply orb_true_iff in H.
  repeat rewrite orb_false_iff. repeat rewrite andb_false_iff.
  repeat rewrite N.leb_gt.
  rewrite andb_true_iff, !N.leb_le, N.eqb_eq in H.
  lia.
Qed.

Ltac step_regex :=
  rewrite ?matchK_Cat, ?matchK_Class; cbv beta.

Lemma reCSI_regex (s : str) : reCSI s = matchLen rxCSI s.
Proof.
  unfold matchLen, matchAt, rxCSI, reCSI. step_regex.
  destruct s as [|c1 [|c2 r]]; [reflexivity | |].
  - step_regex. now destruct (N.eqb 27 c1).
  - destruct (N.eqb 27 c1); [|reflexivity]. step_regex.
    destruct (N.eqb 91 c2); [|reflexivity]. simpl andb. cbv iota. step_regex.
    rewrite matchK_star_class by (simpl; lia).
    rewrite greedyTry_disjoint
      by (intros c t Hc; rewrite matchK_Class;
          now rewrite (digitSemi_not_alpha c Hc)).
    rewrite matchK_Class.
    destruct (takeWhile_dropWhile isDigitSemi r) as [E1 E2].
    rewrite E1. destruct (dropWhile isDigitSemi r) as [|c t]; [reflexivity|].
    destruct (isAlpha c); [|reflexivity].
    f_equal. cbn [length] in *. lia.
Qed.

Lemma reOSC_regex (s : str) : reOSC s = matchLen rxOSC s.
Proof.
  unfold matchLen, matchAt, rxOSC, reOSC. step_regex.
  destruct s as [|c1 [|c2 r]]; [reflexivity | |].
  - step_regex. now destruct (N.eqb 27 c1).
  - destruct (N.eqb 27 c1); [|reflexivity]. step_regex.
    destruct (N.eqb 93 c2); [|reflexivity]. simpl andb. cbv iota. step_regex.
    rewrite matchK_star_class by (simpl; lia).
    rewrite greedyTry_disjoint
      by (intros c t Hc; rewrite matchK_Class; unfold notBEL in Hc;
          now apply negb_true_iff in Hc; rewrite Hc).
    rewrite matchK_Class.
    destruct (takeWhile_dropWhile notBEL r) as [E1 E2].
    rewrite E1. destruct (dropWhile notBEL r) as [|c t] eqn:Ed; [reflexivity|].
    apply dropWhile_head in Ed. unfold notBEL in Ed.
    apply negb_false_iff in Ed. rewrite Ed.
    f_equal. cbn [length] in *. lia.
Qed.

Lemma rePrivate_regex (s : str) : rePrivate s = matchLen rxPrivate s.
Proof.
  unfold matchLen, matchAt, rxPrivate, rePrivate. step_regex.
  destruct s as [|c1 [|c2 [|c3 r]]]; [reflexivity | | |].
  - step_regex. now destruct (N.eqb 27 c1).
  - step_regex. destruct (N.eqb 27 c1); [|reflexivity]. step_regex.
    now destruct (N.eqb 91 c2).
  - destruct (N.eqb 27 c1); [|reflexivity]. step_regex.
    destruct (N.eqb 91 c2); [|reflexivity]. step_regex.
    destruct (N.eqb 63 c3); [|reflexivity]. simpl andb. cbv iota. step_regex.
    rewrite matchK_star_class by (simpl; lia).
    rewrite greedyTry_disjoint
      by (intros c t Hc; rewrite matchK_Class;
          now rewrite (digitSemi_not_alpha c Hc)).
    rewrite matchK_Class.
    destruct (takeWhile_dropWhile isDigitSemi r) as [E1 E2].
    rewrite E1. destruct (dropWhile isDigitSemi r) as [|c t]; [reflexivity|].
    destruct (isAlpha c); [|reflexivity].
    f_equal. cbn [length] in *. lia.
Qed.

Lemma reStringSeq_regex (s : str) : reStringSeq s = matchLen rxStringSeq s.
Proof.
  unfold matchLen, matchAt, rxStringSeq, reStringSeq. step_regex.
  destruct s as [|c1 [|i r]]; [reflexivity | |].
  - step_regex. now destruct (N.eqb 27 c1).
  - destruct (N.eqb 27 c1); [|reflexivity]. step_regex.
    destruct (isStringIntro i); [|reflexivity]. simpl andb. cbv iota.
    step_regex.
    rewrite matchK_star_class by (simpl; lia).
    rewrite greedyTry_disjoint
      by (intros c t Hc; step_regex; unfold notESC in Hc;
          now apply negb_true_iff in Hc; rewrite Hc).
    step_regex.
    destruct (takeWhile_dropWhile notESC r) as [E1 E2].
    rewrite E1. destruct (dropWhile notESC r) as [|c t] eqn:Ed; [reflexivity|].
    apply dropWhile_head in Ed. unfold notESC in Ed.
    apply negb_false_iff in Ed. rewrite Ed. step_regex.
    destruct t as [|c' t]; [reflexivity|].
    destruct (N.eqb 92 c'); [|reflexivity].
    f_equal. cbn [length] in *. lia.
Qed.

Lemma reControl_regex (s : str) : reControl s = matchLen rxControl s.
Proof.
  unfold matchLen, matchAt, rxControl, reControl. rewrite matchK_Class.
  destruct s as [|c s]; [reflexivity|].
  destruct (isControl c); [|reflexivity].
  f_equal. cbn [length]. lia.
Qed.

Lemma plus_class_regex (p : N -> bool) (s : str) :
  matchLen (Plus (Class p)) s =
  match takeWhile p s with
  | [] => None
  | r => Some (length r)
  end.
Proof.
  unfold matchLen, matchAt, Plus. step_regex.
  destruct s as [|c s]; [reflexivity|].
  cbn [takeWhile]. destruct (p c); [|reflexivity].
  rewrite matchK_star_class by (simpl; lia).
  rewrite greedyTry_Some.
  destruct (takeWhile_dropWhile p s) as [_ E].
  f_equal. cbn [length] in *. lia.
Qed.

Lemma reNewlines_regex (s : str) : reNewlines s = matchLen rxNewlines s.
Proof. symmetry. apply plus_class_regex. Qed.

Lemma reSpaces_regex (s : str) : reSpaces s = matchLen rxSpaces s.
Proof. symmetry. apply plus_class_regex. Qed.

Lemma lazyTry_cut (pat : str) :
  forall s,
  lazyTry (fun s' => if startsWith pat s'
                     then Some (skipn (length pat) s') else None) s =
  match cut pat s with
  | Some (_, a) => Some a
  | None => None
  end.
Proof.
  induction s as [|c s IH]; rewrite cut_unfold; cbn [lazyTry].
  - now destruct (startsWith pat []).
  - destruct (startsWith pat (c :: s)); [reflexivity|].
    rewrite IH. now destruct (cut pat s) as [[b a]|].
Qed.

Lemma lazyTry_ext (k k' : str -> option str) :
  (forall s, k s = k' s) -> forall s, lazyTry k s = lazyTry k' s.
Proof.
  intros E. induction s as [|c s IH]; cbn [lazyTry]; rewrite E.
  - reflexivity.
  - now rewrite IH.
Qed.

(** A match of the tag expression at the head of a text. *)
Lemma matchAt_tag (whole : nat) (s : str) :
  matchAt whole rxTag s =
  if startsWith OPEN s
  then match cut CLOSE (skipn (length OPEN) s) with
       | Some (_, rest) => Some rest
       | None => None
       end
  else None.
Proof.
  unfold matchAt, rxTag. rewrite matchK_Cat, matchK_lit.
  destruct (startsWith OPEN s) eqn:E; [|reflexivity].
  rewrite matchK_Cat, matchK_lazy_any
    by (rewrite length_skipn; lia).
  rewrite <- lazyTry_cut. apply lazyTry_ext.
  intros x. apply matchK_lit.
Qed.

Lemma cut_found (pat : str) :
  forall b a, cut pat (b ++ pat ++ a) <> None.
Proof.
  induction b as [|c b IH]; intros a; rewrite cut_unfold.
  - replace (startsWith pat ([] ++ pat ++ a)) with true; [discriminate|].
    symmetry. apply startsWith_app. now exists a.
  - destruct (startsWith pat ((c :: b) ++ pat ++ a)); [discriminate|].
    simpl. specialize (IH a).
    destruct (cut pat (b ++ pat ++ a)) as [[x y]|]; [discriminate | congruence].
Qed.

Lemma cut_none_skipn (pat : str) (n : nat) (s : str) :
  cut pat s = None -> cut pat (skipn n s) = None.
Proof.
  intros H. destruct (cut pat (skipn n s)) as [[b a]|] eqn:E; [|reflexivity].
  apply cut_spec in E. exfalso.
  apply (cut_found pat (firstn n s ++ b) a).
  rewrite <- app_assoc, <- E, firstn_skipn. exact H.
Qed.

Lemma search_tag_none (whole : nat) :
  forall x,
  (forall j, length OPEN <= j -> cut CLOSE (skipn j x) = None) ->
  search whole rxTag x = None.
Proof.
  induction x as [|c x IH]; intros H; cbn [search]; rewrite matchAt_tag.
  - simpl. reflexivity.
  - rewrite (H (length OPEN) (le_n _)).
    destruct (startsWith OPEN (c :: x)); apply IH; intros j Hj;
      apply (H (S j)); lia.
Qed.

(** [tagExec] is the leftmost match of the tag expression, with its
    capture group. *)
Lemma tagExec_regex (whole : nat) :
  forall s,
  tagExec s =
  match search whole rxTag s with
  | Some (from, rest) => Some (tagGroup from rest, rest)
  | None => None
  end.
Proof.
  induction s as [|c s IH].
  - reflexivity.
  - unfold tagExec. rewrite cut_unfold. cbn [search]. rewrite matchAt_tag.
    destruct (startsWith OPEN (c :: s)) eqn:E.
    + destruct (cut CLOSE (skipn (length OPEN) (c :: s)))
        as [[inner rest]|] eqn:Ec.
      * f_equal. f_equal. unfold tagGroup.
        apply startsWith_app in E. destruct E as [t E].
        rewrite E in Ec |- *. rewrite skipn_app_exact in Ec |- *.
        apply cut_spec in Ec. subst t.
        rewrite !length_app.
        replace (length OPEN + (length inner + (length CLOSE + length rest))
                 - length rest - length OPEN - length CLOSE)
          with (length inner) by lia.
        rewrite firstn_app, firstn_all, Nat.sub_diag. simpl.
        now rewrite app_nil_r.
      * rewrite search_tag_none; [reflexivity|].
        intros j Hj.
        replace (skipn j s) with
          (skipn (S j - length OPEN) (skipn (length OPEN) (c :: s))).
        -- now apply cut_none_skipn.
        -- rewrite skipn_skipn.
           replace (S j - length OPEN + length OPEN) with (S j) by lia.
           reflexivity.
    + fold (tagExec s) in IH.
      destruct (cut OPEN s) as [[b s1]|] eqn:Eo.
      * rewrite <- IH. unfold tagExec. now rewrite Eo.
      * rewrite <- IH. unfold tagExec. now rewrite Eo.
Qed.

Lemma test_anywhere (r : regex) (whole : nat) :
  forall s,
  match search whole r s with Some _ => true | None => false end =
  anywhere (fun x => isSome (matchAt whole r x)) s.
Proof.
  induction s as [|c s IH]; cbn [search anywhere].
  - destruct (matchAt whole r []); reflexivity.
  - destruct (matchAt whole r (c :: s)); [reflexivity|]. exact IH.
Qed.

Lemma anywhere_ext (f g : str -> bool) :
  (forall x, f x = g x) -> forall s, anywhere f s = anywhere g s.
Proof.
  intros E. induction s as [|c s IH]; cbn [anywhere]; rewrite E.
  - reflexivity.
  - now rewrite IH.
Qed.

Lemma anywhere_or (f g : str -> bool) :
  forall s, anywhere (fun x => f x || g x)%bool s
            = (anywhere f s || anywhere g s)%bool.
Proof.
  induction s as [|c s IH]; cbn [anywhere].
  - now rewrite !orb_false_r.
  - rewrite IH.
    destruct (f (c :: s)), (g (c :: s)), (anywhere f s); reflexivity.
Qed.

Lemma isSome_Or (whole : nat) (a b : regex) (x : str) :
  isSome (matchAt whole (Or a b) x) =
  (isSome (matchAt whole a x) || isSome (matchAt whole b x))%bool.
Proof.
  unfold matchAt. rewrite matchK_Or.
  now destruct (matchK (S (length x)) whole a x Some).
Qed.

Lemma anywhere_class (whole : nat) (p : N -> bool) :
  forall s, anywhere (fun x => isSome (matchAt whole (Class p) x)) s
            = existsb p s.
Proof.
  induction s as [|c s IH]; cbn [anywhere existsb].
  - reflexivity.
  - rewrite IH. unfold matchAt at 1. rewrite matchK_Class.
    now destruct (p c).
Qed.

(** An expression that begins with [^] matches at the start only. *)
Lemma anywhere_below (whole : nat) (r : regex) :
  forall s, length s < whole ->
  anywhere (fun x => isSome (matchAt whole (Cat Start r) x)) s = false.
Proof.
  induction s as [|c s IH]; intros L; cbn [anywhere];
    unfold matchAt at 1; rewrite matchK_Cat, matchK_Start.
  - replace (Nat.eqb (length (@nil N)) whole) with false; [reflexivity|].
    symmetry. apply Nat.eqb_neq. lia.
  - replace (Nat.eqb (length (c :: s)) whole) with false.
    + apply IH. simpl in L. lia.
    + symmetry. apply Nat.eqb_neq. lia.
Qed.

Lemma anywhere_start (r : regex) (s : str) :
  anywhere (fun x => isSome (matchAt (length s) (Cat Start r) x)) s =
  isSome (matchAt (length s) r s).
Proof.
  destruct s as [|c s]; cbn [anywhere];
    unfold matchAt at 1; rewrite matchK_Cat, matchK_Start, Nat.eqb_refl.
  - now rewrite orb_false_r.
  - rewrite anywhere_below by (simpl; lia). now rewrite orb_false_r.
Qed.

Lemma space_then_lit (whole : nat) (p : N) (pat s : str) :
  isSpace p = false ->
  isSome (matchAt whole (Cat (Star (Class isSpace)) (lit (p :: pat))) s) =
  startsWith (p :: pat) (dropWhile isSpace s).
Proof.
  intros Hp. unfold matchAt.
  rewrite matchK_Cat, matchK_star_class by lia.
  rewrite greedyTry_disjoint.
  - rewrite matchK_lit. now destruct (startsWith (p :: pat) _).
  - intros c t Hc. rewrite matchK_lit.
    replace (startsWith (p :: pat) (c :: t)) with false; [reflexivity|].
    symmetry. apply startsWith_head. intros ->. congruence.
Qed.

Lemma keyword_regex (whole : nat) (kw : string) (x : str) :
  isSome (matchAt whole (rxKeyword kw) x) = keywordSpace kw x.
Proof.
  unfold matchAt, rxKeyword, keywordSpace. rewrite matchK_Cat, matchK_lit.
  destruct (startsWith (js kw) x); [|reflexivity].
  rewrite matchK_Class. simpl andb.
  destruct (skipn (length (js kw)) x) as [|c t]; [reflexivity|].
  now destruct (isSpace c).
Qed.

(** [looksLikeCode] is [test] of its regular expression. *)
Lemma looksLikeCode_regex (content : str) :
  looksLikeCode content = test rxCode content.
Proof.
  unfold test. rewrite test_anywhere. unfold rxCode, looksLikeCode.
  repeat (rewrite (anywhere_ext _ _ (isSome_Or (length content) _ _));
          rewrite anywhere_or).
  rewrite anywhere_class.
  rewrite !anywhere_start.
  change (js "//") with [47%N; 47%N]. change (js "#") with [35%N].
  rewrite !space_then_lit by reflexivity.
  rewrite !(anywhere_ext _ _ (keyword_regex (length content) _)).
  now rewrite !orb_assoc.
Qed.

(** [startsAlpha] is [test] of [/^[a-zA-Z]/]. *)
Lemma startsAlpha_regex (content : str) :
  startsAlpha content = test rxStartsAlpha content.
Proof.
  unfold test. rewrite test_anywhere. unfold rxStartsAlpha.
  rewrite anywhere_start. unfold matchAt. rewrite matchK_Class.
  destruct content as [|c t]; [reflexivity|]. simpl.
  now destruct (isAlpha c).
Qed.

Lemma replaceFrom_ext (m m' : str -> option nat) (rep : str) :
  (forall s, m s = m' s) ->
  forall s k, replaceFrom m rep k s = replaceFrom m' rep k s.
Proof.
  intros E. induction s as [|c s IH]; intros k; simpl; rewrite E.
  - reflexivity.
  - destruct k; [|apply IH].
    destruct (m' (c :: s)) as [[|n]|]; now rewrite IH.
Qed.

Lemma replaceAll_ext (m m' : str -> option nat) (rep s : str) :
  (forall x, m x = m' x) -> replaceAll m rep s = replaceAll m' rep s.
Proof. intros E. now apply replaceFrom_ext. Qed.

(** [stripAnsi], [cleanText] and [looksLikeProse] are the programs of the
    source over its regular expressions. *)
Lemma stripAnsi_regex (text : str) :
  stripAnsi text =
  replaceAll (matchLen rxControl) []
    (replaceAll (matchLen rxStringSeq) []
       (replaceAll (matchLen rxPrivate) []
          (replaceAll (matchLen rxOSC) []
             (replaceAll (matchLen rxCSI) [] text)))).
Proof.
  unfold stripAnsi.
  rewrite (replaceAll_ext _ _ _ _ reCSI_regex).
  rewrite (replaceAll_ext _ _ _ _ reOSC_regex).
  rewrite (replaceAll_ext _ _ _ _ rePrivate_regex).
  rewrite (replaceAll_ext _ _ _ _ reStringSeq_regex).
  now rewrite (replaceAll_ext _ _ _ _ reControl_regex).
Qed.

Lemma cleanText_regex (text : str) :
  cleanText text =
  trim (replaceAll (matchLen rxSpaces) [32%N]
          (replaceAll (matchLen rxNewlines) [32%N]
             (replaceAll (matchLen rxCSI) [] text))).
Proof.
  unfold cleanText.
  rewrite (replaceAll_ext _ _ _ _ reCSI_regex).
  rewrite (replaceAll_ext _ _ _ _ reNewlines_regex).
  now rewrite (replaceAll_ext _ _ _ _ reSpaces_regex).
Qed.

Lemma looksLikeProse_regex (content : str) :
  looksLikeProse content =
  (Nat.ltb 5 (length content) && test rxStartsAlpha content
   && negb (test rxCode content))%bool.
Proof.
  unfold looksLikeProse.
  now rewrite looksLikeCode_regex, startsAlpha_regex.
Qed.

(** ** One text at a time *)

Lemma takeLoop_here (p : Wait -> bool) (w : Wait) (l : list Wait) :
  p w = true -> takeLoop p (w :: l) = Some (w, l).
Proof. intros H. simpl. now rewrite H. Qed.

(** A call answered with a playable result, and its playback run to the
    end: the loop is back at the head of its [while]. *)
Lemma played_to_end (o : Orch) (req : nat) (t0 : str) (r : Settled) :
  loops o = [AwaitSynth req t0] -> unplayable r = false ->
  run o [SynthSettled req r; AudioEnded (nextAudio o)] =
  loopHead (mkOrch (speakQueue o) (isProcessing o) (isSpeaking o) None
                   (enabledRef o) [] (nextReq o) (S (nextAudio o))
                   (trace o ++ [PlayStart (nextAudio o) t0])).
Proof.
  intros Hl Hu. unfold run. cbn [fold_left step].
  unfold synthSettled. rewrite Hl.
  rewrite takeLoop_here by (simpl; apply Nat.eqb_refl).
  unfold unplayable in Hu. destruct (playable r) as [d|]; [|discriminate].
  apply negb_false_iff in Hu. rewrite Hu.
  unfold audioEnded. cbn [nextAudio withLoops].
  replace (Nat.ltb (nextAudio o) (S (nextAudio o))) with true
    by (symmetry; apply Nat.ltb_lt; lia).
  unfold resolveAudio. cbn [withAudioRef loops app].
  rewrite takeLoop_here by (simpl; apply Nat.eqb_refl).
  reflexivity.
Qed.

Lemma serve_fail (req a : nat) (r : Settled) (rs : list Settled) :
  unplayable r = true ->
  serve req a (r :: rs) = [SynthSettled req r] ++ serve (S req) a rs.
Proof. intros H. simpl. now rewrite H. Qed.

Lemma serve_ok (req a : nat) (r : Settled) (rs : list Settled) :
  unplayable r = false ->
  serve req a (r :: rs)
  = [SynthSettled req r; AudioEnded a] ++ serve (S req) (S a) rs.
Proof. intros H. simpl. now rewrite H. Qed.

Lemma served_fail (req a : nat) (t : str) (ts : list str) (r : Settled)
      (rs : list Settled) :
  unplayable r = true ->
  tl (served req a (t :: ts) (r :: rs)) = logOf r ++ served (S req) a ts rs.
Proof. intros H. simpl. now rewrite H. Qed.

Lemma served_ok (req a : nat) (t : str) (ts : list str) (r : Settled)
      (rs : list Settled) :
  unplayable r = false ->
  tl (served req a (t :: ts) (r :: rs))
  = PlayStart a t :: served (S req) (S a) ts rs.
Proof. intros H. simpl. now rewrite H. Qed.

Lemma served_head (req a : nat) (t : str) (ts : list str) (r : Settled)
      (rs : list Settled) :
  served req a (t :: ts) (r :: rs)
  = SynthCall req t :: tl (served req a (t :: ts) (r :: rs)).
Proof. reflexivity. Qed.

Lemma run_app (o : Orch) (es es' : list Event) :
  run o (es ++ es') = run (run o es) es'.
Proof. apply fold_left_app. Qed.

(** One loop suspended on the call of [t0], the texts [q] queued, every
    call answered and every playback run to its end: the loop takes the
    texts one at a time and ends idle. *)
Lemma serve_queue (q : list str) :
  forall (o : Orch) (req : nat) (t0 : str) (r0 : Settled) (rs : list Settled),
  loops o = [AwaitSynth req t0] -> nextReq o = S req ->
  speakQueue o = q -> audioRef o = None ->
  Forall (fun t => t <> []) q ->
  length rs = length q ->
  trace (run o (serve req (nextAudio o) (r0 :: rs)))
  = trace o ++ tl (served req (nextAudio o) (t0 :: q) (r0 :: rs))
  /\ idle (run o (serve req (nextAudio o) (r0 :: rs))).
Proof.
  induction q as [|t q IH]; intros o req t0 r0 rs Hl Hn Hq Ha Hne Hlen.
  - destruct rs; [|discriminate].
    destruct (unplayable r0) eqn:Hu.
    + rewrite (serve_fail _ _ _ _ Hu), (served_fail _ _ _ _ _ _ Hu).
      unfold run. cbn [fold_left step app serve].
      rewrite (synthSettled_unplayable o req r0 t0 []); trivial;
        [|rewrite Hl; now apply takeLoop_here, Nat.eqb_refl].
      rewrite loopHead_done by exact Hq. unfold idle. cbn.
      rewrite Ha, app_nil_r. tauto.
    + rewrite (serve_ok _ _ _ _ Hu), (served_ok _ _ _ _ _ _ Hu).
      cbn [serve]. rewrite app_nil_r.
      rewrite (played_to_end o req t0 r0 Hl Hu).
      rewrite loopHead_done by exact Hq. unfold idle. cbn. tauto.
  - destruct rs as [|r1 rs]; [discriminate|].
    inversion Hne as [|? ? Ht Hne']; subst.
    assert (Hlen' : length rs = length q) by (simpl in Hlen; lia).
    destruct (unplayable r0) eqn:Hu.
    + rewrite (serve_fail _ _ _ _ Hu), (served_fail _ _ _ _ _ _ Hu).
      rewrite run_app.
      change (run o [SynthSettled req r0]) with (synthSettled o req r0).
      rewrite (synthSettled_unplayable o req r0 t0 []); trivial;
        [|rewrite Hl; now apply takeLoop_here, Nat.eqb_refl].
      rewrite (loopHead_next (emit (withLoops o []) (logOf r0)) t q);
        [|assumption|assumption].
      cbn [emit withLoops speakQueue isProcessing isSpeaking audioRef
           enabledRef loops nextReq nextAudio trace app].
      set (o1 := mkOrch _ _ _ _ _ _ _ _ _).
      destruct (IH o1 (nextReq o) t r1 rs) as [Hc Hrest]; trivial.
      rewrite Hn in *. split; [|exact Hrest].
      change (nextAudio o1) with (nextAudio o) in Hc.
      rewrite Hc. unfold o1. cbn [trace].
      rewrite ?Hn, <- !app_assoc. reflexivity.
    + rewrite (serve_ok _ _ _ _ Hu), (served_ok _ _ _ _ _ _ Hu).
      rewrite run_app, (played_to_end o req t0 r0 Hl Hu).
      rewrite (loopHead_next _ t q); [|exact Hq|assumption].
      cbn [speakQueue isProcessing isSpeaking audioRef enabledRef loops
           nextReq nextAudio trace app].
      set (o1 := mkOrch _ _ _ _ _ _ _ _ _).
      destruct (IH o1 (nextReq o) t r1 rs) as [Hc Hrest]; trivial.
      rewrite Hn in *. split; [|exact Hrest].
      change (nextAudio o1) with (S (nextAudio o)) in Hc.
      rewrite Hc. unfold o1. cbn [trace].
      rewrite ?Hn, <- !app_assoc. reflexivity.
Qed.

(** From the idle state the texts accepted by [speakText] are queued
    behind the first one, which is sent to the synthesis at once. *)
Lemma deliver_processing (texts : list str) :
  forall o : Orch,
  enabledRef o = true -> isProcessing o = true ->
  Forall (fun t => 3 <= length (cleanText t)) texts ->
  deliver o texts =
  mkOrch (speakQueue o ++ map cleanText texts) true (isSpeaking o)
         (audioRef o) true (loops o) (nextReq o) (nextAudio o) (trace o).
Proof.
  induction texts as [|t ts IH]; intros o He Hp Hall.
  - cbn. rewrite app_nil_r. destruct o; cbn in *. now subst.
  - inversion Hall as [|? ? Hl Hall']; subst. unfold deliver. cbn [fold_left].
    fold (deliver (speakText o t) ts).
    rewrite (speakText_accepts o t He Hl). unfold processQueue.
    cbn [push isProcessing]. rewrite Hp. cbn [orb].
    rewrite (IH (push o (cleanText t))); trivial.
    cbn. now rewrite <- app_assoc.
Qed.

(** X1: texts enqueued from the idle state, every call answered and every
    playback run to its end: the provider takes one text at a time, in the
    order of the enqueues; the next call of the synthesis is made only after
    the result of the previous one was played to its end or skipped; and the
    provider ends idle. *)
Theorem one_text_at_a_time (o : Orch) (texts : list str) (rs : list Settled) :
  idle o -> enabledRef o = true ->
  Forall (fun t => 3 <= length (cleanText t)) texts ->
  length rs = length texts ->
  trace (run (deliver o texts) (serve (nextReq o) (nextAudio o) rs))
  = trace o ++ served (nextReq o) (nextAudio o) (map cleanText texts) rs
  /\ idle (run (deliver o texts) (serve (nextReq o) (nextAudio o) rs)).
Proof.
  intros [Hq [Hp [Hs [Ha Hl]]]] He Hall Hlen.
  destruct texts as [|t ts]; destruct rs as [|r rs]; try discriminate.
  - cbn. rewrite app_nil_r. unfold idle. tauto.
  - inversion Hall as [|? ? Ht Hall']; subst.
    unfold deliver. cbn [fold_left]. fold (deliver (speakText o t) ts).
    rewrite (speakText_idle o t He Ht Hp Hq).
    set (o1 := mkOrch _ _ _ _ _ _ _ _ _).
    rewrite (deliver_processing ts o1); trivial.
    set (o2 := mkOrch _ _ _ _ _ _ _ _ _).
    destruct (serve_queue (map cleanText ts) o2 (nextReq o) (cleanText t) r rs)
      as [Hc Hi]; trivial.
    + unfold o2, o1. cbn. now rewrite Hl.
    + clear -Hall'. induction Hall' as [|x l Hx _ IH]; cbn; constructor; trivial.
      destruct (cleanText x); [cbn in Hx; lia | discriminate].
    + rewrite length_map. cbn in Hlen. lia.
    + change (nextAudio o2) with (nextAudio o) in Hc, Hi.
      split; [|exact Hi]. rewrite Hc. unfold o2, o1. cbn [trace map].
      rewrite served_head, <- app_assoc. reflexivity.
Qed.

Lemma one_text_at_a_time_witness :
  trace (run (deliver (setEnabled initial true)
                      [js "first text"; js "second text"; js "third text"])
             (serve 0 0 [okResult; failedResult; okResult]))
  = [SynthCall 0 (js "first text"); PlayStart 0 (js "first text");
     SynthCall 1 (js "second text"); LogError;
     SynthCall 2 (js "third text"); PlayStart 1 (js "third text")].
Proof.
  destruct (one_text_at_a_time (setEnabled initial true)
              [js "first text"; js "second text"; js "third text"]
              [okResult; failedResult; okResult]) as [E _].
  - vm_compute. tauto.
  - reflexivity.
  - vm_compute. repeat constructor.
  - reflexivity.
  - vm_compute in E |- *. exact E.
Defined.

(** ** What holds in every state of the provider *)

Lemma nextText_Forall (P : str -> Prop) (q : list str) :
  Forall P q ->
  Forall P (snd (nextText q))
  /\ forall t, fst (nextText q) = Some t -> P t.
Proof.
  induction 1 as [|t q Ht Hq IH]; simpl.
  - split; [constructor | discriminate].
  - destruct t as [|c t]; [exact IH|]. simpl.
    split; [exact Hq | intros t' E; now injection E as <-].
Qed.

(** In a state of the kind the provider reaches the loop never skips a
    text: [if (!text) continue] is never taken. *)
Lemma nextText_long (q : list str) :
  Forall (fun t => 3 <= length t) q ->
  nextText q = match q with [] => (None, []) | t :: q' => (Some t, q') end.
Proof.
  intros H. destruct H as [|t q Ht Hq]; [reflexivity|].
  destruct t; [simpl in Ht; lia | reflexivity].
Qed.

Lemma loopHead_settled (o : Orch) :
  isSpeaking o = isProcessing o ->
  (speakQueue o <> [] -> isProcessing o = true) ->
  (enabledRef o = false -> isProcessing o = false) ->
  Forall (fun t => 3 <= length t) (speakQueue o) ->
  settled (loopHead o).
Proof.
  intros Hs Hq He Hf. unfold loopHead, settled.
  rewrite (nextText_long _ Hf).
  destruct (speakQueue o) as [|t q] eqn:E; cbn.
  - repeat split; trivial.
  - inversion Hf; subst.
    rewrite (Hq ltac:(discriminate)) in *.
    repeat split; trivial. discriminate.
Qed.

Lemma settled_queue (o : Orch) :
  settled o -> speakQueue o <> [] -> isProcessing o = true.
Proof.
  intros [_ [H _]] Hq. destruct (isProcessing o); [reflexivity|].
  now elim Hq; apply H.
Qed.

Lemma resolveAudio_settled (o : Orch) (a : nat) :
  settled o -> settled (resolveAudio o a).
Proof.
  intros H. unfold resolveAudio.
  destruct (takeLoop (waitsAudio a) (loops o)) as [[w others]|]; [|exact H].
  pose proof (settled_queue o H) as Hq.
  destruct H as [Hs [_ [He Hf]]]. now apply loopHead_settled.
Qed.

Lemma step_settled (o : Orch) (e : Event) : settled o -> settled (step o e).
Proof.
  intros H. pose proof (settled_queue o H) as Hq.
  destruct e as [text| |b|req r|a|a|a]; cbn [step].
  - (* speakText *)
    unfold speakText. destruct (enabledRef o) eqn:Een; [|exact H]. cbn [negb].
    destruct (Nat.ltb (length (cleanText text)) 3) eqn:El; [exact H|].
    apply Nat.ltb_ge in El. destruct H as [Hs [Hi [He Hf]]].
    unfold processQueue. cbn [push isProcessing speakQueue].
    destruct (isProcessing o) eqn:Ep; cbn [orb].
    + unfold settled. cbn. rewrite Ep, Een.
      repeat split; trivial; try discriminate.
      apply Forall_app. split; [exact Hf | now constructor].
    + rewrite (Hi eq_refl). cbn [app].
      apply loopHead_settled; cbn; trivial; rewrite ?Een; try discriminate.
      now constructor.
  - unfold stopSpeaking, settled. cbn. repeat split; trivial.
  - unfold setEnabled.
    destruct (Bool.eqb b (enabledRef o)); [exact H|]. destruct b; cbn.
    + destruct H as [Hs [Hi [He Hf]]]. unfold settled. cbn.
      repeat split; trivial. discriminate.
    + unfold stopSpeaking, settled. cbn. repeat split; trivial.
  - unfold synthSettled.
    destruct (takeLoop (waitsSynth req) (loops o)) as [[[req' text|a] others]|];
      try exact H.
    destruct H as [Hs [Hi [He Hf]]].
    destruct (playable r) as [d|].
    + destruct (atobOk d).
      * unfold settled. cbn. now repeat split.
      * now apply loopHead_settled.
    + now apply loopHead_settled.
  - unfold audioEnded. destruct (Nat.ltb a (nextAudio o)); [|exact H].
    apply resolveAudio_settled. exact H.
  - unfold audioError. destruct (Nat.ltb a (nextAudio o)); [|exact H].
    apply resolveAudio_settled. exact H.
  - unfold playRejected. destruct (Nat.ltb a (nextAudio o)); [|exact H].
    apply resolveAudio_settled. exact H.
Qed.

Lemma run_settled (es : list Event) :
  forall o, settled o -> settled (run o es).
Proof.
  induction es as [|e es IH]; intros o H; [exact H|].
  rewrite run_cons. now apply IH, step_settled.
Qed.

Lemma initial_settled : settled initial.
Proof. unfold settled. cbn. repeat split; trivial. Qed.

(** X2: whatever events reach the provider, in whatever order: the
    [isSpeaking] state equals [isProcessingRef]; when the flag is clear the
    queue is empty, so no text is left behind without a loop to take it;
    while the output is disabled the flag is clear and the queue is empty;
    and every queued text has three code units at least, so the loop never
    skips an entry as empty. *)
Theorem provider_invariants (es : list Event) :
  let o := run initial es in
  isSpeaking o = isProcessing o
  /\ (isProcessing o = false -> speakQueue o = [])
  /\ (enabledRef o = false -> isProcessing o = false /\ speakQueue o = [])
  /\ Forall (fun t => 3 <= length t) (speakQueue o)
  /\ nextText (speakQueue o)
     = match speakQueue o with [] => (None, []) | t :: q => (Some t, q) end.
Proof.
  destruct (run_settled es initial initial_settled) as [Hs [Hi [He Hf]]].
  cbv zeta. split; [exact Hs|]. split; [exact Hi|].
  split; [|split; [exact Hf | now apply nextText_long]].
  intros E. split; [now apply He | apply Hi, He, E].
Qed.

(** ** While the output is disabled *)

Lemma loopHead_empty (o : Orch) :
  speakQueue o = [] -> synthCalls (trace (loopHead o)) = synthCalls (trace o)
                       /\ enabledRef (loopHead o) = enabledRef o.
Proof. intros H. rewrite loopHead_done by exact H. now split. Qed.

Lemma resolveAudio_empty (o : Orch) (a : nat) :
  speakQueue o = [] ->
  synthCalls (trace (resolveAudio o a)) = synthCalls (trace o)
  /\ enabledRef (resolveAudio o a) = enabledRef o.
Proof.
  intros H. unfold resolveAudio.
  destruct (takeLoop (waitsAudio a) (loops o)) as [[w others]|];
    [|now split].
  now apply (loopHead_empty (withLoops o others)).
Qed.

Lemma step_disabled (o : Orch) (e : Event) :
  settled o -> enabledRef o = false -> keepsOff e = true ->
  synthCalls (trace (step o e)) = synthCalls (trace o)
  /\ enabledRef (step o e) = false.
Proof.
  intros [_ [Hi [He _]]] Hoff Hk.
  pose proof (Hi (He Hoff)) as Hq.
  destruct e as [text| |b|req r|a|a|a]; cbn [step].
  - unfold speakText. rewrite Hoff. now split.
  - unfold stopSpeaking. cbn. rewrite !synthCalls_app. cbn.
    split; [|exact Hoff].
    destruct (audioRef o); cbn; now rewrite app_nil_r.
  - destruct b; [discriminate|]. unfold setEnabled. rewrite Hoff.
    now split.
  - unfold synthSettled.
    destruct (takeLoop (waitsSynth req) (loops o)) as [[[req' text|a] others]|];
      try (now split).
    destruct (playable r) as [d|].
    + destruct (atobOk d).
      * cbn. rewrite synthCalls_app. cbn. now rewrite app_nil_r.
      * destruct (loopHead_empty (emit (withLoops o others) [LogError]) Hq)
          as [E1 E2].
        rewrite E1, E2. cbn. rewrite synthCalls_app. cbn.
        now rewrite app_nil_r.
    + destruct (loopHead_empty
                  (emit (withLoops o others)
                        (if logsError r then [LogError] else [])) Hq)
        as [E1 E2].
      rewrite E1, E2. cbn. rewrite synthCalls_app.
      fold (logOf r). now rewrite synthCalls_logOf, app_nil_r.
  - unfold audioEnded. destruct (Nat.ltb a (nextAudio o)); [|now split].
    destruct (resolveAudio_empty (withAudioRef o None) a Hq) as [E1 E2].
    rewrite E1, E2. now split.
  - unfold audioError. destruct (Nat.ltb a (nextAudio o)); [|now split].
    destruct (resolveAudio_empty (withAudioRef (emit o [LogError]) None) a Hq)
      as [E1 E2].
    rewrite E1, E2. cbn. rewrite synthCalls_app. cbn.
    now rewrite app_nil_r.
  - unfold playRejected. destruct (Nat.ltb a (nextAudio o)); [|now split].
    destruct (resolveAudio_empty (emit o [LogError]) a Hq) as [E1 E2].
    rewrite E1, E2. cbn. rewrite synthCalls_app. cbn.
    now rewrite app_nil_r.
Qed.

Lemma run_disabled (es : list Event) :
  forall o, settled o -> enabledRef o = false ->
            forallb keepsOff es = true ->
            synthCalls (trace (run o es)) = synthCalls (trace o)
            /\ enabledRef (run o es) = false.
Proof.
  induction es as [|e es IH]; intros o Hs Hoff Hk; [now split|].
  cbn [forallb] in Hk. apply andb_true_iff in Hk. destruct Hk as [Hk Hks].
  destruct (step_disabled o e Hs Hoff Hk) as [E1 E2].
  rewrite run_cons.
  destruct (IH (step o e) (step_settled o e Hs) E2 Hks) as [E3 E4].
  now rewrite E3, E1.
Qed.

(** X3: once the voice output is disabled, and until it is enabled again,
    no text goes to the synthesis, whatever happens: calls of [speakText],
    calls in flight that settle, playbacks that end or fail. *)
Theorem no_synthesis_while_disabled (before after : list Event) :
  enabledRef (run initial before) = false ->
  forallb keepsOff after = true ->
  synthCalls (trace (run (run initial before) after))
  = synthCalls (trace (run initial before))
  /\ enabledRef (run (run initial before) after) = false.
Proof.
  intros Hoff Hk. apply run_disabled; trivial.
  apply run_settled, initial_settled.
Qed.

Lemma no_synthesis_while_disabled_witness :
  synthCalls
    (trace (run (run initial [SetEnabled true; SpeakText (js "first text");
                              SpeakText (js "second text"); SetEnabled false])
                [SynthSettled 0 okResult; SpeakText (js "third text");
                 AudioEnded 0]))
  = [js "first text"].
Proof.
  destruct (no_synthesis_while_disabled
              [SetEnabled true; SpeakText (js "first text");
               SpeakText (js "second text"); SetEnabled false]
              [SynthSettled 0 okResult; SpeakText (js "third text");
               AudioEnded 0]) as [E _].
  - reflexivity.
  - reflexivity.
  - vm_compute in E |- *. exact E.
Defined.

(** ** The order of the calls of the synthesis *)

Lemma subseq_refl (a : list str) : subseq a a.
Proof. induction a; constructor; assumption. Qed.

Lemma subseq_app (a b c : list str) : subseq a b -> subseq (a ++ c) (b ++ c).
Proof. induction 1; cbn; [apply subseq_refl | | ]; now constructor. Qed.

Lemma subseq_nil_l (c : list str) : subseq [] c.
Proof. induction c; now constructor. Qed.

Lemma subseq_prefix (a b : list str) :
  forall c, subseq (a ++ b) c -> subseq a c.
Proof.
  intros c H. remember (a ++ b) as ab eqn:E. revert a E.
  induction H as [|x l c H IH|x l c H IH]; intros a E.
  - destruct a; [constructor | discriminate].
  - constructor. now apply IH.
  - destruct a as [|y a]; cbn in E; [apply subseq_nil_l|].
    injection E as E1 E2. subst x. apply subseq_keep, IH, E2.
Qed.

Lemma subseq_incl (a b : list str) : subseq a b -> incl a b.
Proof.
  induction 1 as [|x a b H IH|x a b H IH]; intros y Hy.
  - exact Hy.
  - right. now apply IH.
  - destruct Hy as [-> | Hy]; [now left | right; now apply IH].
Qed.

Lemma pushed_cons (o : Orch) (e : Event) (es : list Event) :
  pushed o (e :: es) = pushed o [e] ++ pushed (step o e) es.
Proof. cbn. now rewrite app_nil_r. Qed.

(** Setting the voice output to the value it has runs no effect: a
    repeated disable stops nothing and sends nothing to the synthesis
    service. *)
Lemma setEnabled_same (o : Orch) : setEnabled o (enabledRef o) = o.
Proof. unfold setEnabled. now rewrite Bool.eqb_reflx. Qed.

Lemma setEnabled_changed (o : Orch) :
  setEnabled o (negb (enabledRef o)) =
  let o' := mkOrch (speakQueue o) (isProcessing o) (isSpeaking o)
                   (audioRef o) (negb (enabledRef o)) (loops o) (nextReq o)
                   (nextAudio o) (trace o) in
  if enabledRef o then stopSpeaking o' else o'.
Proof. unfold setEnabled. now destruct (enabledRef o). Qed.

Lemma fifo_stop (o : Orch) : fifo (stopSpeaking o) = synthCalls (trace o).
Proof.
  unfold fifo, stopSpeaking. cbn. rewrite !synthCalls_app. cbn.
  destruct (audioRef o); cbn; now rewrite !app_nil_r.
Qed.

Lemma run_subseq (es : list Event) :
  forall o base,
  subseq (fifo o) base -> subseq (fifo (run o es)) (base ++ pushed o es).
Proof.
  induction es as [|e es IH]; intros o base H.
  - cbn. now rewrite app_nil_r.
  - rewrite run_cons, pushed_cons, app_assoc. apply IH.
    destruct (stopFree e) eqn:Es.
    + rewrite (step_fifo o e Es). now apply subseq_app.
    + assert (E : fifo (step o e) = synthCalls (trace o)
                  \/ step o e = o).
      { destruct e as [text| |b|req r|a|a|a]; try discriminate;
          [left; apply fifo_stop|]. destruct b; [discriminate|].
        cbn [step]. unfold setEnabled.
        destruct (Bool.eqb false (enabledRef o)); [now right | left].
        now rewrite fifo_stop. }
      assert (Ep : pushed o [e] = []).
      { destruct e as [text| |b|req r|a|a|a]; try discriminate; reflexivity. }
      rewrite Ep, app_nil_r.
      destruct E as [E | E]; rewrite E;
        [now apply (subseq_prefix _ _ _ H) | exact H].
Qed.

Lemma pushed_texts (es : list Event) :
  forall o t, In t (pushed o es) ->
              3 <= length t /\ exists text, In (SpeakText text) es
                                            /\ t = cleanText text.
Proof.
  induction es as [|e es IH]; intros o t H; [destruct H|].
  rewrite pushed_cons in H. apply in_app_or in H. destruct H as [H | H].
  - unfold pushed in H. rewrite app_nil_r in H.
    destruct e as [text| |b|req r|a|a|a]; try (now destruct H).
    destruct (enabledRef o && negb (Nat.ltb (length (cleanText text)) 3))%bool
      eqn:E; [|destruct H].
    destruct H as [<- | []]. apply andb_true_iff in E. destruct E as [_ E].
    apply negb_true_iff, Nat.ltb_ge in E.
    split; [exact E | exists text; split; [now left | reflexivity]].
  - destruct (IH _ _ H) as [Hl [text [Hin ->]]].
    split; [exact Hl | exists text; split; [now right | reflexivity]].
Qed.

(** X4: whatever events reach the provider, stops and restarts included,
    the texts sent to the synthesis are, in their order, among the texts
    [speakText] pushed: each is the cleaned text of a call of [speakText],
    three code units long at least; none is sent more often than it was
    pushed, and none overtakes a text pushed before it. *)
Theorem synthesis_follows_enqueues (es : list Event) :
  subseq (synthCalls (trace (run initial es))) (pushed initial es)
  /\ forall t, In t (synthCalls (trace (run initial es))) ->
               3 <= length t
               /\ exists text, In (SpeakText text) es /\ t = cleanText text.
Proof.
  assert (H : subseq (synthCalls (trace (run initial es))) (pushed initial es)).
  { apply (subseq_prefix _ (filter (fun t => negb (str_eqb t []))
                                   (speakQueue (run initial es)))).
    apply (run_subseq es initial []). constructor. }
  split; [exact H|].
  intros t Ht. apply (pushed_texts es initial).
  now apply (subseq_incl _ _ H).
Qed.

(** ** The guard and the queue without stops, from the start *)

(** X5: as long as nothing calls [stopSpeaking], there is one suspended
    invocation of [processQueue] at most, and one exactly while
    [isProcessingRef] is set. *)
Theorem single_loop_without_stop (es : list Event) :
  forallb stopFree es = true ->
  length (loops (run initial es)) <= 1
  /\ (isProcessing (run initial es) = true <-> loops (run initial es) <> []).
Proof.
  intros H.
  destruct (oneLoop_without_stop es initial) as [[Hp [w Hl]] | [Hp [Hl _]]];
    trivial.
  - right. cbn. tauto.
  - rewrite Hp, Hl. cbn. split; [lia | split; [discriminate | reflexivity]].
  - rewrite Hp, Hl. cbn. split; [lia | split; [discriminate | congruence]].
Qed.

Lemma single_loop_without_stop_witness :
  length (loops (run initial threeTexts)) <= 1.
Proof. apply (single_loop_without_stop threeTexts). reflexivity. Defined.

Lemma filter_long (q : list str) :
  Forall (fun t => 3 <= length t) q ->
  filter (fun t => negb (str_eqb t [])) q = q.
Proof.
  induction 1 as [|t q Ht Hq IH]; [reflexivity|].
  destruct t as [|c t]; [cbn in Ht; lia|].
  change (filter (fun t => negb (str_eqb t [])) ((c :: t) :: q))
    with ((c :: t) :: filter (fun t => negb (str_eqb t [])) q).
  now rewrite IH.
Qed.

(** X6: as long as nothing calls [stopSpeaking], no text is lost and none is
    reordered: the texts sent to the synthesis so far, followed by the
    texts still queued, are the texts [speakText] pushed, in the order of
    the calls. *)
Theorem queue_order_without_stop (es : list Event) :
  forallb stopFree es = true ->
  synthCalls (trace (run initial es)) ++ speakQueue (run initial es)
  = pushed initial es.
Proof.
  intros H. pose proof (fifo_without_stop es initial H) as E.
  unfold fifo in E. cbn [initial trace speakQueue synthCalls filter app] in E.
  rewrite <- E. f_equal.
  destruct (run_settled es initial initial_settled) as [_ [_ [_ Hf]]].
  symmetry. now apply filter_long.
Qed.

Lemma queue_order_without_stop_witness :
  synthCalls (trace (run initial threeTexts))
  ++ speakQueue (run initial threeTexts)
  = [js "first text"; js "second text"; js "third text"].
Proof.
  pose proof (queue_order_without_stop threeTexts eq_refl) as E.
  vm_compute in E |- *. exact E.
Defined.

(** ** Stripping sequences *)

Lemma replaceFrom_prefix (m : str -> option nat) (rep : str) (P : N -> Prop) :
  (forall c s, P c -> m (c :: s) = None) ->
  forall pre s, Forall P pre ->
  replaceFrom m rep 0 (pre ++ s) = pre ++ replaceFrom m rep 0 s.
Proof.
  intros Hm pre s H. induction H as [|c pre Hc Hpre IH]; [reflexivity|].
  cbn [app replaceFrom]. rewrite (Hm c (pre ++ s) Hc). now rewrite IH.
Qed.

Lemma replaceFrom_drop (m : str -> option nat) (rep : str) (a s : str) :
  replaceFrom m rep (length a) (a ++ s) = replaceFrom m rep 0 s.
Proof.
  induction a as [|c a IH]; [|exact IH].
  destruct s; reflexivity.
Qed.

Lemma replaceAll_match (m : str -> option nat) (rep : str) (c : N)
      (a s : str) :
  m (c :: a ++ s) = Some (S (length a)) ->
  replaceAll m rep (c :: a ++ s) = rep ++ replaceAll m rep s.
Proof.
  intros H. unfold replaceAll. cbn [replaceFrom]. rewrite H.
  now rewrite replaceFrom_drop.
Qed.

Lemma replaceAll_pass (m : str -> option nat) (rep : str) (c : N) (s : str) :
  m (c :: s) = None ->
  replaceAll m rep (c :: s) = c :: replaceAll m rep s.
Proof. intros H. unfold replaceAll. cbn [replaceFrom]. now rewrite H. Qed.

Lemma replaceAll_noESC (m : str -> option nat) (rep : str) (pre s : str) :
  needsESC m -> Forall (fun c => N.eqb 27 c = false) pre ->
  replaceAll m rep (pre ++ s) = pre ++ replaceAll m rep s.
Proof.
  intros [_ H] Hpre.
  now apply (replaceFrom_prefix m rep (fun c => N.eqb 27 c = false)).
Qed.

Ltac needs_ESC :=
  split; [reflexivity|];
  let c := fresh "c" in
  let r := fresh "r" in
  let Hc := fresh "Hc" in
  intros c r Hc; destruct r as [|? [|? ?]]; cbv beta iota;
  rewrite ?Hc; reflexivity.

Lemma reCSI_needsESC : needsESC reCSI.
Proof. unfold reCSI. needs_ESC. Qed.
Lemma reOSC_needsESC : needsESC reOSC.
Proof. unfold reOSC. needs_ESC. Qed.
Lemma rePrivate_needsESC : needsESC rePrivate.
Proof. unfold rePrivate. needs_ESC. Qed.
Lemma reStringSeq_needsESC : needsESC reStringSeq.
Proof. unfold reStringSeq. needs_ESC. Qed.

Lemma controlFree_noESC (s : str) :
  controlFree s -> Forall (fun c => N.eqb 27 c = false) s.
Proof.
  intros H. eapply Forall_impl; [|exact H]. apply not_control_ESC.
Qed.

(** Text without control characters in front of any text goes through
    [stripAnsi] untouched, and the rest is stripped on its own. *)
Lemma stripAnsi_prefix (pre s : str) :
  controlFree pre -> stripAnsi (pre ++ s) = pre ++ stripAnsi s.
Proof.
  intros H. pose proof (controlFree_noESC pre H) as H'. unfold stripAnsi.
  rewrite (replaceAll_noESC reCSI [] pre s reCSI_needsESC H').
  rewrite (replaceAll_noESC reOSC [] pre _ reOSC_needsESC H').
  rewrite (replaceAll_noESC rePrivate [] pre _ rePrivate_needsESC H').
  rewrite (replaceAll_noESC reStringSeq [] pre _ reStringSeq_needsESC H').
  unfold replaceAll at 1.
  rewrite (replaceFrom_prefix reControl [] (fun c => isControl c = false));
    [reflexivity | | exact H].
  intros c r Hc. cbn. now rewrite Hc.
Qed.

Lemma takeWhile_stop (p : N -> bool) (a : str) (c : N) (s : str) :
  Forall (fun x => p x = true) a -> p c = false ->
  takeWhile p (a ++ c :: s) = a.
Proof.
  intros H Hc. induction H as [|x a Hx Ha IH]; cbn.
  - now rewrite Hc.
  - now rewrite Hx, IH.
Qed.

Lemma alpha_not_digitSemi (c : N) : isAlpha c = true -> isDigitSemi c = false.
Proof.
  intros H. destruct (isDigitSemi c) eqn:E; [|reflexivity].
  apply digitSemi_not_alpha in E. congruence.
Qed.

Lemma reCSI_csi (params : str) (final : N) (s : str) :
  Forall (fun c => isDigitSemi c = true) params -> isAlpha final = true ->
  reCSI (27%N :: 91%N :: params ++ final :: s) = Some (S (2 + length params)).
Proof.
  intros Hp Hf. unfold reCSI. rewrite !N.eqb_refl. cbn [andb].
  rewrite (takeWhile_stop isDigitSemi params final s Hp
             (alpha_not_digitSemi final Hf)).
  rewrite skipn_app_exact. now rewrite Hf.
Qed.

Lemma rePrivate_private (params : str) (final : N) (s : str) :
  Forall (fun c => isDigitSemi c = true) params -> isAlpha final = true ->
  rePrivate (27%N :: 91%N :: 63%N :: params ++ final :: s)
  = Some (S (3 + length params)).
Proof.
  intros Hp Hf. unfold rePrivate. rewrite !N.eqb_refl. cbn [andb].
  rewrite (takeWhile_stop isDigitSemi params final s Hp
             (alpha_not_digitSemi final Hf)).
  rewrite skipn_app_exact. now rewrite Hf.
Qed.

Lemma reOSC_osc (body s : str) :
  controlFree body ->
  reOSC (27%N :: 93%N :: body ++ 7%N :: s) = Some (S (2 + length body)).
Proof.
  intros Hb. unfold reOSC. rewrite !N.eqb_refl. cbn [andb].
  rewrite (takeWhile_stop notBEL body 7 s); [|
    eapply Forall_impl; [|exact Hb]; intros c Hc; unfold notBEL;
    destruct (N.eqb_spec 7 c) as [<-|]; [discriminate | reflexivity]
    | reflexivity].
  now rewrite skipn_app_exact.
Qed.

Lemma reStringSeq_string (intro : N) (body s : str) :
  isStringIntro intro = true -> controlFree body ->
  reStringSeq (27%N :: intro :: body ++ 27%N :: 92%N :: s)
  = Some (S (3 + length body)).
Proof.
  intros Hi Hb. unfold reStringSeq. rewrite N.eqb_refl, Hi. cbn [andb].
  rewrite (takeWhile_stop notESC body 27 (92%N :: s)); [|
    eapply Forall_impl; [|exact Hb]; intros c Hc; unfold notESC;
    now rewrite (not_control_ESC c Hc)
    | reflexivity].
  rewrite skipn_app_exact. now rewrite N.eqb_refl.
Qed.

Lemma digits_noESC (params : str) :
  Forall (fun c => isDigitSemi c = true) params ->
  Forall (fun c => N.eqb 27 c = false) params.
Proof.
  intros H. eapply Forall_impl; [|exact H]. intros c Hc.
  destruct (N.eqb_spec 27 c) as [<-|]; [discriminate | reflexivity].
Qed.

Lemma alpha_noESC (c : N) : isAlpha c = true -> N.eqb 27 c = false.
Proof.
  intros H. destruct (N.eqb_spec 27 c) as [<-|]; [discriminate | reflexivity].
Qed.

Lemma intro_noESC (c : N) : isStringIntro c = true -> N.eqb 27 c = false.
Proof.
  intros H. destruct (N.eqb_spec 27 c) as [<-|]; [discriminate | reflexivity].
Qed.

Lemma replaceFrom_skipn (m : str -> option nat) (rep : str) :
  forall (r : str) (n : nat),
  replaceFrom m rep n r = replaceFrom m rep 0 (skipn n r).
Proof.
  induction r as [|c r IH]; intros [|n]; try reflexivity.
  cbn [replaceFrom skipn]. apply IH.
Qed.

Lemma replaceAll_found (m : str -> option nat) (rep : str) (c : N) (r : str)
      (n : nat) :
  m (c :: r) = Some (S n) ->
  replaceAll m rep (c :: r) = rep ++ replaceAll m rep (skipn n r).
Proof.
  intros H. unfold replaceAll. cbn [replaceFrom]. rewrite H.
  now rewrite replaceFrom_skipn.
Qed.

Lemma replaceAll_char (m : str -> option nat) (rep : str) (c : N) (s : str) :
  needsESC m -> N.eqb 27 c = false ->
  replaceAll m rep (c :: s) = c :: replaceAll m rep s.
Proof. intros [_ H] Hc. apply replaceAll_pass. now apply H. Qed.

Lemma skipn_past (a : str) (c : N) (s : str) :
  skipn (S (length a)) (a ++ c :: s) = s.
Proof. induction a as [|x a IH]; [reflexivity | exact IH]. Qed.

Lemma skipn_seq1 (x : N) (a : str) (c : N) (s : str) :
  skipn (2 + length a) (x :: a ++ c :: s) = s.
Proof. apply skipn_past. Qed.

Lemma skipn_seq2 (x y : N) (a : str) (c : N) (s : str) :
  skipn (3 + length a) (x :: y :: a ++ c :: s) = s.
Proof. apply skipn_past. Qed.

Lemma skipn_seq3 (x : N) (a : str) (c d : N) (s : str) :
  skipn (3 + length a) (x :: a ++ c :: d :: s) = s.
Proof.
  change (skipn (S (S (length a))) (a ++ c :: d :: s) = s).
  induction a as [|y a IH]; [reflexivity | exact IH].
Qed.

(** A CSI sequence at the head is removed by the first replacement. *)
Lemma stripAnsi_csi (params : str) (final : N) (s : str) :
  Forall (fun c => isDigitSemi c = true) params -> isAlpha final = true ->
  stripAnsi (csi params final ++ s) = stripAnsi s.
Proof.
  intros Hp Hf. unfold stripAnsi. do 4 f_equal.
  unfold csi. rewrite <- !app_assoc. cbn [app].
  rewrite (replaceAll_found reCSI [] _ _ _ (reCSI_csi params final s Hp Hf)).
  now rewrite skipn_seq1.
Qed.

(** An OSC sequence goes through the first replacement and is removed by
    the second. *)
Lemma stripAnsi_osc (body s : str) :
  controlFree body -> stripAnsi (osc body ++ s) = stripAnsi s.
Proof.
  intros Hb. pose proof (controlFree_noESC body Hb) as Hb'.
  unfold stripAnsi. do 3 f_equal.
  unfold osc. rewrite <- !app_assoc. cbn [app].
  rewrite (replaceAll_pass reCSI [] 27) by reflexivity.
  rewrite (replaceAll_char reCSI [] 93) by (apply reCSI_needsESC || reflexivity).
  rewrite (replaceAll_noESC reCSI [] body _ reCSI_needsESC Hb').
  rewrite (replaceAll_char reCSI [] 7) by (apply reCSI_needsESC || reflexivity).
  rewrite (replaceAll_found reOSC [] _ _ _ (reOSC_osc body _ Hb)).
  now rewrite skipn_seq1.
Qed.

(** A private sequence goes through the first two replacements and is
    removed by the third. *)
Lemma stripAnsi_private (params : str) (final : N) (s : str) :
  Forall (fun c => isDigitSemi c = true) params -> isAlpha final = true ->
  stripAnsi (privateSeq params final ++ s) = stripAnsi s.
Proof.
  intros Hp Hf. pose proof (digits_noESC params Hp) as Hp'.
  pose proof (alpha_noESC final Hf) as Hf'.
  unfold stripAnsi. do 2 f_equal.
  unfold privateSeq. rewrite <- !app_assoc. cbn [app].
  rewrite (replaceAll_pass reCSI [] 27) by reflexivity.
  rewrite (replaceAll_char reCSI [] 91) by (apply reCSI_needsESC || reflexivity).
  rewrite (replaceAll_char reCSI [] 63) by (apply reCSI_needsESC || reflexivity).
  rewrite (replaceAll_noESC reCSI [] params _ reCSI_needsESC Hp').
  rewrite (replaceAll_char reCSI [] final _ reCSI_needsESC Hf').
  rewrite (replaceAll_pass reOSC [] 27) by reflexivity.
  rewrite (replaceAll_char reOSC [] 91) by (apply reOSC_needsESC || reflexivity).
  rewrite (replaceAll_char reOSC [] 63) by (apply reOSC_needsESC || reflexivity).
  rewrite (replaceAll_noESC reOSC [] params _ reOSC_needsESC Hp').
  rewrite (replaceAll_char reOSC [] final _ reOSC_needsESC Hf').
  rewrite (replaceAll_found rePrivate [] _ _ _
             (rePrivate_private params final _ Hp Hf)).
  now rewrite skipn_seq2.
Qed.

(** A string sequence goes through the first three replacements and is
    removed by the fourth. *)
Lemma stripAnsi_string (intro : N) (body s : str) :
  isStringIntro intro = true -> controlFree body ->
  stripAnsi (stringSeq intro body ++ s) = stripAnsi s.
Proof.
  intros Hi Hb. pose proof (controlFree_noESC body Hb) as Hb'.
  pose proof (intro_noESC intro Hi) as Hi'.
  assert (H91 : N.eqb 91 intro = false)
    by (destruct (N.eqb_spec 91 intro) as [<-|]; [discriminate | reflexivity]).
  assert (H93 : N.eqb 93 intro = false)
    by (destruct (N.eqb_spec 93 intro) as [<-|]; [discriminate | reflexivity]).
  unfold stripAnsi. f_equal.
  unfold stringSeq. rewrite <- !app_assoc. cbn [app].
  rewrite (replaceAll_pass reCSI [] 27)
    by (unfold reCSI; now rewrite H91, andb_false_r).
  rewrite (replaceAll_char reCSI [] intro _ reCSI_needsESC Hi').
  rewrite (replaceAll_noESC reCSI [] body _ reCSI_needsESC Hb').
  rewrite (replaceAll_pass reCSI [] 27) by reflexivity.
  rewrite (replaceAll_char reCSI [] 92) by (apply reCSI_needsESC || reflexivity).
  rewrite (replaceAll_pass reOSC [] 27)
    by (unfold reOSC; now rewrite H93, andb_false_r).
  rewrite (replaceAll_char reOSC [] intro _ reOSC_needsESC Hi').
  rewrite (replaceAll_noESC reOSC [] body _ reOSC_needsESC Hb').
  rewrite (replaceAll_pass reOSC [] 27) by reflexivity.
  rewrite (replaceAll_char reOSC [] 92) by (apply reOSC_needsESC || reflexivity).
  rewrite (replaceAll_pass rePrivate [] 27).
  2:{ unfold rePrivate. destruct body as [|b body'].
      - cbn [app]. now rewrite H91, andb_false_r.
      - cbn [app]. now rewrite H91, andb_false_r. }
  rewrite (replaceAll_char rePrivate [] intro _ rePrivate_needsESC Hi').
  rewrite (replaceAll_noESC rePrivate [] body _ rePrivate_needsESC Hb').
  rewrite (replaceAll_pass rePrivate [] 27).
  2:{ match goal with
      | |- rePrivate (_ :: _ :: ?X) = _ => destruct X; reflexivity
      end. }
  rewrite (replaceAll_char rePrivate [] 92)
    by (apply rePrivate_needsESC || reflexivity).
  rewrite (replaceAll_found reStringSeq [] _ _ _
             (reStringSeq_string intro body _ Hi Hb)).
  now rewrite skipn_seq3.
Qed.

(** X7: [stripAnsi] removes a well-formed sequence of each of its four
    kinds (CSI, OSC, private, string) whole, wherever it stands behind text
    without control characters; that text goes through untouched and what
    follows is stripped on its own. *)
Theorem stripAnsi_removes_sequences
        (pre params body s : str) (final intro : N) :
  controlFree pre ->
  Forall (fun c => isDigitSemi c = true) params -> isAlpha final = true ->
  controlFree body -> isStringIntro intro = true ->
  stripAnsi (pre ++ csi params final ++ s) = pre ++ stripAnsi s
  /\ stripAnsi (pre ++ osc body ++ s) = pre ++ stripAnsi s
  /\ stripAnsi (pre ++ privateSeq params final ++ s) = pre ++ stripAnsi s
  /\ stripAnsi (pre ++ stringSeq intro body ++ s) = pre ++ stripAnsi s.
Proof.
  intros Hpre Hp Hf Hb Hi.
  rewrite (stripAnsi_prefix pre (csi params final ++ s) Hpre),
    (stripAnsi_prefix pre (osc body ++ s) Hpre),
    (stripAnsi_prefix pre (privateSeq params final ++ s) Hpre),
    (stripAnsi_prefix pre (stringSeq intro body ++ s) Hpre).
  rewrite (stripAnsi_csi params final s Hp Hf), (stripAnsi_osc body s Hb),
    (stripAnsi_private params final s Hp Hf),
    (stripAnsi_string intro body s Hi Hb).
  tauto.
Qed.

Lemma stripAnsi_removes_sequences_witness :
  stripAnsi (js "Hello " ++ csi (js "1;32") 109 ++ js "world") = js "Hello world"
  /\ stripAnsi (js "ab" ++ osc (js "0;title") ++ js "cd") = js "abcd"
  /\ stripAnsi (js "ab" ++ privateSeq (js "25") 108 ++ js "cd") = js "abcd"
  /\ stripAnsi (js "ab" ++ stringSeq 80 (js "0;title") ++ js "cd") = js "abcd".
Proof.
  assert (D : forall p, forallb isDigitSemi p = true ->
                        Forall (fun c => isDigitSemi c = true) p)
    by (intros p H; apply Forall_forall; now apply forallb_forall).
  assert (C : forall p, forallb (fun c => negb (isControl c)) p = true ->
                        controlFree p).
  { intros p H. apply Forall_forall. intros c Hc.
    rewrite forallb_forall in H. now apply negb_true_iff, H. }
  split; [|split; [|split]].
  - destruct (stripAnsi_removes_sequences (js "Hello ") (js "1;32") []
                (js "world") 109 80) as [E _];
      [now apply C | now apply D | reflexivity | now apply C | reflexivity |].
    exact E.
  - destruct (stripAnsi_removes_sequences (js "ab") [] (js "0;title")
                (js "cd") 109 80) as [_ [E _]];
      [now apply C | now apply D | reflexivity | now apply C | reflexivity |].
    exact E.
  - destruct (stripAnsi_removes_sequences (js "ab") (js "25") []
                (js "cd") 108 80) as [_ [_ [E _]]];
      [now apply C | now apply D | reflexivity | now apply C | reflexivity |].
    exact E.
  - destruct (stripAnsi_removes_sequences (js "ab") [] (js "0;title")
                (js "cd") 109 80) as [_ [_ [_ E]]];
      [now apply C | now apply D | reflexivity | now apply C | reflexivity |].
    exact E.
Defined.

Lemma replaceFrom_shorter (m : str -> option nat) :
  forall (s : str) (k : nat), length (replaceFrom m [] k s) <= length s.
Proof.
  induction s as [|c s IH]; intros k; cbn [replaceFrom].
  - destruct (m []); cbn; lia.
  - destruct k as [|k]; [|specialize (IH k); cbn [length]; lia].
    destruct (m (c :: s)) as [[|n]|]; cbn [app length];
      [specialize (IH 0) | specialize (IH n) | specialize (IH 0)]; lia.
Qed.

(** X8: the text [stripAnsi] returns holds no control character, so
    stripping it again changes nothing; and it is never longer than the
    text given. *)
Theorem stripAnsi_idempotent (s : str) :
  controlFree (stripAnsi s)
  /\ stripAnsi (stripAnsi s) = stripAnsi s
  /\ length (stripAnsi s) <= length s.
Proof.
  split; [apply stripAnsi_output|].
  split; [apply stripAnsi_controlFree, stripAnsi_output|].
  unfold stripAnsi, replaceAll.
  repeat (etransitivity; [apply replaceFrom_shorter|]). reflexivity.
Qed.

(** ** The shape of a cleaned text *)

Lemma singleSpaced_cons (c : N) (s : str) :
  singleSpaced (c :: s) =
  match s with
  | d :: _ => (negb (isSpace c && isSpace d) && singleSpaced s)%bool
  | [] => true
  end.
Proof. reflexivity. Qed.

Lemma collapse_single (n : nat) :
  forall s, length s <= n ->
            singleSpaced (replaceAll reSpaces [32%N] s) = true.
Proof.
  induction n as [|n IH]; intros s L.
  - destruct s; [reflexivity | simpl in L; lia].
  - destruct s as [|c s]; [reflexivity|].
    rewrite collapse_cons. cbn [length] in L.
    destruct (isSpace c) eqn:E.
    + pose proof (dropWhile_length isSpace s) as Hl.
      rewrite singleSpaced_cons.
      destruct (dropWhile isSpace s) as [|h t] eqn:Ed; [reflexivity|].
      pose proof (dropWhile_head isSpace s h t Ed) as Hh.
      specialize (IH (h :: t) ltac:(lia)).
      rewrite collapse_cons, Hh in IH |- *.
      now rewrite Hh, andb_false_r, IH.
    + rewrite singleSpaced_cons.
      specialize (IH s ltac:(lia)).
      destruct (replaceAll reSpaces [32%N] s) as [|d r]; [reflexivity|].
      now rewrite E, IH.
Qed.

Lemma singleSpaced_tail (c : N) (s : str) :
  singleSpaced (c :: s) = true -> singleSpaced s = true.
Proof.
  rewrite singleSpaced_cons. destruct s as [|d r]; [reflexivity|].
  intros H. now apply andb_true_iff in H.
Qed.

Lemma singleSpaced_dropWhile (p : N -> bool) (s : str) :
  singleSpaced s = true -> singleSpaced (dropWhile p s) = true.
Proof.
  induction s as [|c s IH]; [trivial|]. intros H. cbn [dropWhile].
  destruct (p c); [|exact H]. now apply IH, singleSpaced_tail with c.
Qed.

Lemma singleSpaced_prefix (a b : str) :
  singleSpaced (a ++ b) = true -> singleSpaced a = true.
Proof.
  induction a as [|c a IH]; [reflexivity|]. cbn [app]. intros H.
  pose proof (singleSpaced_tail _ _ H) as Ht.
  rewrite singleSpaced_cons in H |- *.
  destruct a as [|d a]; [reflexivity|]. cbn [app] in H.
  apply andb_true_iff in H. destruct H as [H _].
  now rewrite H, (IH Ht).
Qed.

(** Trimming the right end gives a prefix. *)
Lemma trimEnd_prefix (s : str) :
  exists t, s = rev (dropWhile isSpace (rev s)) ++ t.
Proof.
  exists (rev (takeWhile isSpace (rev s))).
  rewrite <- rev_app_distr.
  assert (E : forall l, takeWhile isSpace l ++ dropWhile isSpace l = l).
  { induction l as [|c l IH]; [reflexivity|]. cbn.
    destruct (isSpace c); cbn; [now rewrite IH | reflexivity]. }
  now rewrite E, rev_involutive.
Qed.

(** X9: the text [speakText] makes of its argument is normalised: it does
    not start and does not end with white space, it holds no two
    white-space code units side by side, and the only white space in it
    is the plain space. *)
Theorem cleanText_normalised (text : str) :
  (forall c r, cleanText text = c :: r -> isSpace c = false)
  /\ (forall r c, cleanText text = r ++ [c] -> isSpace c = false)
  /\ singleSpaced (cleanText text) = true
  /\ Forall (fun c => c = 32%N \/ isSpace c = false) (cleanText text).
Proof.
  unfold cleanText at 1 2 3. unfold trim.
  set (Y := replaceAll reSpaces [32%N] _).
  destruct (trimEnd_prefix (dropWhile isSpace Y)) as [t Et].
  split; [|split; [|split]].
  - intros c r E. rewrite E in Et. cbn [app] in Et.
    now apply (dropWhile_head isSpace Y c (r ++ t)).
  - intros r c E. apply (f_equal (@rev N)) in E.
    rewrite rev_involutive, rev_app_distr in E. cbn [rev app] in E.
    now apply (dropWhile_head isSpace _ c (rev r) E).
  - apply (singleSpaced_prefix _ t). rewrite <- Et.
    apply singleSpaced_dropWhile. unfold Y.
    now apply (collapse_single (length (replaceAll reNewlines [32%N]
                                          (replaceAll reCSI [] text)))).
  - apply cleanText_spaces.
Qed.

(** ** The cleaned text, step by step *)

Lemma newline_space (c : N) : isNewline c = true -> isSpace c = true.
Proof.
  unfold isNewline. intros H. apply orb_true_iff in H.
  destruct H as [H | H]; apply N.eqb_eq in H; subst c; reflexivity.
Qed.

Lemma ink_not_newline (c : N) : isSpace c = false -> isNewline c = false.
Proof.
  intros H. destruct (isNewline c) eqn:E; [|reflexivity].
  apply newline_space in E. congruence.
Qed.

Lemma space_noESC (c : N) : isSpace c = true -> N.eqb 27 c = false.
Proof.
  intros H. destruct (N.eqb_spec 27 c) as [<- |]; [|reflexivity].
  vm_compute in H. discriminate H.
Qed.

Lemma dropWhile_app_stop (p : N -> bool) (rest : str) :
  (forall c r, rest = c :: r -> p c = false) ->
  forall g, dropWhile p (g ++ rest) = dropWhile p g ++ rest.
Proof.
  intros H. induction g as [|c g IH]; cbn.
  - destruct rest as [|c r]; [reflexivity|]. cbn. now rewrite (H c r eq_refl).
  - destruct (p c); [exact IH | reflexivity].
Qed.

Lemma dropWhile_all (p : N -> bool) (g : str) :
  Forall (fun c => p c = true) g -> dropWhile p g = [].
Proof.
  induction 1 as [|c g Hc Hg IH]; cbn; [reflexivity|]. now rewrite Hc.
Qed.

(** What a replacement keeps and what it puts in satisfy [P]. *)
Lemma replaceFrom_keeps (m : str -> option nat) (rep : str) (P : N -> Prop) :
  Forall P rep ->
  forall s k, Forall P s -> Forall P (replaceFrom m rep k s).
Proof.
  intros Hrep. induction s as [|c s IH]; intros k Hs; cbn.
  - destruct (m []); [assumption | constructor].
  - inversion Hs as [|c' s' Hc Hs']; subst.
    destruct k as [|k]; [|now apply IH].
    destruct (m (c :: s)) as [[|n]|].
    + apply Forall_app. split; [assumption|].
      constructor; [assumption | now apply IH].
    + apply Forall_app. split; [assumption | now apply IH].
    + constructor; [assumption | now apply IH].
Qed.

(** Line ends are replaced run by run. *)
Lemma newlines_cons (c : N) (s : str) :
  replaceAll reNewlines [32%N] (c :: s) =
  if isNewline c
  then 32%N :: replaceAll reNewlines [32%N] (dropWhile isNewline s)
  else c :: replaceAll reNewlines [32%N] s.
Proof.
  unfold replaceAll. cbn [replaceFrom]. unfold reNewlines at 1.
  cbn [takeWhile]. destruct (isNewline c).
  - cbn [length app]. now rewrite replaceFrom_skip.
  - reflexivity.
Qed.

Lemma newlines_app (rest : str) :
  (forall c r, rest = c :: r -> isNewline c = false) ->
  forall n g, length g <= n ->
  replaceAll reNewlines [32%N] (g ++ rest) =
  replaceAll reNewlines [32%N] g ++ replaceAll reNewlines [32%N] rest.
Proof.
  intros H. induction n as [|n IH]; intros g L.
  - destruct g; [reflexivity | simpl in L; lia].
  - destruct g as [|c g]; [reflexivity|]. cbn [app]. rewrite !newlines_cons.
    cbn [length] in L. destruct (isNewline c).
    + rewrite (dropWhile_app_stop isNewline rest H g).
      rewrite IH; [reflexivity|].
      pose proof (dropWhile_length isNewline g). lia.
    + rewrite IH by lia. reflexivity.
Qed.

Lemma newlines_nonempty (g : str) :
  g <> [] -> replaceAll reNewlines [32%N] g <> [].
Proof.
  destruct g as [|c g]; [congruence|]. intros _. rewrite newlines_cons.
  destruct (isNewline c); discriminate.
Qed.

Lemma newlines_white (g : str) :
  whiteSpace g -> whiteSpace (replaceAll reNewlines [32%N] g).
Proof.
  intros H. apply replaceFrom_keeps; [|exact H].
  constructor; [reflexivity | constructor].
Qed.

Lemma newlines_word (w rest : str) :
  Forall (fun c => isSpace c = false /\ N.eqb 27 c = false) w ->
  replaceAll reNewlines [32%N] (w ++ rest) =
  w ++ replaceAll reNewlines [32%N] rest.
Proof.
  intros H. unfold replaceAll.
  apply (replaceFrom_prefix reNewlines [32%N]
           (fun c => isSpace c = false /\ N.eqb 27 c = false)); [|exact H].
  intros c s [Hc _]. unfold reNewlines. cbn [takeWhile].
  now rewrite (ink_not_newline c Hc).
Qed.

Lemma collapse_word (w rest : str) :
  Forall (fun c => isSpace c = false /\ N.eqb 27 c = false) w ->
  replaceAll reSpaces [32%N] (w ++ rest) =
  w ++ replaceAll reSpaces [32%N] rest.
Proof.
  intros H. unfold replaceAll.
  apply (replaceFrom_prefix reSpaces [32%N]
           (fun c => isSpace c = false /\ N.eqb 27 c = false)); [|exact H].
  intros c s [Hc _]. unfold reSpaces. cbn [takeWhile]. now rewrite Hc.
Qed.

Lemma word_head (w rest : str) :
  isWord w -> forall c r, w ++ rest = c :: r -> isSpace c = false.
Proof.
  intros [Hn Hw] c r E. destruct w as [|x w]; [congruence|].
  cbn in E. injection E as <- _. inversion Hw; subst. tauto.
Qed.

Lemma word_last (w : str) :
  isWord w -> forall c r, rev w = c :: r -> isSpace c = false.
Proof.
  intros [_ Hw] c r E.
  assert (Hin : In c w) by (apply in_rev; rewrite E; now left).
  rewrite Forall_forall in Hw. now apply Hw.
Qed.

Lemma rev_head_app (a b : str) :
  b <> [] -> forall c r, rev (a ++ b) = c :: r -> exists r', rev b = c :: r'.
Proof.
  intros Hb c r E. rewrite rev_app_distr in E.
  destruct (rev b) as [|x t] eqn:Eb.
  - apply (f_equal (@rev N)) in Eb. rewrite rev_involutive in Eb.
    cbn in Eb. congruence.
  - cbn in E. injection E as <- _. now exists t.
Qed.

Lemma regap_spaced (f : str -> str) (ws : list (list N * list N)) :
  (forall g, g <> [] -> whiteSpace g -> f g <> [] /\ whiteSpace (f g)) ->
  spacedWords ws -> spacedWords (regap f ws).
Proof.
  intros Hf. induction 1 as [|[g w] ws [Hg [Hs Hw]] Hws IH]; constructor.
  - cbn [fst snd] in *. destruct (Hf g Hg Hs). tauto.
  - exact IH.
Qed.

Lemma regap_const (v : str) (h : str -> str) (ws : list (list N * list N)) :
  regap (fun _ => v) (regap h ws) = regap (fun _ => v) ws.
Proof. unfold regap. rewrite map_map. reflexivity. Qed.

Lemma gapped_noESC (ws : list (list N * list N)) :
  spacedWords ws -> Forall (fun c => N.eqb 27 c = false) (gapped ws).
Proof.
  induction 1 as [|[g w] ws [Hg [Hs [_ Hw]]] Hws IH]; [constructor|].
  cbn [gapped fst snd] in *. apply Forall_app. split.
  - eapply Forall_impl; [|exact Hs]. apply space_noESC.
  - apply Forall_app. split; [|exact IH].
    eapply Forall_impl; [|exact Hw]. cbn. tauto.
Qed.

Lemma words_last (f : str -> str) (ws : list (list N * list N)) :
  spacedWords ws ->
  forall w, isWord w ->
  forall c r, rev (w ++ gapped (regap f ws)) = c :: r -> isSpace c = false.
Proof.
  induction 1 as [|[g w'] ws [Hg [Hs Hw']] Hws IH]; intros w Hw c r E.
  - cbn in E. rewrite app_nil_r in E. now apply (word_last w Hw c r).
  - cbn [regap map gapped fst snd] in E. fold (regap f ws) in E.
    rewrite (app_assoc w (f g)) in E.
    destruct (rev_head_app (w ++ f g) (w' ++ gapped (regap f ws))) with c r
      as [r' E']; [|exact E|].
    + destruct Hw' as [Hn _]. cbn [snd] in Hn. destruct w'; [congruence|].
      discriminate.
    + now apply (IH w' Hw' c r').
Qed.

Lemma newlines_gapped (ws : list (list N * list N)) :
  spacedWords ws ->
  forall trail,
  replaceAll reNewlines [32%N] (gapped ws ++ trail) =
  gapped (regap (replaceAll reNewlines [32%N]) ws)
  ++ replaceAll reNewlines [32%N] trail.
Proof.
  induction 1 as [|[g w] ws [Hg [Hs Hw]] Hws IH]; intros trail;
    [reflexivity|].
  cbn [regap map gapped fst snd] in *.
  fold (regap (replaceAll reNewlines [32%N]) ws).
  rewrite <- !app_assoc.
  rewrite (newlines_app (w ++ gapped ws ++ trail)) with (n := length g);
    [|intros c r E; apply ink_not_newline;
      now apply (word_head w _ Hw c r E) | apply le_n].
  rewrite (newlines_word w _ (proj2 Hw)). now rewrite IH.
Qed.

Lemma collapse_gap (g rest : str) :
  g <> [] -> whiteSpace g ->
  (forall c r, rest = c :: r -> isSpace c = false) ->
  replaceAll reSpaces [32%N] (g ++ rest) =
  32%N :: replaceAll reSpaces [32%N] rest.
Proof.
  intros Hn Hg Hr. destruct g as [|c g]; [congruence|].
  inversion Hg as [|c' g' Hc Hg']; subst. cbn [app].
  rewrite collapse_cons, Hc.
  rewrite (dropWhile_app_stop isSpace rest Hr g).
  now rewrite (dropWhile_all isSpace g Hg').
Qed.

(** One space for a run of white space, nothing for none. *)
Lemma collapse_white (g : str) :
  whiteSpace g ->
  replaceAll reSpaces [32%N] g = match g with [] => [] | _ => [32%N] end.
Proof.
  intros Hg. destruct g as [|c g]; [reflexivity|].
  inversion Hg as [|c' g' Hc Hg']; subst.
  rewrite collapse_cons, Hc. now rewrite (dropWhile_all isSpace g Hg').
Qed.

Lemma collapse_gapped (ws : list (list N * list N)) :
  spacedWords ws ->
  forall trail, whiteSpace trail ->
  replaceAll reSpaces [32%N] (gapped ws ++ trail) =
  gapped (regap (fun _ => [32%N]) ws) ++ replaceAll reSpaces [32%N] trail.
Proof.
  induction 1 as [|[g w] ws [Hg [Hs Hw]] Hws IH]; intros trail Ht;
    [reflexivity|].
  cbn [regap map gapped fst snd] in *.
  fold (regap (fun _ : str => [32%N]) ws).
  rewrite <- !app_assoc.
  rewrite (collapse_gap g (w ++ gapped ws ++ trail) Hg Hs);
    [|intros c r E; now apply (word_head w _ Hw c r E)].
  rewrite (collapse_word w _ (proj2 Hw)). now rewrite (IH trail Ht).
Qed.

(** Trimming takes the white space off both ends of a text that starts and
    ends with ink. *)
Lemma trim_core (lead body trail : str) :
  whiteSpace lead -> whiteSpace trail -> body <> [] ->
  (forall c r, body = c :: r -> isSpace c = false) ->
  (forall c r, rev body = c :: r -> isSpace c = false) ->
  trim (lead ++ body ++ trail) = body.
Proof.
  intros Hl Ht Hn Hh He. unfold trim.
  rewrite (dropWhile_app_stop isSpace (body ++ trail)).
  - rewrite (dropWhile_all isSpace lead Hl). cbn [app].
    rewrite rev_app_distr.
    rewrite (dropWhile_app_stop isSpace (rev body) He).
    rewrite (dropWhile_all isSpace (rev trail)) by now apply Forall_rev.
    cbn [app]. apply rev_involutive.
  - intros c r E. destruct body as [|x body]; [congruence|].
    cbn in E. injection E as <- _. now apply (Hh x body).
Qed.

(** Words between runs of white space come out with one space between
    them and none at the ends. *)
Lemma cleanText_words (lead w : str) (ws : list (list N * list N))
      (trail : str) :
  whiteSpace lead -> isWord w -> spacedWords ws -> whiteSpace trail ->
  cleanText (lead ++ w ++ gapped ws ++ trail) =
  w ++ gapped (regap (fun _ => [32%N]) ws).
Proof.
  intros Hl Hw Hws Ht. unfold cleanText.
  set (nl := replaceAll reNewlines [32%N]).
  (* no escape sequence to strip *)
  assert (E1 : replaceAll reCSI [] (lead ++ w ++ gapped ws ++ trail) =
               lead ++ w ++ gapped ws ++ trail).
  { destruct reCSI_needsESC as [N0 N1].
    apply (replaceFrom_id reCSI [] (fun c => N.eqb 27 c = false) N0 N1).
    apply Forall_app. split.
    { eapply Forall_impl; [|exact Hl]. apply space_noESC. }
    apply Forall_app. split.
    { eapply Forall_impl; [|exact (proj2 Hw)]. cbn. tauto. }
    apply Forall_app. split; [now apply gapped_noESC|].
    eapply Forall_impl; [|exact Ht]. apply space_noESC. }
  rewrite E1.
  (* line ends become spaces: the text keeps its shape *)
  assert (E2 : nl (lead ++ w ++ gapped ws ++ trail) =
               nl lead ++ w ++ gapped (regap nl ws) ++ nl trail).
  { unfold nl.
    rewrite (newlines_app (w ++ gapped ws ++ trail)) with (n := length lead);
      [|intros c r E; apply ink_not_newline;
        now apply (word_head w _ Hw c r E) | apply le_n].
    rewrite (newlines_word w _ (proj2 Hw)).
    now rewrite (newlines_gapped ws Hws trail). }
  fold nl. rewrite E2.
  assert (Hws2 : spacedWords (regap nl ws)).
  { apply regap_spaced; [|exact Hws]. intros g Hg Hs. split.
    - now apply newlines_nonempty.
    - now apply newlines_white. }
  pose proof (newlines_white lead Hl) as Hl2.
  pose proof (newlines_white trail Ht) as Ht2. fold nl in Hl2, Ht2.
  (* runs of white space become one space *)
  assert (E3 : replaceAll reSpaces [32%N]
                 (nl lead ++ w ++ gapped (regap nl ws) ++ nl trail) =
               replaceAll reSpaces [32%N] (nl lead)
               ++ (w ++ gapped (regap (fun _ => [32%N]) ws))
               ++ replaceAll reSpaces [32%N] (nl trail)).
  { assert (E : replaceAll reSpaces [32%N]
                   (w ++ gapped (regap nl ws) ++ nl trail) =
                 (w ++ gapped (regap (fun _ => [32%N]) ws))
                 ++ replaceAll reSpaces [32%N] (nl trail)).
    { rewrite (collapse_word w _ (proj2 Hw)).
      rewrite (collapse_gapped (regap nl ws) Hws2 (nl trail) Ht2).
      rewrite regap_const. now rewrite app_assoc. }
    rewrite <- E. rewrite (collapse_white _ Hl2).
    destruct (nl lead) as [|c l] eqn:El; [reflexivity|].
    rewrite <- El in *. cbn [app].
    apply collapse_gap; [rewrite El; discriminate | exact Hl2 |].
    intros c' r E'. now apply (word_head w _ Hw c' r E'). }
  rewrite E3.
  (* the ends are trimmed *)
  apply trim_core.
  - rewrite (collapse_white _ Hl2).
    destruct (nl lead); repeat constructor.
  - rewrite (collapse_white _ Ht2).
    destruct (nl trail); repeat constructor.
  - destruct Hw as [Hn _]. destruct w; [congruence | discriminate].
  - intros c r E. now apply (word_head w _ Hw c r E).
  - intros c r E. now apply (words_last (fun _ => [32%N]) ws Hws w Hw c r).
Qed.

(** A colour sequence after text without [ESC] is stripped. *)
Lemma cleanText_csi (a params : str) (final : N) (b : str) :
  Forall (fun c => N.eqb 27 c = false) a ->
  Forall (fun c => isDigitSemi c = true) params -> isAlpha final = true ->
  cleanText (a ++ csi params final ++ b) = cleanText (a ++ b).
Proof.
  intros Ha Hp Hf. unfold cleanText. do 3 f_equal.
  rewrite !(replaceAll_noESC reCSI [] a _ reCSI_needsESC Ha). f_equal.
  unfold csi. rewrite <- !app_assoc. cbn [app].
  rewrite (replaceAll_found reCSI [] _ _ _ (reCSI_csi params final b Hp Hf)).
  now rewrite skipn_seq1.
Qed.

(** C10: [speakText] leaves the whole state (so the queue) as it is when
    the output is disabled or the cleaned text has fewer than three code
    units; otherwise it pushes exactly the cleaned text at the tail of the
    queue and calls [processQueue]: while a loop is processing that is all
    it does, and from the idle state with an empty queue the text is taken
    off at once and sent to the synthesis.  The cleaned text is the text
    after the three replacements of the source, by its regular expressions
    and in its order, and [trim]: a colour sequence [ESC [[ params letter]
    is stripped; words between runs of white space (line ends included)
    come out with one space between them and none at the ends; and any
    cleaned text starts and ends with ink, holds no two white-space code
    units side by side and no white space but the plain space, so no line
    feed and no carriage return. *)
Theorem speakText_filter (o : Orch) (text : str) :
  (enabledRef o = false \/ length (cleanText text) < 3 ->
   speakText o text = o)
  /\ (enabledRef o = true -> 3 <= length (cleanText text) ->
      speakText o text = processQueue (push o (cleanText text))
      /\ speakQueue (push o (cleanText text)) =
         speakQueue o ++ [cleanText text]
      /\ (isProcessing o = true ->
          speakText o text = push o (cleanText text))
      /\ (isProcessing o = false -> speakQueue o = [] ->
          speakQueue (speakText o text) = []
          /\ trace (speakText o text) =
             trace o ++ [SynthCall (nextReq o) (cleanText text)]))
  /\ cleanText text =
     trim (replaceAll (matchLen rxSpaces) [32%N]
             (replaceAll (matchLen rxNewlines) [32%N]
                (replaceAll (matchLen rxCSI) [] text)))
  /\ (forall a params final b,
         text = a ++ csi params final ++ b ->
         Forall (fun c => N.eqb 27 c = false) a ->
         Forall (fun c => isDigitSemi c = true) params ->
         isAlpha final = true ->
         cleanText text = cleanText (a ++ b))
  /\ (forall lead w ws trail,
         text = lead ++ w ++ gapped ws ++ trail ->
         whiteSpace lead -> isWord w -> spacedWords ws -> whiteSpace trail ->
         cleanText text = w ++ gapped (regap (fun _ => [32%N]) ws))
  /\ (forall c r, cleanText text = c :: r -> isSpace c = false)
  /\ (forall r c, cleanText text = r ++ [c] -> isSpace c = false)
  /\ singleSpaced (cleanText text) = true
  /\ Forall (fun c => c = 32%N \/ isSpace c = false) (cleanText text)
  /\ ~ In 10%N (cleanText text) /\ ~ In 13%N (cleanText text).
Proof.
  split; [|split; [|split; [|split; [|split]]]].
  - unfold speakText. intros [H | H].
    + now rewrite H.
    + destruct (negb (enabledRef o)); [reflexivity|].
      apply Nat.ltb_lt in H. now rewrite H.
  - intros He Hl. rewrite (speakText_accepts o text He Hl).
    split; [reflexivity | split; [reflexivity | split]].
    + intros Hp. unfold processQueue. simpl. now rewrite Hp.
    + intros Hp Hq. rewrite <- (speakText_accepts o text He Hl).
      rewrite (speakText_idle o text He Hl Hp Hq). now split.
  - apply cleanText_regex.
  - intros a params final b -> Ha Hp Hf. now apply cleanText_csi.
  - intros lead w ws trail -> Hl Hw Hws Ht. now apply cleanText_words.
  - pose proof (cleanText_spaces text) as F.
    assert (Hn : forall c, In c (cleanText text) -> c <> 10%N /\ c <> 13%N).
    { intros c Hin. rewrite Forall_forall in F.
      destruct (F c Hin) as [-> | E]; [split; discriminate|].
      split; intros ->; discriminate E. }
    unfold cleanText at 1 2 3. unfold trim.
    set (Y := replaceAll reSpaces [32%N] _).
    destruct (trimEnd_prefix (dropWhile isSpace Y)) as [t Et].
    split; [|split; [|split; [|split; [exact F | split]]]].
    + intros c r E. rewrite E in Et. cbn [app] in Et.
      now apply (dropWhile_head isSpace Y c (r ++ t)).
    + intros r c E. apply (f_equal (@rev N)) in E.
      rewrite rev_involutive, rev_app_distr in E. cbn [rev app] in E.
      now apply (dropWhile_head isSpace _ c (rev r) E).
    + apply (singleSpaced_prefix _ t). rewrite <- Et.
      apply singleSpaced_dropWhile. unfold Y.
      now apply (collapse_single (length (replaceAll reNewlines [32%N]
                                            (replaceAll reCSI [] text)))).
    + intros H. now destruct (Hn _ H).
    + intros H. now destruct (Hn _ H).
Qed.

Lemma speakText_filter_witness :
  speakText initial colouredText = initial
  /\ cleanText colouredText = js "Hello world."
  /\ trace (speakText (setEnabled initial true) colouredText) =
     [SynthCall 0 (js "Hello world.")]
  /\ speakQueue (speakText (setEnabled initial true) colouredText) = [].
Proof.
  assert (Hc : cleanText colouredText = js "Hello world.").
  { destruct (speakText_filter initial colouredText)
      as [_ [_ [_ [Hcsi _]]]].
    rewrite (Hcsi (js " Hello ") (js "1;31") 109%N
               (js "  world." ++ [13; 10]%N) eq_refl);
      [|repeat constructor | repeat constructor | reflexivity].
    destruct (speakText_filter initial
                (js " Hello " ++ js "  world." ++ [13; 10]%N))
      as [_ [_ [_ [_ [Hw _]]]]].
    apply (Hw [32%N] (js "Hello") [(js "   ", js "world.")] [13; 10]%N).
    - reflexivity.
    - repeat constructor.
    - split; [discriminate | repeat constructor].
    - constructor; [|constructor]. split; [discriminate|].
      split; [repeat constructor|].
      split; [discriminate | repeat constructor].
    - repeat constructor. }
  destruct (speakText_filter (setEnabled initial true) colouredText)
    as [_ [H _]].
  destruct H as [_ [_ [_ H]]];
    [reflexivity | rewrite Hc; vm_compute; lia |].
  destruct H as [Hq Ht]; [reflexivity | reflexivity |].
  split; [|split; [exact Hc | split; [|exact Hq]]].
  - apply (speakText_filter initial colouredText). now left.
  - rewrite Ht, Hc. reflexivity.
Defined.

(** ** The chunk buffers *)

Lemma mapGet_set (m : Buffers) (k : str) (v : list str) :
  mapGet (mapSet m k v) k = Some v.
Proof.
  induction m as [|[k' v'] m IH]; cbn.
  - assert (E : str_eqb k k = true) by now apply str_eqb_eq.
    now rewrite E.
  - destruct (str_eqb k k') eqn:E; cbn; now rewrite E.
Qed.

Lemma mapGet_set_other (m : Buffers) (k q : str) (v : list str) :
  q <> k -> mapGet (mapSet m k v) q = mapGet m q.
Proof.
  intros Hq. induction m as [|[k' v'] m IH]; cbn.
  - destruct (str_eqb q k) eqn:E; [|reflexivity].
    apply str_eqb_eq in E. contradiction.
  - destruct (str_eqb k k') eqn:E; cbn; [|now rewrite IH].
    apply str_eqb_eq in E. subst k'.
    destruct (str_eqb q k) eqn:E'; [|reflexivity].
    apply str_eqb_eq in E'. contradiction.
Qed.

Lemma mapGet_delete (m : Buffers) (k : str) : mapGet (mapDelete m k) k = None.
Proof.
  induction m as [|[k' v'] m IH]; cbn; [reflexivity|].
  destruct (str_eqb k k') eqn:E; cbn; [exact IH | now rewrite E].
Qed.

Lemma mapGet_delete_other (m : Buffers) (k q : str) :
  q <> k -> mapGet (mapDelete m k) q = mapGet m q.
Proof.
  intros Hq. induction m as [|[k' v'] m IH]; cbn; [reflexivity|].
  destruct (str_eqb k k') eqn:E; cbn.
  - apply str_eqb_eq in E. subst k'.
    destruct (str_eqb q k) eqn:E'; [|exact IH].
    apply str_eqb_eq in E'. contradiction.
  - now rewrite IH.
Qed.

(** The loop leaves the last [MAX_BUFFER_CHUNKS] chunks. *)
Lemma shiftLoop_last (fuel : nat) :
  forall buf, length buf <= fuel ->
              shiftLoop fuel buf = sliceLast MAX_BUFFER_CHUNKS buf.
Proof.
  unfold sliceLast.
  induction fuel as [|fuel IH]; intros buf L.
  - destruct buf; [|cbn in L; lia]. now rewrite skipn_nil.
  - cbn [shiftLoop].
    destruct (Nat.ltb_spec MAX_BUFFER_CHUNKS (length buf)) as [H | H].
    + destruct buf as [|c buf]; [cbn in H; lia|]. cbn [tl length] in *.
      rewrite IH by lia.
      replace (S (length buf) - MAX_BUFFER_CHUNKS)
        with (S (length buf - MAX_BUFFER_CHUNKS)) by lia.
      reflexivity.
    + replace (length buf - MAX_BUFFER_CHUNKS) with 0 by lia. reflexivity.
Qed.

Lemma pushChunk_last (buf : list str) (data : str) :
  pushChunk buf data = sliceLast MAX_BUFFER_CHUNKS (buf ++ [data]).
Proof. unfold pushChunk. now apply shiftLoop_last. Qed.

Lemma sliceLast_length {A : Type} (n : nat) (l : list A) :
  length (sliceLast n l) <= n.
Proof. unfold sliceLast. rewrite length_skipn. lia. Qed.

Lemma sliceLast_app {A : Type} (n : nat) (a c : list A) :
  sliceLast n (sliceLast n a ++ c) = sliceLast n (a ++ c).
Proof.
  unfold sliceLast. rewrite !length_app, length_skipn.
  destruct (Nat.le_gt_cases (length a) n) as [H | H].
  - replace (length a - n) with 0 by lia. cbn [skipn].
    now replace (length a - 0) with (length a) by lia.
  - replace (length a - (length a - n)) with n by lia.
    replace (length a + length c - n)
      with ((n + length c - n) + (length a - n)) by lia.
    rewrite <- (skipn_skipn (n + length c - n) (length a - n) (a ++ c)).
    rewrite (skipn_app (length a - n) a c).
    replace (length a - n - length a) with 0 by lia. reflexivity.
Qed.

Lemma storeData_fold (ptyId : str) (cs : list str) :
  forall m buf,
  mapGet m ptyId = Some buf ->
  mapGet (fold_left (storeData ptyId) cs m) ptyId
  = Some (fold_left pushChunk cs buf)
  /\ forall q, q <> ptyId ->
               mapGet (fold_left (storeData ptyId) cs m) q = mapGet m q.
Proof.
  induction cs as [|c cs IH]; intros m buf H; [now split|].
  cbn [fold_left]. unfold storeData at 2 4. rewrite H.
  destruct (IH (mapSet m ptyId (pushChunk buf c)) (pushChunk buf c)
               (mapGet_set _ _ _)) as [E1 E2].
  split; [exact E1|].
  intros q Hq. rewrite (E2 q Hq). now apply mapGet_set_other.
Qed.

Lemma pushChunk_fold (cs : list str) :
  forall buf, cs <> [] ->
  fold_left pushChunk cs buf = sliceLast MAX_BUFFER_CHUNKS (buf ++ cs).
Proof.
  induction cs as [|c cs IH]; intros buf H; [congruence|].
  cbn [fold_left]. rewrite pushChunk_last.
  destruct cs as [|c' cs]; [reflexivity|].
  rewrite IH by discriminate. rewrite sliceLast_app.
  now rewrite <- app_assoc.
Qed.

(** X10: a terminal that has a buffer keeps the chunks it receives, the
    most recent [MAX_BUFFER_CHUNKS] = 5000 of them: after one chunk or more
    the buffer is the tail of the old buffer followed by the chunks, never
    longer than 5000, and the buffers of the other terminals are as they
    were. *)
Theorem buffer_keeps_latest_chunks
        (m : Buffers) (ptyId : str) (buf cs : list str) :
  mapGet m ptyId = Some buf -> cs <> [] ->
  mapGet (fold_left (storeData ptyId) cs m) ptyId
  = Some (sliceLast 5000 (buf ++ cs))
  /\ length (sliceLast 5000 (buf ++ cs)) <= 5000
  /\ (length (buf ++ cs) <= 5000 -> sliceLast 5000 (buf ++ cs) = buf ++ cs)
  /\ forall q, q <> ptyId ->
               mapGet (fold_left (storeData ptyId) cs m) q = mapGet m q.
Proof.
  intros H Hc. destruct (storeData_fold ptyId cs m buf H) as [E1 E2].
  rewrite E1, (pushChunk_fold cs buf Hc).
  split; [reflexivity|]. split; [apply sliceLast_length|].
  split; [|exact E2].
  intros L. unfold sliceLast.
  now replace (length (buf ++ cs) - 5000) with 0 by lia.
Qed.

Lemma buffer_keeps_latest_chunks_witness :
  mapGet (fold_left (storeData (js "pty-1")) [js "a"; js "b"]
            (ensureBuffer [] (js "pty-1"))) (js "pty-1")
  = Some [js "a"; js "b"].
Proof.
  destruct (buffer_keeps_latest_chunks (ensureBuffer [] (js "pty-1"))
              (js "pty-1") [] [js "a"; js "b"]) as [E _].
  - reflexivity.
  - discriminate.
  - exact E.
Defined.

(** X11: a terminal without a buffer stores nothing: once
    [clearTerminalBuffer] has run, the chunks that still arrive for the
    terminal are dropped and the map stays as it is, and a mount after it
    starts from an empty buffer, with nothing to replay; the buffers of
    the other terminals are not touched by the clearing. *)
Theorem cleared_buffer_stores_nothing
        (m : Buffers) (ptyId : str) (cs : list str) :
  fold_left (storeData ptyId) cs (clearTerminalBuffer m ptyId)
  = clearTerminalBuffer m ptyId
  /\ replayWrites (clearTerminalBuffer m ptyId) ptyId = []
  /\ forall q, q <> ptyId ->
               mapGet (clearTerminalBuffer m ptyId) q = mapGet m q.
Proof.
  unfold clearTerminalBuffer. split; [|split].
  - induction cs as [|c cs IH]; [reflexivity|]. cbn [fold_left].
    unfold storeData at 2. now rewrite mapGet_delete.
  - unfold replayWrites, ensureBuffer.
    now rewrite mapGet_delete, mapGet_set.
  - intros q Hq. now apply mapGet_delete_other.
Qed.

(** ** The markers on the screen *)

Lemma matchK_Empty (fuel whole : nat) (s : str) (k : str -> option str) :
  matchK fuel whole Empty s k = k s.
Proof. now destruct fuel. Qed.

(** The matcher is the regular expression of the source. *)
Lemma reMarker_regex (s : str) : reMarker s = matchLen rxMarker s.
Proof.
  unfold matchLen, matchAt, rxMarker, reMarker.
  rewrite matchK_Cat, matchK_Class.
  destruct s as [|c s]; [reflexivity|].
  destruct (N.eqb 171 c); [|reflexivity].
  rewrite matchK_Cat, matchK_Or, matchK_Class, matchK_Empty, !matchK_lit.
  set (T := js "tts" ++ [187%N]).
  destruct s as [|d s]; [reflexivity|].
  cbn [startsWith]. cbv beta iota. rewrite ?matchK_lit. fold T.
  destruct (N.eqb 47 d) eqn:E47; cbn [andb].
  - destruct (startsWith T s) eqn:E.
    + f_equal. apply startsWith_app in E. destruct E as [r ->].
      rewrite skipn_app_exact. cbn [length]. rewrite length_app.
      change (length T) with 4. lia.
    + apply N.eqb_eq in E47. subst d. reflexivity.
  - destruct (startsWith T (d :: s)) eqn:E; [|reflexivity].
    f_equal. apply startsWith_app in E. destruct E as [r E].
    rewrite E, skipn_app_exact. cbn [length]. rewrite length_app.
    change (length T) with 4. lia.
Qed.

Lemma reMarker_cases (s : str) :
  reMarker s = if startsWith CLOSE s then Some 6
               else if startsWith OPEN s then Some 5 else None.
Proof.
  destruct s as [|c s]; [reflexivity|].
  unfold reMarker, CLOSE, OPEN. cbn [startsWith].
  destruct (N.eqb 171 c); reflexivity.
Qed.

Lemma reMarker_needs_guillemet (c : N) (s : str) :
  N.eqb 171 c = false -> reMarker (c :: s) = None.
Proof. intros H. unfold reMarker. now rewrite H. Qed.

Lemma displayData_prefix (pre s : str) :
  noGuillemet pre -> displayData (pre ++ s) = pre ++ displayData s.
Proof.
  intros H. unfold displayData, replaceAll.
  apply (replaceFrom_prefix reMarker [] (fun c => N.eqb 171 c = false));
    [|exact H].
  intros c r Hc. now apply reMarker_needs_guillemet.
Qed.

Lemma displayData_plain (s : str) : noGuillemet s -> displayData s = s.
Proof.
  intros H. rewrite <- (app_nil_r s) at 1.
  rewrite (displayData_prefix s [] H). cbn. now rewrite app_nil_r.
Qed.

Lemma displayData_OPEN (s : str) : displayData (OPEN ++ s) = displayData s.
Proof.
  unfold displayData.
  change (OPEN ++ s) with (171%N :: 116%N :: 116%N :: 115%N :: 187%N :: s).
  now rewrite (replaceAll_found reMarker [] 171
                 (116%N :: 116%N :: 115%N :: 187%N :: s) 4 eq_refl).
Qed.

Lemma displayData_CLOSE (s : str) : displayData (CLOSE ++ s) = displayData s.
Proof.
  unfold displayData.
  change (CLOSE ++ s)
    with (171%N :: 47%N :: 116%N :: 116%N :: 115%N :: 187%N :: s).
  now rewrite (replaceAll_found reMarker [] 171
                 (47%N :: 116%N :: 116%N :: 115%N :: 187%N :: s) 5 eq_refl).
Qed.

(** X12: the markers of a tagged text do not reach the screen: for texts
    without the left guillemet around and inside a tag, what is written to
    the terminal is the chunk without the two markers, the tagged text
    still in its place. *)
Theorem markers_hidden_on_screen (pre inner post : str) :
  noGuillemet pre -> noGuillemet inner -> noGuillemet post ->
  displayData (pre ++ OPEN ++ inner ++ CLOSE ++ post) = pre ++ inner ++ post.
Proof.
  intros H1 H2 H3.
  rewrite (displayData_prefix pre _ H1), displayData_OPEN.
  rewrite (displayData_prefix inner _ H2), displayData_CLOSE.
  now rewrite (displayData_plain post H3).
Qed.

Lemma markers_hidden_on_screen_witness :
  displayData (js "> " ++ OPEN ++ js "Hello world." ++ CLOSE ++ js " ok")
  = js "> Hello world. ok".
Proof.
  assert (G : forall p, forallb (fun c => negb (N.eqb 171 c)) p = true ->
                        noGuillemet p).
  { intros p H. apply Forall_forall. intros c Hc.
    rewrite forallb_forall in H. now apply negb_true_iff, H. }
  apply (markers_hidden_on_screen (js "> ") (js "Hello world.") (js " ok"));
    now apply G.
Defined.

Ltac split_marker H :=
  repeat match type of H with
         | (?x :: _) ++ _ = _ => cbn [app] in H
         | [] ++ ?b = _ => cbn [app] in H; subst b
         | ?a ++ _ = _ :: _ => destruct a
         | ?a ++ _ = [] => destruct a
         | _ :: _ = _ :: _ =>
             let E := fresh "E" in injection H as E H; subst
         | _ :: _ = [] => discriminate H
         end.

Lemma split_display (pre post a b : str) :
  noGuillemet pre -> noGuillemet post -> displayData a = a -> noGuillemet b ->
  displayData (pre ++ a) ++ displayData (b ++ post) = pre ++ a ++ b ++ post.
Proof.
  intros H1 H2 Ha Hb.
  rewrite (displayData_prefix pre a H1), Ha.
  rewrite (displayData_prefix b post Hb), (displayData_plain post H2).
  now rewrite <- app_assoc.
Qed.

(** X13: the markers are taken out chunk by chunk, so a marker that
    arrives in two chunks is written to the screen: with the opening or
    the closing marker cut anywhere inside, both pieces are displayed as
    they are, while the same text in one chunk is displayed without the
    marker. *)
Theorem split_marker_reaches_screen (pre post a b : str) :
  noGuillemet pre -> noGuillemet post ->
  a <> [] -> b <> [] -> a ++ b = OPEN \/ a ++ b = CLOSE ->
  displayData (pre ++ a) ++ displayData (b ++ post) = pre ++ a ++ b ++ post
  /\ displayData (pre ++ a ++ b ++ post) = pre ++ post.
Proof.
  intros H1 H2 Ha Hb H. split.
  - apply split_display; trivial; destruct H as [H | H];
      unfold OPEN, CLOSE in H; split_marker H;
      try congruence; try reflexivity;
      repeat constructor.
  - rewrite (displayData_prefix pre _ H1), app_assoc.
    destruct H as [-> | ->];
      [rewrite displayData_OPEN | rewrite displayData_CLOSE];
      now rewrite (displayData_plain post H2).
Qed.

Lemma split_marker_reaches_screen_witness :
  displayData (js "Hi " ++ [171; 116]%N)
  ++ displayData ([116; 115; 187]%N ++ js "there")
  = js "Hi " ++ OPEN ++ js "there".
Proof.
  assert (G : forall p, forallb (fun c => negb (N.eqb 171 c)) p = true ->
                        noGuillemet p).
  { intros p H. apply Forall_forall. intros c Hc.
    rewrite forallb_forall in H. now apply negb_true_iff, H. }
  destruct (split_marker_reaches_screen (js "Hi ") (js "there")
              [171; 116]%N [116; 115; 187]%N) as [E _].
  - now apply G.
  - now apply G.
  - discriminate.
  - discriminate.
  - now left.
  - exact E.
Defined.

Lemma replaceFrom_strict (m : str -> option nat) :
  m [] = None -> (forall t, m t <> Some 0) ->
  forall s, anywhere (fun t => match m t with Some _ => true | None => false end)
                     s = true ->
            length (replaceFrom m [] 0 s) < length s.
Proof.
  intros Hnil Hpos. induction s as [|c s IH]; intros H.
  - cbn in H. now rewrite Hnil in H.
  - cbn [anywhere] in H. cbn [replaceFrom].
    destruct (m (c :: s)) as [[|n]|] eqn:E.
    + now elim (Hpos (c :: s)).
    + cbn [app length]. pose proof (replaceFrom_shorter m s n). lia.
    + cbn [orb] in H. cbn [length]. specialize (IH H). lia.
Qed.

Lemma replaceFrom_none (m : str -> option nat) (rep : str) :
  forall s, anywhere (fun t => match m t with Some _ => true | None => false end)
                     s = false ->
            replaceFrom m rep 0 s = s.
Proof.
  induction s as [|c s IH]; intros H; cbn [anywhere] in H;
    apply orb_false_iff in H; destruct H as [H1 H2]; cbn [replaceFrom].
  - now destruct (m []).
  - destruct (m (c :: s)); [discriminate|]. now rewrite (IH H2).
Qed.

Lemma marker_anywhere (s : str) :
  anywhere (fun t => match reMarker t with Some _ => true | None => false end) s
  = (includes OPEN s || includes CLOSE s)%bool.
Proof.
  unfold includes. induction s as [|c s IH]; [reflexivity|].
  cbn [anywhere]. rewrite IH, reMarker_cases.
  destruct (startsWith CLOSE (c :: s)), (startsWith OPEN (c :: s));
    cbn [orb]; rewrite ?orb_true_r; reflexivity.
Qed.

Lemma reMarker_positive (t : str) : reMarker t <> Some 0.
Proof.
  rewrite reMarker_cases.
  destruct (startsWith CLOSE t), (startsWith OPEN t); discriminate.
Qed.

Lemma display_shorter (data : str) :
  includes OPEN data = true \/ includes CLOSE data = true ->
  length (displayData data) < length data.
Proof.
  intros H. apply (replaceFrom_strict reMarker eq_refl reMarker_positive).
  rewrite marker_anywhere. apply orb_true_iff. exact H.
Qed.

Lemma display_unchanged (data : str) :
  displayData data = data
  <-> includes OPEN data = false /\ includes CLOSE data = false.
Proof.
  split.
  - intros E.
    destruct (includes OPEN data) eqn:E1;
      [pose proof (display_shorter data) as Hlt; rewrite E1, E in Hlt;
       specialize (Hlt (or_introl eq_refl)); lia|].
    destruct (includes CLOSE data) eqn:E2;
      [pose proof (display_shorter data) as Hlt; rewrite E2, E in Hlt;
       specialize (Hlt (or_intror eq_refl)); lia|].
    now split.
  - intros [E1 E2]. apply replaceFrom_none.
    now rewrite marker_anywhere, E1, E2.
Qed.

(** X14: a chunk is written to the screen unchanged exactly when it holds
    neither marker; a chunk that holds one is written shorter than it
    came. *)
Theorem display_unchanged_iff_no_marker (data : str) :
  (displayData data = data
   <-> includes OPEN data = false /\ includes CLOSE data = false)
  /\ (includes OPEN data = true \/ includes CLOSE data = true ->
      length (displayData data) < length data).
Proof. split; [apply display_unchanged | apply display_shorter]. Qed.

(** X15: what a remount writes to the terminal is what the terminal
    received, not what it displayed: with up to 5000 chunks received since
    the buffer was made, the replay writes exactly these chunks, markers
    included, and that is the text displayed before the remount only if no
    chunk held a marker. *)
Theorem replay_writes_raw_chunks (m : Buffers) (ptyId : str) (cs : list str) :
  mapGet m ptyId = Some [] -> length cs <= 5000 ->
  replayWrites (fold_left (storeData ptyId) cs m) ptyId = cs
  /\ (map displayData cs = cs
      <-> forall c, In c cs ->
                    includes OPEN c = false /\ includes CLOSE c = false).
Proof.
  intros H L. split.
  - destruct (storeData_fold ptyId cs m [] H) as [E _].
    unfold replayWrites, ensureBuffer. rewrite E, E.
    destruct cs as [|c cs]; [reflexivity|].
    rewrite pushChunk_fold by discriminate. cbn [app].
    unfold sliceLast.
    now replace (length (c :: cs) - MAX_BUFFER_CHUNKS) with 0
      by (unfold MAX_BUFFER_CHUNKS; lia).
  - clear H L. induction cs as [|c cs IH]; [now split|].
    cbn [map]. split.
    + intros E. injection E as E1 E2. intros x [<- | Hx].
      * now apply display_unchanged.
      * now apply IH.
    + intros Hall. f_equal.
      * apply display_unchanged, Hall. now left.
      * apply IH. intros x Hx. apply Hall. now right.
Qed.

Lemma replay_writes_raw_chunks_witness :
  replayWrites (fold_left (storeData (js "pty-1"))
                  [OPEN ++ js "Hello world." ++ CLOSE]
                  (ensureBuffer [] (js "pty-1"))) (js "pty-1")
  = [OPEN ++ js "Hello world." ++ CLOSE].
Proof.
  destruct (replay_writes_raw_chunks (ensureBuffer [] (js "pty-1"))
              (js "pty-1") [OPEN ++ js "Hello world." ++ CLOSE]) as [E _].
  - reflexivity.
  - cbn. lia.
  - exact E.
Defined.

(** ** The voice manager *)

Lemma whisperModel_eqb_eq (a b : WhisperModelName) :
  whisperModel_eqb a b = true <-> a = b.
Proof. destruct a, b; split; intros H; try reflexivity; discriminate. Qed.

Lemma filter_hd {A : Type} (p : A -> bool) (l : list A) (x : A) :
  hd_error (filter p l) = Some x -> p x = true.
Proof.
  intros H. assert (Hin : In x (filter p l)).
  { destruct (filter p l); [discriminate|]. injection H as ->. now left. }
  now apply filter_In in Hin.
Qed.

Lemma installedWhisper_In (existsSync : list str -> bool)
      (m : WhisperModelName) :
  In m (getInstalledWhisperModels existsSync) ->
  isWhisperModelInstalled existsSync m = true.
Proof.
  unfold getInstalledWhisperModels.
  destruct (negb (existsSync whisperModelsDir)); [intros []|].
  intros H. now apply filter_In in H.
Qed.

Lemma installedWhisper_all (existsSync : list str -> bool)
      (m : WhisperModelName) :
  parentsExist existsSync ->
  isWhisperModelInstalled existsSync m = true ->
  In m (getInstalledWhisperModels existsSync).
Proof.
  intros Hfs H. unfold getInstalledWhisperModels.
  rewrite (Hfs whisperModelsDir (whisperFile m) H). cbn [negb].
  apply filter_In. split; [|exact H]. destruct m; cbn; tauto.
Qed.

Lemma existsb_whisper (m : WhisperModelName) (l : list WhisperModelName) :
  existsb (whisperModel_eqb m) l = true <-> In m l.
Proof.
  rewrite existsb_exists. split.
  - intros [x [Hin E]]. apply whisperModel_eqb_eq in E. now subst.
  - intros H. exists m. split; [exact H | now apply whisperModel_eqb_eq].
Qed.

(** X16: [checkWhisper] never reports a model that is not on disk: the
    current model of the status is an installed one, it is the manager's
    own model whenever that one is installed, it is [null] exactly when no
    model is installed, and the list holds exactly the installed models. *)
Theorem checkWhisper_reports_installed
        (existsSync : list str -> bool) (vm : Manager) :
  parentsExist existsSync ->
  let status := checkWhisper existsSync vm in
  (forall m, currentModel status = Some m ->
             isWhisperModelInstalled existsSync m = true)
  /\ (isWhisperModelInstalled existsSync (currentWhisperModel vm) = true ->
      currentModel status = Some (currentWhisperModel vm))
  /\ (currentModel status = None <-> whisperInstalled status = false)
  /\ (whisperInstalled status = false
      <-> forall m, isWhisperModelInstalled existsSync m = false)
  /\ (forall m, In m (whisperModels status)
                <-> isWhisperModelInstalled existsSync m = true).
Proof.
  intros Hfs. cbv zeta. unfold checkWhisper.
  cbn [currentModel whisperInstalled whisperModels].
  set (models := getInstalledWhisperModels existsSync).
  assert (Hiff : forall m, In m models
                           <-> isWhisperModelInstalled existsSync m = true).
  { intros m. split; [apply installedWhisper_In
                     | now apply installedWhisper_all]. }
  split; [|split; [|split; [|split]]].
  - intros m.
    destruct (existsb (whisperModel_eqb (currentWhisperModel vm)) models)
      eqn:E.
    + intros H. injection H as <-. now apply Hiff, existsb_whisper.
    + intros H. apply Hiff. destruct models; [discriminate|].
      injection H as ->. now left.
  - intros H. apply Hiff, existsb_whisper in H. now rewrite H.
  - destruct (existsb (whisperModel_eqb (currentWhisperModel vm)) models)
      eqn:E.
    + apply existsb_whisper in E.
      destruct models; [destruct E|]. split; discriminate.
    + destruct models; cbn; split; trivial; discriminate.
  - split.
    + intros H m. destruct (isWhisperModelInstalled existsSync m) eqn:E;
        [|reflexivity].
      apply Hiff in E. destruct models; [destruct E | discriminate].
    + intros H. destruct models as [|m ms]; [reflexivity|].
      assert (E : In m (m :: ms)) by now left.
      apply Hiff in E. now rewrite H in E.
  - exact Hiff.
Qed.

Lemma fileSystem_In (paths : list (list str)) (p : list str) :
  fileSystem paths p = true <-> In p paths.
Proof.
  unfold fileSystem. rewrite existsb_exists. split.
  - intros [q [Hin E]].
    destruct (list_eq_dec (list_eq_dec N.eq_dec) p q); [now subst | discriminate].
  - intros H. exists p. split; [exact H|].
    now destruct (list_eq_dec (list_eq_dec N.eq_dec) p p).
Qed.

Lemma fileSystem_parents (paths : list (list str)) :
  closedPaths paths = true -> parentsExist (fileSystem paths).
Proof.
  intros H dir file E. apply fileSystem_In in E.
  unfold closedPaths in H. rewrite forallb_forall in H.
  specialize (H _ E). rewrite removelast_last in H.
  destruct (dir ++ [file]) eqn:E'; [|exact H].
  now destruct dir.
Qed.

Lemma checkWhisper_reports_installed_witness :
  currentModel (checkWhisper (fileSystem someDisk) voiceManager)
  = Some SmallEn
  /\ isWhisperModelInstalled (fileSystem someDisk) SmallEn = true.
Proof.
  destruct (checkWhisper_reports_installed (fileSystem someDisk) voiceManager)
    as [H _].
  - apply fileSystem_parents. vm_compute. reflexivity.
  - split; [vm_compute; reflexivity|]. apply H. vm_compute. reflexivity.
Defined.

(** X17: [transcribe] never succeeds and returns no text.  With no model
    installed it leaves the manager as it is and says so; otherwise it
    names the model that [checkWhisper] reports as current, and makes that
    model the manager's own, so that a second call changes nothing. *)
Theorem transcribe_never_succeeds
        (existsSync : list str -> bool) (vm : Manager) :
  parentsExist existsSync ->
  let status := checkWhisper existsSync vm in
  let vm' := fst (transcribe existsSync vm) in
  let result := snd (transcribe existsSync vm) in
  transcribed result = false /\ text result = None
  /\ (whisperInstalled status = false ->
      vm' = vm /\ transcribeError result = Some noWhisperModel)
  /\ (forall m, currentModel status = Some m ->
                currentWhisperModel vm' = m
                /\ transcribeError result = Some (comingSoon m))
  /\ currentTTSVoice vm' = currentTTSVoice vm
  /\ currentTTSEngine vm' = currentTTSEngine vm
  /\ fst (transcribe existsSync vm') = vm'.
Proof.
  intros Hfs. cbv zeta. unfold checkWhisper.
  cbn [currentModel whisperInstalled].
  unfold transcribe.
  destruct (isWhisperModelInstalled existsSync (currentWhisperModel vm))
    eqn:Ec.
  - pose proof (installedWhisper_all existsSync _ Hfs Ec) as Hin.
    cbn [fst snd transcribed text transcribeError]. rewrite Ec.
    split; [reflexivity|]. split; [reflexivity|]. split.
    + intros H. destruct (getInstalledWhisperModels existsSync);
        [destruct Hin | discriminate].
    + split; [|repeat split; reflexivity].
      intros m. apply existsb_whisper in Hin. rewrite Hin.
      intros E. injection E as <-. now split.
  - destruct (existsb (whisperModel_eqb (currentWhisperModel vm))
                      (getInstalledWhisperModels existsSync)) eqn:Ee.
    { apply existsb_whisper, installedWhisper_In in Ee. congruence. }
    destruct (getInstalledWhisperModels existsSync) as [|m0 ms] eqn:Em.
    + cbn [fst snd transcribed text transcribeError]. rewrite Ec.
      repeat split; trivial; discriminate.
    + assert (E0 : isWhisperModelInstalled existsSync m0 = true)
        by (apply installedWhisper_In; rewrite Em; now left).
      cbn [fst snd transcribed text transcribeError currentWhisperModel
           currentTTSVoice currentTTSEngine hd_error length].
      rewrite E0.
      split; [reflexivity|]. split; [reflexivity|].
      split; [discriminate|]. split; [|repeat split; reflexivity].
      intros m E. injection E as <-. now split.
Qed.

Lemma transcribe_never_succeeds_witness :
  currentWhisperModel (fst (transcribe (fileSystem someDisk) voiceManager))
  = SmallEn.
Proof.
  destruct (transcribe_never_succeeds (fileSystem someDisk) voiceManager)
    as [_ [_ [_ [H _]]]].
  - apply fileSystem_parents. vm_compute. reflexivity.
  - apply (H SmallEn). vm_compute. reflexivity.
Defined.

Lemma lookupVoice_key (v : PiperVoiceName) : lookupVoice (piperKey v) = Own v.
Proof. destruct v; vm_compute; reflexivity. Qed.

Lemma lookupVoice_Own (voice : str) (v : PiperVoiceName) :
  lookupVoice voice = Own v -> voice = piperKey v.
Proof.
  unfold lookupVoice.
  destruct (find (fun v => str_eqb voice (piperKey v)) piperVoiceNames)
    as [v'|] eqn:E.
  - intros H. injection H as <-. apply find_some in E.
    now apply str_eqb_eq.
  - destruct (has voice objectPrototypeKeys); discriminate.
Qed.

Lemma piperKey_inj (a b : PiperVoiceName) : piperKey a = piperKey b -> a = b.
Proof. destruct a, b; intros H; try reflexivity; discriminate. Qed.

Lemma getPiperVoicePath_key (existsSync : list str -> bool)
      (v : PiperVoiceName) :
  getPiperVoicePath existsSync (piperKey v) =
  if (existsSync (piperVoicesDir ++ [piperFile v])
      && existsSync (piperVoicesDir ++ [piperConfig v]))%bool
  then Ret (Some (piperVoicesDir ++ [piperFile v],
                  piperVoicesDir ++ [piperConfig v]))
  else Ret None.
Proof. unfold getPiperVoicePath. now rewrite lookupVoice_key. Qed.

Lemma getPiperVoicePath_Some (existsSync : list str -> bool) (voice : str)
      (paths : list str * list str) :
  getPiperVoicePath existsSync voice = Ret (Some paths) ->
  exists v, voice = piperKey v.
Proof.
  unfold getPiperVoicePath. destruct (lookupVoice voice) as [v| |] eqn:E;
    try discriminate.
  intros _. exists v. now apply lookupVoice_Own.
Qed.

Lemma call_keeps (existsSync : list str -> bool) (vm : Manager) (c : Call) :
  wellSelected existsSync vm -> wellSelected existsSync (call existsSync vm c).
Proof.
  unfold wellSelected.
  intros H.
  assert (Hm : forall vm model,
             currentTTSVoice (setWhisperModel existsSync vm model)
             = currentTTSVoice vm
             /\ (currentWhisperModel (setWhisperModel existsSync vm model)
                 = currentWhisperModel vm
                 \/ isWhisperModelInstalled existsSync
                      (currentWhisperModel
                         (setWhisperModel existsSync vm model)) = true)).
  { intros vm0 model. unfold setWhisperModel.
    destruct (isWhisperModelInstalled existsSync model) eqn:E; cbn;
      split; trivial; [now right | now left]. }
  assert (Hv : forall vm voice,
             match setTTSVoice existsSync vm voice with
             | Ret vm' =>
                 currentWhisperModel vm' = currentWhisperModel vm
                 /\ (currentTTSVoice vm' = currentTTSVoice vm
                     \/ exists paths,
                          getPiperVoicePath existsSync (currentTTSVoice vm')
                          = Ret (Some paths))
             | Throws => True
             end).
  { intros vm0 voice. unfold setTTSVoice.
    destruct (getPiperVoicePath existsSync voice) as [[paths|]|] eqn:E; cbn;
      trivial; split; trivial; [right; now exists paths | now left]. }
  assert (K : forall vm', 
             currentTTSVoice vm' = currentTTSVoice vm
             \/ (exists paths, getPiperVoicePath existsSync (currentTTSVoice vm')
                               = Ret (Some paths)) ->
             currentWhisperModel vm' = currentWhisperModel vm
             \/ isWhisperModelInstalled existsSync (currentWhisperModel vm')
                = true ->
             (exists v, currentTTSVoice vm' = piperKey v)
             /\ (currentTTSVoice vm' = currentTTSVoice voiceManager
                 \/ exists paths,
                      getPiperVoicePath existsSync (currentTTSVoice vm')
                      = Ret (Some paths))
             /\ (currentWhisperModel vm' = currentWhisperModel voiceManager
                 \/ isWhisperModelInstalled existsSync
                      (currentWhisperModel vm') = true)).
  { intros vm' Hvoice Hmodel. destruct H as [H1 [H2 H3]].
    split; [|split].
    - destruct Hvoice as [-> | [paths E]]; [exact H1|].
      now apply getPiperVoicePath_Some in E.
    - destruct Hvoice as [-> | E]; [exact H2 | now right].
    - destruct Hmodel as [-> | E]; [exact H3 | now right]. }
  destruct c as [model| |voice|e|settings]; cbn [call].
  - destruct (Hm vm model) as [E1 E2]. apply K; [now left | exact E2].
  - apply K.
    + left. unfold transcribe.
      destruct (isWhisperModelInstalled existsSync (currentWhisperModel vm));
        [reflexivity|].
      now destruct (getInstalledWhisperModels existsSync).
    + unfold transcribe.
      destruct (isWhisperModelInstalled existsSync (currentWhisperModel vm))
        eqn:E; [now left|].
      destruct (getInstalledWhisperModels existsSync) as [|m0 ms] eqn:Em;
        [now left|].
      right. cbn. apply installedWhisper_In. rewrite Em. now left.
  - specialize (Hv vm voice).
    destruct (setTTSVoice existsSync vm voice) as [vm'|].
    + destruct Hv as [E1 E2]. apply K; [exact E2 | now left].
    + apply K; now left.
  - apply K; now left.
  - unfold applySettings.
    set (vm1 := match whisperModel settings with
                | Some model => setWhisperModel existsSync vm model
                | None => vm
                end).
    assert (H1 : currentTTSVoice vm1 = currentTTSVoice vm
                 /\ (currentWhisperModel vm1 = currentWhisperModel vm
                     \/ isWhisperModelInstalled existsSync
                          (currentWhisperModel vm1) = true)).
    { unfold vm1. destruct (whisperModel settings) as [model|];
        [apply Hm | split; [reflexivity | now left]]. }
    set (vm2 := match ttsEngine settings with
                | Some e => setTTSEngine vm1 e
                | None => vm1
                end).
    assert (H2 : currentTTSVoice vm2 = currentTTSVoice vm1
                 /\ currentWhisperModel vm2 = currentWhisperModel vm1).
    { unfold vm2. now destruct (ttsEngine settings). }
    destruct H1 as [H1 H1'], H2 as [H2 H2'].
    assert (K2 : (exists v, currentTTSVoice vm2 = piperKey v)
                 /\ (currentTTSVoice vm2 = currentTTSVoice voiceManager
                     \/ exists paths,
                          getPiperVoicePath existsSync (currentTTSVoice vm2)
                          = Ret (Some paths))
                 /\ (currentWhisperModel vm2
                     = currentWhisperModel voiceManager
                     \/ isWhisperModelInstalled existsSync
                          (currentWhisperModel vm2) = true)).
    { apply K; [left; congruence | now rewrite H2']. }
    destruct (truthy (ttsVoice settings)); [|exact K2].
    destruct (ttsVoice settings) as [voice|]; [|exact K2].
    specialize (Hv vm2 voice).
    destruct (setTTSVoice existsSync vm2 voice) as [vm3|]; [|exact K2].
    destruct Hv as [E1 E2]. cbn [fst]. apply K.
    + destruct E2 as [E2 | E2]; [left; congruence | now right].
    + rewrite E1, H2'. exact H1'.
Qed.

Lemma calls_keep (existsSync : list str -> bool) (cs : list Call) :
  forall vm, wellSelected existsSync vm ->
             wellSelected existsSync (fold_left (call existsSync) cs vm).
Proof.
  induction cs as [|c cs IH]; intros vm H; [exact H|].
  cbn [fold_left]. now apply IH, call_keeps.
Qed.

Lemma voiceManager_wellSelected (existsSync : list str -> bool) :
  wellSelected existsSync voiceManager.
Proof.
  unfold wellSelected. split; [now exists LibriTTS|]. split; now left.
Qed.

(** X18: whatever calls reach the manager ([setWhisperModel], [transcribe],
    [setTTSVoice] with any string, [setTTSEngine], [applySettings] with any
    settings), the voice it holds is one of the three keys of
    [PIPER_VOICES], and the voice and the model it holds are the ones it
    started with or ones that are installed: it never switches to
    something that is not on disk, and [speak] never throws on its voice
    lookup. *)
Theorem manager_selects_only_installed
        (existsSync : list str -> bool) (cs : list Call) :
  let vm := fold_left (call existsSync) cs voiceManager in
  In (currentTTSVoice vm) (map piperKey piperVoiceNames)
  /\ (currentTTSVoice vm = js "en_US-libritts_r-medium"
      \/ exists paths, getPiperVoicePath existsSync (currentTTSVoice vm)
                       = Ret (Some paths))
  /\ (currentWhisperModel vm = BaseEn
      \/ isWhisperModelInstalled existsSync (currentWhisperModel vm) = true)
  /\ forall isWindows run, voiceSpeak existsSync isWindows vm run <> Throws.
Proof.
  cbv zeta.
  destruct (calls_keep existsSync cs voiceManager
              (voiceManager_wellSelected existsSync)) as [[v Hv] [H2 H3]].
  split; [|split; [exact H2 | split; [exact H3|]]].
  - rewrite Hv. apply in_map. destruct v; cbn; tauto.
  - intros isWindows run. unfold voiceSpeak.
    destruct (getPiperBinaryPath existsSync isWindows); [|discriminate].
    rewrite Hv, getPiperVoicePath_key.
    destruct (existsSync (piperVoicesDir ++ [piperFile v])
              && existsSync (piperVoicesDir ++ [piperConfig v]))%bool;
      discriminate.
Qed.

(** X19: reading the settings and applying them back changes nothing, in
    every state the manager reaches, and does not throw. *)
Theorem settings_round_trip (existsSync : list str -> bool) (cs : list Call) :
  let vm := fold_left (call existsSync) cs voiceManager in
  applySettings existsSync vm (getSettings vm) = (vm, false).
Proof.
  cbv zeta.
  destruct (calls_keep existsSync cs voiceManager
              (voiceManager_wellSelected existsSync)) as [[v Hv] _].
  set (vm := fold_left (call existsSync) cs voiceManager) in *.
  unfold applySettings, getSettings.
  cbn [whisperModel ttsEngine ttsVoice].
  assert (E1 : setWhisperModel existsSync vm (currentWhisperModel vm) = vm).
  { unfold setWhisperModel.
    destruct (isWhisperModelInstalled existsSync (currentWhisperModel vm));
      now destruct vm. }
  rewrite E1.
  assert (E2 : setTTSEngine vm (currentTTSEngine vm) = vm)
    by now destruct vm.
  rewrite E2.
  destruct (truthy (Some (currentTTSVoice vm))); [|reflexivity].
  unfold setTTSVoice. rewrite Hv at 1. rewrite getPiperVoicePath_key.
  destruct (existsSync (piperVoicesDir ++ [piperFile v])
            && existsSync (piperVoicesDir ++ [piperConfig v]))%bool;
    [|reflexivity].
  now destruct vm.
Qed.

Lemma has_piperKey (v : PiperVoiceName) (l : list PiperVoiceName) :
  has (piperKey v) (map piperKey l) = true <-> In v l.
Proof.
  rewrite has_In, in_map_iff. split.
  - intros [x [E Hx]]. apply piperKey_inj in E. now subst.
  - intros H. now exists v.
Qed.

Lemma installedVoices_has (existsSync : list str -> bool) (v : PiperVoiceName) :
  parentsExist existsSync ->
  has (piperKey v) (getInstalledPiperVoices existsSync)
  = (existsSync (piperVoicesDir ++ [piperFile v])
     && existsSync (piperVoicesDir ++ [piperConfig v]))%bool.
Proof.
  intros Hfs. unfold getInstalledPiperVoices.
  destruct (existsSync piperVoicesDir) eqn:Ed; cbn [negb].
  - apply eq_true_iff_eq. rewrite has_piperKey, filter_In.
    rewrite getPiperVoicePath_key.
    destruct (existsSync (piperVoicesDir ++ [piperFile v])
              && existsSync (piperVoicesDir ++ [piperConfig v]))%bool.
    + split; [reflexivity|]. intros _. split; [|reflexivity].
      destruct v; cbn; tauto.
    + split; [intros [_ H]; discriminate | discriminate].
  - destruct (existsSync (piperVoicesDir ++ [piperFile v])) eqn:E;
      [|reflexivity].
    apply Hfs in E. congruence.
Qed.

(** X20: [speak] passes its two checks exactly when the status of
    [checkTTS] has an engine and reports the manager's own voice as the
    current one.  Without an engine in the status [speak] answers that
    Piper is not installed; with an engine and another current voice, or
    none, it answers that the voice is not installed, whatever
    [installed] says. *)
Theorem speak_checks_follow_status
        (existsSync : list str -> bool) (isWindows : bool) (vm : Manager)
        (run : PiperRun) :
  parentsExist existsSync ->
  In (currentTTSVoice vm) (map piperKey piperVoiceNames) ->
  let status := checkTTS existsSync isWindows vm in
  (engine status = None ->
   voiceSpeak existsSync isWindows vm run = Ret (speak NoBinary))
  /\ (engine status = Some Piper ->
      currentVoice status = Some (currentTTSVoice vm) ->
      voiceSpeak existsSync isWindows vm run = Ret (speak run)
      /\ ttsInstalled status = true)
  /\ (engine status = Some Piper ->
      currentVoice status <> Some (currentTTSVoice vm) ->
      voiceSpeak existsSync isWindows vm run = Ret (speak NoVoice)).
Proof.
  intros Hfs Hin. cbv zeta. apply in_map_iff in Hin.
  destruct Hin as [v [Hv _]]. symmetry in Hv.
  unfold checkTTS, voiceSpeak, isPiperInstalled.
  cbn [engine currentVoice ttsInstalled].
  rewrite Hv, (installedVoices_has existsSync v Hfs), getPiperVoicePath_key.
  destruct (getPiperBinaryPath existsSync isWindows) as [bin|].
  2:{ split; [reflexivity|]. split; discriminate. }
  split; [discriminate|].
  destruct (existsSync (piperVoicesDir ++ [piperFile v])
            && existsSync (piperVoicesDir ++ [piperConfig v]))%bool eqn:E.
  - split; [|congruence]. intros _ _. split; [reflexivity|].
    cbn [andb]. apply Nat.ltb_lt.
    rewrite <- (installedVoices_has existsSync v Hfs) in E.
    destruct (getInstalledPiperVoices existsSync); [discriminate | cbn; lia].
  - split; [|reflexivity]. intros _ H. exfalso.
    rewrite <- (installedVoices_has existsSync v Hfs) in E.
    apply has_false in E. apply E.
    destruct (getInstalledPiperVoices existsSync); [discriminate|].
    injection H as ->. now left.
Qed.

Lemma speak_checks_follow_status_witness :
  ttsInstalled (checkTTS (fileSystem someDisk) false voiceManager) = true
  /\ voiceSpeak (fileSystem someDisk) false voiceManager
                (Closed (Some 0%Z) true (js "UklGRg=="))
     = Ret (speak NoVoice).
Proof.
  split; [vm_compute; reflexivity|].
  destruct (speak_checks_follow_status (fileSystem someDisk) false
              voiceManager (Closed (Some 0%Z) true (js "UklGRg==")))
    as [_ [_ H]].
  - apply fileSystem_parents. vm_compute. reflexivity.
  - vm_compute. tauto.
  - apply H; [vm_compute; reflexivity | vm_compute; discriminate].
Defined.

(** ** What the buffer holds between two chunks *)

Lemma tagExec_cons (c : N) (s : str) :
  tagExec (c :: s) = None -> tagExec s = None.
Proof.
  unfold tagExec. rewrite (cut_unfold OPEN (c :: s)).
  destruct (startsWith OPEN (c :: s)) eqn:E.
  - apply startsWith_app in E. destruct E as [r E].
    unfold OPEN in E. cbn [app] in E. injection E as -> ->.
    change (skipn (length OPEN) (171%N :: 116%N :: 116%N :: 115%N :: 187%N :: r))
      with r.
    intros H.
    assert (Hr : cut CLOSE r = None) by (destruct (cut CLOSE r) as [[i t]|];
                                          [discriminate | reflexivity]).
    do 4 (rewrite cut_unfold; cbn [startsWith OPEN N.eqb Pos.eqb andb]).
    destruct (cut OPEN r) as [[b a]|] eqn:Eo; [|reflexivity].
    apply cut_spec in Eo.
    assert (Ea : a = skipn (length b + length OPEN) r).
    { rewrite Eo at 1. rewrite Nat.add_comm, <- skipn_skipn.
      rewrite (skipn_app_exact b), (skipn_app_exact OPEN). reflexivity. }
    rewrite Ea, (cut_none_skipn CLOSE _ r Hr). reflexivity.
  - destruct (cut OPEN s) as [[b a]|]; [trivial | reflexivity].
Qed.

Lemma tagExec_skipn (n : nat) :
  forall s, tagExec s = None -> tagExec (skipn n s) = None.
Proof.
  induction n as [|n IH]; intros s H; [exact H|].
  destruct s as [|c s]; [exact H|]. cbn [skipn].
  now apply IH, tagExec_cons with c.
Qed.

Lemma capBuffer_skipn (b : str) :
  exists n, capBuffer b = skipn n b /\ length (capBuffer b) <= 2000.
Proof.
  unfold capBuffer. destruct (Nat.ltb_spec 2000 (length b)) as [H | H].
  - exists (length b - 2000). split; [reflexivity|].
    rewrite length_skipn. lia.
  - exists 0. now split.
Qed.

(** X21: after every call of the handler, from any state and for any chunk,
    the buffer carried over to the next call holds at most 2000 code
    units, is an end piece of the old buffer followed by the stripped
    chunk, and holds no complete tag: a tag is taken out in the call in
    which its closing marker arrives. *)
Theorem buffer_holds_no_complete_tag (st : Term) (data : str) :
  length (ttsBuffer (fst (onPtyData st data))) <= 2000
  /\ (exists before,
        ttsBuffer st ++ stripAnsi data
        = before ++ ttsBuffer (fst (onPtyData st data)))
  /\ tagExec (ttsBuffer (fst (onPtyData st data))) = None
  /\ segments (ttsBuffer (fst (onPtyData st data)))
     = ([], ttsBuffer (fst (onPtyData st data))).
Proof.
  rewrite onPtyData_stages. cbv zeta. cbn [fst ttsBuffer].
  set (buf := ttsBuffer st ++ stripAnsi data).
  pose proof (segments_done (length buf) buf (le_n _)) as Hdone.
  destruct (segments_suffix (length buf) buf (le_n _)) as [pre Hpre].
  set (rest := snd (segments buf)) in *.
  destruct (capBuffer_skipn (clearIfNoMarker rest)) as [n [En Hn]].
  assert (Hc : exists k, capBuffer (clearIfNoMarker rest) = skipn k rest).
  { rewrite En. unfold clearIfNoMarker.
    destruct (includes OPEN_HEAD rest); [now exists n|].
    exists (length rest). now rewrite skipn_nil, skipn_all. }
  destruct Hc as [k Ek].
  assert (Hnone : tagExec (capBuffer (clearIfNoMarker rest)) = None)
    by (rewrite Ek; now apply tagExec_skipn).
  split; [exact Hn|]. split; [|split; [exact Hnone|]].
  - exists (pre ++ firstn k rest). rewrite Ek, <- app_assoc, firstn_skipn.
    exact Hpre.
  - rewrite segments_unfold. now rewrite Hnone.
Qed.

(** ** Tagged texts in one chunk *)

Lemma tagExec_tagged (junk t rest : str) :
  plain junk -> plain t ->
  tagExec (junk ++ tagged t ++ rest) = Some (t, rest).
Proof.
  intros Hj Ht. unfold tagExec, tagged. rewrite <- !app_assoc.
  unfold OPEN at 1 2.
  rewrite (cut_first 171 _ (t ++ CLOSE ++ rest) junk (plain_no_guillemet _ Hj)).
  unfold CLOSE at 1 2.
  now rewrite (cut_first 171 _ rest t (plain_no_guillemet _ Ht)).
Qed.

Lemma segments_tagged (parts : list (str * str)) (post : str) :
  Forall (fun p => plain (fst p) /\ plain (snd p)) parts -> plain post ->
  segments (taggedAll parts ++ post)
  = (map (fun p => trim (snd p)) parts, post).
Proof.
  intros H Hpost. induction H as [|[junk t] parts [Hj Ht] Hparts IH].
  - cbn. apply segments_no_open. now apply plain_no_guillemet.
  - unfold taggedAll in *. cbn [map concat fst snd] in *.
    rewrite segments_unfold, <- !app_assoc.
    rewrite (tagExec_tagged junk t _ Hj Ht). now rewrite IH.
Qed.

Lemma includes_absent (p : N) (pat s : str) :
  ~ In p s -> includes (p :: pat) s = false.
Proof.
  unfold includes. induction s as [|c s IH]; intros H; [reflexivity|].
  cbn [anywhere]. rewrite startsWith_head by (intros ->; apply H; now left).
  apply IH. intros Hin. apply H. now right.
Qed.

Lemma plain_tagged (junk t : str) :
  plain junk -> plain t -> controlFree (junk ++ tagged t).
Proof.
  intros Hj Ht. unfold tagged.
  repeat (apply Forall_app; split); try now apply plain_controlFree.
  - repeat constructor.
  - repeat constructor.
Qed.

(** X22: a chunk of tagged texts, each behind any text, all texts without
    control characters and without the left guillemet, arriving on an empty
    buffer: the segmenter gives back the texts, trimmed, in their order,
    and what follows the last tag; the handler passes exactly these
    through the filter and the ledger, and nothing is left in the
    buffer. *)
Theorem tagged_texts_round_trip
        (st : Term) (parts : list (str * str)) (post : str) :
  Forall (fun p => plain (fst p) /\ plain (snd p)) parts -> plain post ->
  ttsBuffer st = [] ->
  segments (taggedAll parts ++ post)
  = (map (fun p => trim (snd p)) parts, post)
  /\ snd (onPtyData st (taggedAll parts ++ post))
     = snd (ledgerAll (gatesOpen st) (spokenContent st)
                      (map (fun p => trim (snd p)) parts))
  /\ ttsBuffer (fst (onPtyData st (taggedAll parts ++ post))) = [].
Proof.
  intros H Hpost Hb.
  pose proof (segments_tagged parts post H Hpost) as E.
  assert (Hc : controlFree (taggedAll parts ++ post)).
  { apply Forall_app. split; [|now apply plain_controlFree].
    clear E. induction H as [|[junk t] parts [Hj Ht] Hparts IH];
      [constructor|].
    unfold taggedAll. cbn [map concat fst snd].
    apply Forall_app. split; [now apply plain_tagged | exact IH]. }
  split; [exact E|].
  rewrite onPtyData_stages. cbv zeta.
  rewrite Hb, (stripAnsi_controlFree _ Hc). cbn [app]. rewrite E.
  cbn [fst snd ttsBuffer]. split; [reflexivity|].
  unfold clearIfNoMarker, OPEN_HEAD.
  now rewrite (includes_absent 171 _ post (plain_no_guillemet _ Hpost)).
Qed.

Lemma tagged_texts_round_trip_witness :
  snd (onPtyData listening
         (taggedAll [(js "> ", js " Hello world. "); (js "ok ", js "Second one.")]
          ++ js " end"))
  = [(js "Hello world.", true); (js "Second one.", true)].
Proof.
  assert (P : forall p,
             forallb (fun c => negb (isControl c) && negb (N.eqb c 171)) p
             = true -> plain p).
  { intros p H. apply Forall_forall. intros c Hc.
    rewrite forallb_forall in H. specialize (H c Hc).
    apply andb_true_iff in H. destruct H as [H1 H2].
    apply negb_true_iff in H1, H2. split; [exact H1|].
    now apply N.eqb_neq. }
  destruct (tagged_texts_round_trip listening
              [(js "> ", js " Hello world. "); (js "ok ", js "Second one.")]
              (js " end")) as [_ [E _]].
  - constructor; [split; now apply P|].
    constructor; [split; now apply P | constructor].
  - now apply P.
  - reflexivity.
  - rewrite E. vm_compute. reflexivity.
Defined.

Lemma cut_skip (p : N) (pat : str) (Y : str) :
  forall pre, ~ In p pre ->
  cut (p :: pat) (pre ++ Y) =
  match cut (p :: pat) Y with
  | Some (b, r) => Some (pre ++ b, r)
  | None => None
  end.
Proof.
  induction pre as [|c pre IH]; intros H.
  - cbn [app]. now destruct (cut (p :: pat) Y) as [[b r]|].
  - cbn [app]. rewrite cut_unfold.
    rewrite startsWith_head by (intros ->; apply H; now left).
    rewrite IH by (intros Hin; apply H; now right).
    now destruct (cut (p :: pat) Y) as [[b r]|].
Qed.

(** X23: an opening marker that is not closed before the next tag opens
    takes that tag with it: the match runs from the first opening marker to
    the first closing marker, so the segment is the text in between, the
    second opening marker included. *)
Theorem unclosed_tag_swallows_next (junk a b rest : str) :
  plain junk -> plain a -> plain b ->
  tagExec (junk ++ OPEN ++ a ++ tagged b ++ rest)
  = Some (a ++ OPEN ++ b, rest)
  /\ fst (segments (junk ++ OPEN ++ a ++ tagged b))
     = [trim (a ++ OPEN ++ b)].
Proof.
  intros Hj Ha Hb.
  assert (E : forall rest, tagExec (junk ++ OPEN ++ a ++ tagged b ++ rest)
                           = Some (a ++ OPEN ++ b, rest)).
  { intros r. unfold tagExec, tagged. rewrite <- !app_assoc.
    unfold OPEN at 1 2.
    rewrite (cut_first 171 _ _ junk (plain_no_guillemet _ Hj)).
    unfold CLOSE at 1.
    rewrite (cut_skip 171 _ _ a (plain_no_guillemet _ Ha)).
    rewrite cut_unfold.
    change (startsWith (171%N :: [47; 116; 116; 115; 187]%N)
                       (OPEN ++ b ++ CLOSE ++ r)) with false.
    cbv iota. unfold OPEN at 1. cbn [app].
    change (116%N :: 116%N :: 115%N :: 187%N :: b ++ CLOSE ++ r)
      with (([116; 116; 115; 187]%N ++ b) ++ CLOSE ++ r).
    assert (Hn : ~ In 171%N ([116; 116; 115; 187]%N ++ b)).
    { intros Hin. apply in_app_or in Hin. destruct Hin as [Hin | Hin].
      - cbn in Hin. repeat destruct Hin as [Hin | Hin]; try discriminate.
        exact Hin.
      - now apply (plain_no_guillemet _ Hb). }
    unfold CLOSE at 1.
    rewrite (cut_first 171 _ r _ Hn). reflexivity. }
  split; [apply E|].
  rewrite <- (app_nil_r (tagged b)).
  rewrite segments_unfold, (E []).
  now rewrite (segments_no_open []).
Qed.

Lemma unclosed_tag_swallows_next_witness :
  fst (segments (OPEN ++ js "Hello " ++ tagged (js "world.")))
  = [js "Hello " ++ OPEN ++ js "world."].
Proof.
  assert (P : forall p,
             forallb (fun c => negb (isControl c) && negb (N.eqb c 171)) p
             = true -> plain p).
  { intros p H. apply Forall_forall. intros c Hc.
    rewrite forallb_forall in H. specialize (H c Hc).
    apply andb_true_iff in H. destruct H as [H1 H2].
    apply negb_true_iff in H1, H2. split; [exact H1|].
    now apply N.eqb_neq. }
  destruct (unclosed_tag_swallows_next [] (js "Hello ") (js "world.") [])
    as [_ E]; [now apply P ..|].
  exact E.
Defined.

(** ** The audio payload *)

Lemma atobOk_atob (data : str) :
  atobOk data = match atob data with Some _ => true | None => false end.
Proof.
  unfold atobOk, atob.
  now destruct (negb _ && forallb isBase64 _)%bool.
Qed.

Lemma sextets : forall i, (i < 64)%N ->
  base64Index (base64Char i) = i /\ isBase64 (base64Char i) = true.
Proof.
  assert (H : forallb (fun i => N.eqb (base64Index (base64Char i)) i
                                && isBase64 (base64Char i))%bool
                      (map N.of_nat (seq 0 64)) = true)
    by (vm_compute; reflexivity).
  rewrite forallb_forall in H. intros i Hi.
  specialize (H i). rewrite andb_true_iff, N.eqb_eq in H. apply H.
  apply in_map_iff. exists (N.to_nat i). split; [apply N2Nat.id|].
  apply in_seq. lia.
Qed.

Lemma group3 (a b c : N) :
  (a < 256)%N -> (b < 256)%N -> (c < 256)%N ->
  let n := ((((a / 4) * 64 + ((a mod 4) * 16 + b / 16)) * 64
             + ((b mod 16) * 4 + c / 64)) * 64 + c mod 64)%N in
  (n / 65536 = a /\ (n / 256) mod 256 = b /\ n mod 256 = c)%N.
Proof.
  intros Ha Hb Hc n.
  assert (E : n = (a * 65536 + b * 256 + c)%N).
  { unfold n.
    pose proof (N.div_mod a 4 ltac:(lia)). pose proof (N.div_mod b 16 ltac:(lia)).
    pose proof (N.div_mod c 64 ltac:(lia)). lia. }
  rewrite E. clear E n. repeat split.
  - symmetry. apply (N.div_unique _ _ _ (b * 256 + c)); lia.
  - replace ((a * 65536 + b * 256 + c) / 256)%N with (a * 256 + b)%N
      by (apply (N.div_unique _ _ _ c); lia).
    symmetry. apply (N.mod_unique _ _ a); lia.
  - symmetry. apply (N.mod_unique _ _ (a * 256 + b)); lia.
Qed.

Lemma group2 (a b : N) :
  (a < 256)%N -> (b < 256)%N ->
  let n := (((((a / 4) * 64 + ((a mod 4) * 16 + b / 16)) * 64
              + (b mod 16) * 4)) / 4)%N in
  (n / 256 = a /\ n mod 256 = b)%N.
Proof.
  intros Ha Hb n.
  assert (E : n = (a * 256 + b)%N).
  { unfold n. symmetry. apply (N.div_unique _ _ _ 0); [lia|].
    pose proof (N.div_mod a 4 ltac:(lia)).
    pose proof (N.div_mod b 16 ltac:(lia)). lia. }
  rewrite E. split.
  - symmetry. apply (N.div_unique _ _ _ b); lia.
  - symmetry. apply (N.mod_unique _ _ a); lia.
Qed.

Lemma group1 (a : N) :
  (((a / 4) * 64 + (a mod 4) * 16) / 16 = a)%N.
Proof.
  symmetry. apply (N.div_unique _ _ _ 0); [lia|].
  pose proof (N.div_mod a 4 ltac:(lia)). lia.
Qed.

Lemma sextet_bounds (a b : N) :
  (a < 256)%N -> (b < 256)%N ->
  (a / 4 < 64 /\ (a mod 4) * 16 + b / 16 < 64 /\ (a mod 4) * 16 < 64
   /\ (a mod 16) * 4 + b / 64 < 64 /\ (a mod 16) * 4 < 64
   /\ a mod 64 < 64)%N.
Proof.
  intros Ha Hb.
  pose proof (N.mod_lt a 4 ltac:(lia)). pose proof (N.mod_lt a 16 ltac:(lia)).
  pose proof (N.mod_lt a 64 ltac:(lia)).
  assert (a / 4 < 64)%N by (apply N.Div0.div_lt_upper_bound; lia).
  assert (b / 16 < 16)%N by (apply N.Div0.div_lt_upper_bound; lia).
  assert (b / 64 < 4)%N by (apply N.Div0.div_lt_upper_bound; lia).
  lia.
Qed.

Lemma three_by_three {A : Type} (P : list A -> Prop) :
  P [] -> (forall a, P [a]) -> (forall a b, P [a; b]) ->
  (forall a b c l, P l -> P (a :: b :: c :: l)) ->
  forall l, P l.
Proof.
  intros H0 H1 H2 H3 l.
  assert (H : P l /\ (forall a, P (a :: l)) /\ (forall a b, P (a :: b :: l))).
  { induction l as [|x l [IH0 [IH1 IH2]]].
    - now repeat split.
    - split; [apply IH1|]. split; [intros a; apply IH2|].
      intros a b. now apply H3. }
  apply H.
Qed.

(** The encoding is a text of the alphabet that decodes to the bytes,
    followed by the padding. *)
Lemma toBase64_core (bytes : list N) :
  Forall (fun b => (b < 256)%N) bytes ->
  exists core pad,
    toBase64 bytes = core ++ pad
    /\ (pad = [] \/ pad = [61%N] \/ pad = [61; 61]%N)
    /\ Nat.modulo (length (core ++ pad)) 4 = 0
    /\ Nat.modulo (length core) 4 <> 1
    /\ forallb isBase64 core = true
    /\ decodeGroups core = bytes.
Proof.
  pattern bytes. apply three_by_three; clear bytes.
  - intros _. exists [], []. cbn. repeat split; auto.
  - intros a Ha. inversion Ha as [|? ? Ha' _]; subst.
    destruct (sextet_bounds a a Ha' Ha') as [B1 [_ [B2 _]]].
    destruct (sextets _ B1) as [I1 A1], (sextets _ B2) as [I2 A2].
    exists [base64Char (a / 4); base64Char ((a mod 4) * 16)], [61; 61]%N.
    split; [reflexivity|]. split; [auto|]. split; [reflexivity|].
    split; [cbn; lia|]. split; [cbn; now rewrite A1, A2|].
    cbn [decodeGroups]. now rewrite I1, I2, group1.
  - intros a b H. inversion H as [|? ? Ha H']; subst.
    inversion H' as [|? ? Hb _]; subst.
    destruct (sextet_bounds a b Ha Hb) as [B1 [B2 _]].
    destruct (sextet_bounds b b Hb Hb) as [_ [_ [_ [_ [B3 _]]]]].
    destruct (sextets _ B1) as [I1 A1], (sextets _ B2) as [I2 A2],
             (sextets _ B3) as [I3 A3].
    exists [base64Char (a / 4); base64Char ((a mod 4) * 16 + b / 16);
            base64Char ((b mod 16) * 4)], [61%N].
    split; [reflexivity|]. split; [auto|]. split; [reflexivity|].
    split; [cbn; lia|]. split; [cbn; now rewrite A1, A2, A3|].
    cbn [decodeGroups]. rewrite I1, I2, I3.
    destruct (group2 a b Ha Hb) as [E1 E2]. now rewrite E1, E2.
  - intros a b c l IH H. inversion H as [|? ? Ha H']; subst.
    inversion H' as [|? ? Hb H'']; subst.
    inversion H'' as [|? ? Hc Hl]; subst.
    destruct (IH Hl) as [core [pad [E [Hpad [Hlen [Hcore [Hall Hdec]]]]]]].
    destruct (sextet_bounds a b Ha Hb) as [B1 [B2 _]].
    destruct (sextet_bounds b c Hb Hc) as [_ [_ [_ [B3 _]]]].
    destruct (sextet_bounds c c Hc Hc) as [_ [_ [_ [_ [_ B4]]]]].
    destruct (sextets _ B1) as [I1 A1], (sextets _ B2) as [I2 A2],
             (sextets _ B3) as [I3 A3], (sextets _ B4) as [I4 A4].
    exists (base64Char (a / 4) :: base64Char ((a mod 4) * 16 + b / 16)
            :: base64Char ((b mod 16) * 4 + c / 64) :: base64Char (c mod 64)
            :: core), pad.
    split; [cbn [toBase64 app]; now rewrite E|]. split; [exact Hpad|].
    split.
    { cbn [app length].
      replace (S (S (S (S (length (core ++ pad)))))) 
        with (length (core ++ pad) + 1 * 4) by lia.
      now rewrite Nat.Div0.mod_add. }
    split.
    { cbn [length].
      replace (S (S (S (S (length core))))) with (length core + 1 * 4) by lia.
      now rewrite Nat.Div0.mod_add. }
    split; [cbn [forallb]; now rewrite A1, A2, A3, A4|].
    cbn [decodeGroups]. rewrite I1, I2, I3, I4, Hdec.
    destruct (group3 a b c Ha Hb Hc) as [E1 [E2 E3]].
    now rewrite E1, E2, E3.
Qed.

Lemma stripPadding_rev (l : str) :
  stripPadding (rev l) =
  match l with
  | 61%N :: 61%N :: r => rev r
  | 61%N :: r => rev r
  | _ => rev l
  end.
Proof. unfold stripPadding. now rewrite rev_involutive. Qed.

Lemma not_padding (x : N) (r : str) :
  isBase64 x = true ->
  match x :: r with
  | 61%N :: 61%N :: r' => rev r'
  | 61%N :: r' => rev r'
  | _ => rev (x :: r)
  end = rev (x :: r)
  /\ match 61%N :: x :: r with
     | 61%N :: 61%N :: r' => rev r'
     | 61%N :: r' => rev r'
     | _ => rev (61%N :: x :: r)
     end = rev (x :: r).
Proof.
  intros H. destruct x as [|p]; [now split|].
  do 6 (try destruct p as [p|p|]; try (now split)).
Qed.

Lemma stripPadding_core (core pad : str) :
  forallb isBase64 core = true ->
  pad = [] \/ pad = [61%N] \/ pad = [61; 61]%N ->
  stripPadding (core ++ pad) = core.
Proof.
  intros Hall Hpad.
  assert (Hrev : forallb isBase64 (rev core) = true).
  { rewrite forallb_forall in *. intros x Hx. apply Hall.
    now apply in_rev. }
  rewrite <- (rev_involutive (core ++ pad)), stripPadding_rev.
  rewrite rev_app_distr.
  destruct Hpad as [-> | [-> | ->]]; cbn [rev app].
  - destruct (rev core) as [|x r] eqn:E.
    + apply (f_equal (@rev N)) in E. rewrite rev_involutive in E.
      now subst.
    + cbn [forallb] in Hrev. apply andb_true_iff in Hrev.
      destruct Hrev as [Hx _].
      destruct (not_padding x r Hx) as [-> _].
      now rewrite <- E, rev_involutive.
  - destruct (rev core) as [|x r] eqn:E.
    + apply (f_equal (@rev N)) in E. rewrite rev_involutive in E.
      now subst.
    + cbn [forallb] in Hrev. apply andb_true_iff in Hrev.
      destruct Hrev as [Hx _].
      destruct (not_padding x r Hx) as [_ ->].
      now rewrite <- E, rev_involutive.
  - apply rev_involutive.
Qed.

Lemma base64_not_whitespace (c : N) :
  isBase64 c = true \/ c = 61%N -> isAsciiWhitespace c = false.
Proof.
  intros [H | ->]; [|reflexivity].
  destruct (isAsciiWhitespace c) eqn:E; [|reflexivity].
  unfold isAsciiWhitespace in E.
  repeat (apply orb_true_iff in E; destruct E as [E | E]);
    apply N.eqb_eq in E; subst c; discriminate H.
Qed.

Lemma filter_all {A : Type} (p : A -> bool) (l : list A) :
  (forall x, In x l -> p x = true) -> filter p l = l.
Proof.
  induction l as [|x l IH]; intros H; [reflexivity|]. cbn.
  rewrite (H x (or_introl eq_refl)), IH; [reflexivity|].
  intros y Hy. apply H. now right.
Qed.

(** X24: the bytes of the file Piper wrote are the bytes the provider
    plays: for every sequence of bytes, [atob] does not throw on what
    [speak] made of it and gives the same bytes back.  With a file that is
    not empty the result of [speak] is one the loop plays; with an empty
    file [speak] still reports a success, which the loop neither plays nor
    logs. *)
Theorem audio_payload_round_trip (bytes : list N) :
  Forall (fun b => (b < 256)%N) bytes ->
  atob (toBase64 bytes) = Some bytes
  /\ atobOk (toBase64 bytes) = true
  /\ success (speak (Closed (Some 0%Z) true (toBase64 bytes))) = true
  /\ (bytes <> [] ->
      unplayable
        (Fulfilled (Some (speak (Closed (Some 0%Z) true (toBase64 bytes)))))
      = false)
  /\ (bytes = [] ->
      unplayable
        (Fulfilled (Some (speak (Closed (Some 0%Z) true (toBase64 bytes)))))
      = true
      /\ logOf
           (Fulfilled (Some (speak (Closed (Some 0%Z) true (toBase64 bytes)))))
         = []).
Proof.
  intros H.
  destruct (toBase64_core bytes H)
    as [core [pad [E [Hpad [Hlen [Hcore [Hall Hdec]]]]]]].
  assert (Ea : atob (toBase64 bytes) = Some bytes).
  { unfold atob. rewrite E.
    rewrite filter_all.
    2:{ intros x Hx. apply negb_true_iff, base64_not_whitespace.
        apply in_app_or in Hx. destruct Hx as [Hx | Hx].
        - left. rewrite forallb_forall in Hall. now apply Hall.
        - right. destruct Hpad as [-> | [-> | ->]]; cbn in Hx;
            intuition congruence. }
    rewrite Hlen. cbn [Nat.eqb].
    rewrite (stripPadding_core core pad Hall Hpad), Hall, Hdec.
    apply Nat.eqb_neq in Hcore. now rewrite Hcore. }
  split; [exact Ea|].
  assert (Eo : atobOk (toBase64 bytes) = true)
    by (rewrite atobOk_atob; now rewrite Ea).
  split; [exact Eo|]. split; [reflexivity|]. split.
  - intros Hne. unfold unplayable, playable, speak.
    cbn [Z.eqb andb success audioData].
    assert (Ht : truthy (Some (toBase64 bytes)) = true).
    { destruct bytes as [|a [|b [|c l]]]; [congruence | reflexivity ..]. }
    rewrite Ht. now rewrite Eo.
  - intros ->. now split.
Qed.

Lemma audio_payload_round_trip_witness :
  atob (toBase64 [82; 73; 70; 70]%N) = Some [82; 73; 70; 70]%N
  /\ toBase64 [82; 73; 70; 70]%N = js "UklGRg==".
Proof.
  split; [|reflexivity].
  apply (audio_payload_round_trip [82; 73; 70; 70]%N).
  repeat constructor.
Defined.

(** ** Segments recorded behind closed gates *)

Lemma ledgerAll_accepted (g : bool) (cs : list str) :
  forall sp c,
  In c (accepted (snd (ledgerAll g sp cs))) ->
  In c cs /\ looksLikeProse c = true /\ In c (fst (ledgerAll g sp cs)).
Proof.
  induction cs as [|x cs IH]; intros sp c H; [destruct H|].
  cbn [ledgerAll] in H |- *.
  destruct (ledger g sp x) as [sp1 out1] eqn:E1.
  destruct (ledgerAll g sp1 cs) as [sp2 out2] eqn:E2.
  cbn [fst snd] in *. unfold accepted in H. rewrite map_app in H.
  apply in_app_or in H. destruct H as [H | H].
  - unfold ledger in E1.
    destruct (looksLikeProse x && negb (has x sp))%bool eqn:Ex.
    + injection E1 as <- <-. cbn in H. destruct H as [<- | []].
      apply andb_true_iff in Ex. destruct Ex as [Ex _].
      split; [now left|]. split; [exact Ex|].
      pose proof (ledgerAll_incl g cs (add x sp)) as [Hi _].
      rewrite E2 in Hi. apply Hi. unfold add.
      destruct (has x sp) eqn:Eh; [now apply has_In|].
      apply in_or_app. right. now left.
    + injection E1 as <- <-. destruct H.
  - specialize (IH sp1 c). rewrite E2 in IH. cbn [fst snd] in IH.
    destruct (IH H) as [H1 [H2 H3]]. split; [now right | now split].
Qed.

Lemma feed_closed (chunks : list str) :
  forall st, gatesOpen st = false ->
             speakCalls (snd (feed st chunks)) = []
             /\ gatesOpen (fst (feed st chunks)) = false.
Proof.
  induction chunks as [|c cs IH]; intros st H; [now split|].
  rewrite feed_cons.
  assert (H1 : gatesOpen (fst (onPtyData st c)) = false).
  { destruct (onPtyData_flags st c) as [E1 [E2 E3]].
    unfold gatesOpen in *. now rewrite E1, E2, E3. }
  destruct (IH _ H1) as [IH1 IH2].
  cbn [fst snd]. rewrite speakCalls_app, IH1, app_nil_r.
  split; [|exact IH2].
  rewrite onPtyData_stages. cbv zeta. cbn [snd]. rewrite H.
  apply ledgerAll_closed.
Qed.

(** X25: with one of the three gates closed (voice output off, tab in the
    background, or no user input yet) the handler calls [speakText] for no
    chunk and the gates stay as they are; what it records meanwhile is not
    spoken later: once a segment was accepted, and as long as the set was
    not cut down, the handler does nothing with the same segment again,
    whatever the flags are by then. *)
Theorem closed_gates_record_silently (st : Term) (chunks : list str) :
  gatesOpen st = false ->
  speakCalls (snd (feed st chunks)) = []
  /\ gatesOpen (fst (feed st chunks)) = false
  /\ forall data c silent enabled active,
       In c (accepted (snd (onPtyData st data))) ->
       length (spokenContent (snd (fst (extractPhase st data)))) <= 1000 ->
       handleContent
         (withFlags (fst (onPtyData st data)) silent enabled active) c
       = (withFlags (fst (onPtyData st data)) silent enabled active, []).
Proof.
  intros H. destruct (feed_closed chunks st H) as [H1 H2].
  split; [exact H1|]. split; [exact H2|].
  intros data c silent enabled active Hin Hlen.
  rewrite extractPhase_stages in Hlen. cbv zeta in Hlen.
  cbn [fst snd withSpoken spokenContent] in Hlen.
  rewrite onPtyData_stages in Hin |- *. cbv zeta in Hin |- *.
  cbn [fst snd] in Hin |- *.
  apply ledgerAll_accepted in Hin. destruct Hin as [_ [_ Hin]].
  unfold handleContent, withFlags. cbn [spokenContent ttsBuffer].
  rewrite (trimSpoken_small _ Hlen).
  apply has_In in Hin. rewrite Hin. now rewrite andb_false_r.
Qed.

Lemma closed_gates_record_silently_witness :
  speakCalls
    (snd (feed (mkTerm [] [] false true false)
               [OPEN ++ js "Hello world." ++ CLOSE]))
  = []
  /\ handleContent
       (withFlags (fst (onPtyData (mkTerm [] [] false true false)
                                  (OPEN ++ js "Hello world." ++ CLOSE)))
                  false true true)
       (js "Hello world.")
     = (withFlags (fst (onPtyData (mkTerm [] [] false true false)
                                  (OPEN ++ js "Hello world." ++ CLOSE)))
                  false true true, []).
Proof.
  destruct (closed_gates_record_silently (mkTerm [] [] false true false)
              [OPEN ++ js "Hello world." ++ CLOSE]) as [E [_ H]];
    [reflexivity|].
  split; [exact E|].
  apply H; [vm_compute; now left | vm_compute; lia].
Defined.

(** X26: the filter of the terminal and the filter of the provider fit:
    every segment the handler accepts, cleaned by [speakText], still has
    three code units or more, so with the output enabled [speakText] pushes
    it on the queue; no accepted segment is dropped as too short. *)
Theorem accepted_segments_are_enqueued (st : Term) (data c : str) :
  controlFree (ttsBuffer st) ->
  In c (accepted (snd (onPtyData st data))) ->
  looksLikeProse c = true
  /\ 3 <= length (cleanText c)
  /\ forall o, enabledRef o = true ->
               speakText o c = processQueue (push o (cleanText c)).
Proof.
  intros Hc Hin. rewrite onPtyData_stages in Hin. cbv zeta in Hin.
  cbn [snd] in Hin. apply ledgerAll_accepted in Hin.
  destruct Hin as [Hseg [Hp _]].
  assert (Hb : controlFree (ttsBuffer st ++ stripAnsi data))
    by (apply Forall_app; split; [exact Hc | apply stripAnsi_output]).
  destruct (segments_controlFree _ c Hb Hseg) as [inner [-> Hi]].
  pose proof (cleanText_long_enough inner Hi Hp) as Hl.
  split; [exact Hp|]. split; [exact Hl|].
  intros o He. now apply speakText_accepts.
Qed.

Lemma accepted_segments_are_enqueued_witness :
  speakText (setEnabled initial true) (js "Hello   world.")
  = processQueue (push (setEnabled initial true) (js "Hello world.")).
Proof.
  destruct (accepted_segments_are_enqueued listening
              (OPEN ++ js " Hello   world. " ++ CLOSE) (js "Hello   world."))
    as [_ [_ H]].
  - constructor.
  - vm_compute. now left.
  - now apply H.
Defined.

(** ** Pasting and dropping files *)

Lemma splitLines_line (l : str) : ~ In 10%N l -> splitLines l = [l].
Proof.
  induction l as [|c l IH]; intros H; [reflexivity|]. cbn [splitLines].
  destruct (N.eqb_spec c 10) as [-> | Hc]; [elim H; now left|].
  rewrite IH; [reflexivity|]. intros Hin. apply H. now right.
Qed.

Lemma splitLines_app (l rest : str) :
  ~ In 10%N l -> splitLines (l ++ 10%N :: rest) = l :: splitLines rest.
Proof.
  induction l as [|c l IH]; intros H.
  - cbn [app splitLines]. now rewrite N.eqb_refl.
  - cbn [app splitLines].
    destruct (N.eqb_spec c 10) as [-> | Hc]; [elim H; now left|].
    rewrite IH; [reflexivity|]. intros Hin. apply H. now right.
Qed.

(** Splitting at the line feeds undoes joining with them. *)
Lemma splitLines_join (ls : list str) :
  ls <> [] -> Forall (fun l => ~ In 10%N l) ls ->
  splitLines (join [10%N] ls) = ls.
Proof.
  intros Hne H. induction H as [|l ls Hl Hls IH]; [congruence|]. clear Hne.
  cbn [join]. destruct ls as [|l' ls']; [now apply splitLines_line|].
  cbn [app]. rewrite (splitLines_app l _ Hl). f_equal.
  apply IH. discriminate.
Qed.

Lemma replaceFirst_prefix (pat s : str) :
  startsWith pat s = true -> replaceFirst pat [] s = skipn (length pat) s.
Proof.
  intros H. unfold replaceFirst. rewrite cut_unfold, H. reflexivity.
Qed.

Lemma mapOutcome_ext {A B : Type} (f g : A -> Outcome B) (l : list A) :
  (forall x, In x l -> f x = g x) -> mapOutcome f l = mapOutcome g l.
Proof.
  induction l as [|x l IH]; intros H; [reflexivity|]. cbn.
  rewrite (H x (or_introl eq_refl)), IH; [reflexivity|].
  intros y Hy. apply H. now right.
Qed.

Lemma uriPaths_lines (decodeURIComponent : str -> Outcome str)
      (ls : list str) :
  ls <> [] -> Forall (fun l => ~ In 10%N l) ls ->
  uriPaths decodeURIComponent (join [10%N] ls)
  = mapOutcome (fun line => decodeURIComponent (skipn 7 line))
               (fileLines ls).
Proof.
  intros Hne H. unfold uriPaths. rewrite (splitLines_join ls Hne H).
  apply mapOutcome_ext. intros x Hx. apply filter_In in Hx.
  destruct Hx as [_ Hx]. now rewrite (replaceFirst_prefix _ _ Hx).
Qed.

(** X27: a paste of text that starts with [file://], with no image on the
    clipboard: of the lines of the text, trimmed, those that start with
    [file://] are written to the pty as paths, the prefix taken off and the
    rest decoded, with single spaces in between; every other line is
    dropped.  If that gives the empty text, the clipboard text is written
    as it is; if a path does not decode, nothing is written. *)
Theorem paste_writes_file_paths
        (decodeURIComponent : str -> Outcome str)
        (image : ImageResult) (ls : list str) :
  (imageSuccess image && hasImage image && truthy (imagePath image))%bool
  = false ->
  Forall (fun l => ~ In 10%N l) ls ->
  startsWith FILE_URI (join [10%N] ls) = true ->
  handlePaste decodeURIComponent (Ret image) (Ret (join [10%N] ls))
  = match mapOutcome (fun line => decodeURIComponent (skipn 7 line))
                     (fileLines ls) with
    | Throws => Failed
    | Ret paths =>
        match join [32%N] paths with
        | [] => WritePty (join [10%N] ls)
        | cleanText => WritePty cleanText
        end
    end.
Proof.
  intros Hi Hl Hs. unfold handlePaste. rewrite Hi.
  assert (Hne : ls <> []) by (intros ->; discriminate Hs).
  destruct (join [10%N] ls) as [|c t] eqn:E; [discriminate Hs|].
  rewrite Hs, <- E. now rewrite (uriPaths_lines _ ls Hne Hl).
Qed.

Lemma paste_writes_file_paths_witness :
  handlePaste noEscapes (Ret (mkImage true false None))
    (Ret (join [10%N] [js "file:///home/u/a.txt" ++ [13%N];
                       js "some other line";
                       js "  file:///home/u/b.txt"]))
  = WritePty (js "/home/u/a.txt /home/u/b.txt").
Proof.
  rewrite (paste_writes_file_paths noEscapes (mkImage true false None)
             [js "file:///home/u/a.txt" ++ [13%N]; js "some other line";
              js "  file:///home/u/b.txt"]).
  - vm_compute. reflexivity.
  - reflexivity.
  - repeat constructor; vm_compute; intuition discriminate.
  - vm_compute. reflexivity.
Defined.

(** X28: a drop writes the paths of the dropped files, joined by single
    spaces, whenever [getPathForFile] gave a path for one file at least;
    the URI list is then not looked at.  Only with no such path the lines
    of the URI list that start with [file://] are written, as for a paste;
    with none of these either, nothing is written. *)
Theorem drop_prefers_file_paths
        (decodeURIComponent : str -> Outcome str)
        (files : list (Outcome str)) (ls : list str) :
  Forall (fun l => ~ In 10%N l) ls -> join [10%N] ls <> [] ->
  let paths := flat_map (fun f => match f with
                                  | Ret (c :: p) => [c :: p]
                                  | _ => []
                                  end) files in
  (paths <> [] ->
   forall uriList,
     handleDrop decodeURIComponent files uriList
     = WritePty (join [32%N] paths))
  /\ (paths = [] ->
      handleDrop decodeURIComponent files (join [10%N] ls)
      = match mapOutcome (fun line => decodeURIComponent (skipn 7 line))
                         (fileLines ls) with
        | Throws => Failed
        | Ret [] => NoWrite
        | Ret uris => WritePty (join [32%N] uris)
        end)
  /\ (paths = [] -> handleDrop decodeURIComponent files [] = NoWrite).
Proof.
  intros Hl Hne paths. unfold handleDrop. fold paths.
  split; [|split].
  - intros Hp uriList. destruct paths; [congruence | reflexivity].
  - intros ->. assert (Hls : ls <> []) by (intros ->; now apply Hne).
    destruct (join [10%N] ls) as [|c t] eqn:E; [congruence|].
    rewrite <- E. now rewrite (uriPaths_lines _ ls Hls Hl).
  - now intros ->.
Qed.

Lemma drop_prefers_file_paths_witness :
  handleDrop noEscapes [Throws; Ret []; Ret (js "/home/u/a.txt")]
             (js "file:///home/u/b.txt")
  = WritePty (js "/home/u/a.txt")
  /\ handleDrop noEscapes [Throws; Ret []]
                (join [10%N] [js "file:///home/u/b.txt"; js "https://x.org"])
     = WritePty (js "/home/u/b.txt").
Proof.
  destruct (drop_prefers_file_paths noEscapes
              [Throws; Ret []; Ret (js "/home/u/a.txt")]
              [js "file:///home/u/b.txt"]) as [H1 _].
  { repeat constructor; vm_compute; intuition discriminate. }
  { discriminate. }
  destruct (drop_prefers_file_paths noEscapes [Throws; Ret []]
              [js "file:///home/u/b.txt"; js "https://x.org"]) as [_ [H2 _]].
  { repeat constructor; vm_compute; intuition discriminate. }
  { discriminate. }
  split.
  - apply H1. discriminate.
  - rewrite H2 by reflexivity. vm_compute. reflexivity.
Defined.
